(** * MARKET: resilient ATM option collection pipeline

    A shallow embedding of [app/brokers/kite_helpers.py],
    [app/collectors/atm_option_collector.py] and [app/sinks/influx_sink.py],
    with the properties of the pipeline stated and proved over it.

    Modelling conventions.
    - A Python value is a [pyval]. Python [int] is [Z]; Python [float] is a
      rational [Q], and in the model of [collect] float arithmetic is exact;
      NaN is not modelled. [Binary64] models the binary rounding of the two
      float computations on which a decision or a stored value depends, the
      ATM strike (line 84) and the averaged implied volatility (line 117),
      and the properties of these two are stated over it.
    - An exception of class [Exception] is an [exn]; a computation that may
      raise returns an [outcome].
    - Effects (upstream calls, token refreshes, sleeps, the baseline maps, the
      two sinks) are threaded through an explicit [world]; the collaborators
      (the broker client, the token refresher, the file system, the
      time-series writer) are oracles fixed in a Section.
    - The snapshot files are a log of the writes, latest first; what a path
      holds is the record of the latest write to it ([on_disk]).
    - [print] has no influence on control flow and is left out.
    - The [while True] loop of [safe_call] runs on fuel; fuel above
      [max_retries] is never exhausted ([safe_call_loop_bounded]). *)

From Stdlib Require Import ZArith QArith Qminmax Qabs Qpower List String Ascii
  Bool.
From Stdlib Require Import Lia Lqa.
From stdpp Require Import gmap strings pretty.

Import ListNotations.
#[local] Set Warnings "-register-all".
Local Open Scope string_scope.
Local Open Scope Z_scope.

(** ** Python values *)

Module Py.

Inductive pyval : Type :=
| PNone
| PBool (b : bool)
| PInt (z : Z)
| PFloat (q : Q)
| PStr (s : string)
| PDict (kvs : list (string * pyval))
| PList (l : list pyval).

(** Exceptions deriving from [Exception]. *)
Inductive exn : Type :=
| AttributeError
| KeyError
| TypeError
| ValueError
| IndexError
| ZeroDivisionError
| OSError
| OtherError (msg : string).

(** What running a piece of code yields: a value, a raised exception, or
    [OutOfFuel] when a loop was cut by the model's fuel (never by Python). *)
Inductive outcome (A : Type) : Type :=
| Ok (a : A)
| Raise (e : exn)
| OutOfFuel.

Arguments Ok {A} a.
Arguments Raise {A} e.
Arguments OutOfFuel {A}.

(** The explicit empty result [{}]. *)
Definition empty_dict : pyval := PDict [].

(** Truthiness, as used by [x or {}], [if not x], [if x]. *)
Definition truthy (v : pyval) : bool :=
  match v with
  | PNone => false
  | PBool b => b
  | PInt z => negb (z =? 0)
  | PFloat q => negb (Qeq_bool q 0)
  | PStr s => negb (String.eqb s "")
  | PDict kvs => match kvs with [] => false | _ => true end
  | PList l => match l with [] => false | _ => true end
  end.

(** [x or y] *)
Definition py_or (x y : pyval) : pyval := if truthy x then x else y.

(** [isinstance(x, int)]: [bool] is a subclass of [int]. *)
Definition isinstance_int (v : pyval) : bool :=
  match v with PInt _ | PBool _ => true | _ => false end.

(** [isinstance(x, (int, float))] *)
Definition isinstance_num (v : pyval) : bool :=
  match v with PInt _ | PBool _ | PFloat _ => true | _ => false end.

Definition Z_of_bool (b : bool) : Z := if b then 1 else 0.

(** The integer held by an [int] (or [bool]) value. *)
Definition int_val (v : pyval) : option Z :=
  match v with
  | PInt z => Some z
  | PBool b => Some (Z_of_bool b)
  | _ => None
  end.

(** The number held by a numeric value, as a rational. *)
Definition num_val (v : pyval) : option Q :=
  match v with
  | PInt z => Some (inject_Z z)
  | PBool b => Some (inject_Z (Z_of_bool b))
  | PFloat q => Some q
  | _ => None
  end.

(** [a - b]: [int] when both are, [float] when one is, [TypeError] else. *)
Definition py_sub (a b : pyval) : outcome pyval :=
  match int_val a, int_val b with
  | Some x, Some y => Ok (PInt (x - y))
  | _, _ =>
    match num_val a, num_val b with
    | Some x, Some y => Ok (PFloat (x - y))
    | _, _ => Raise TypeError
    end
  end.

(** [a + b] on numbers. *)
Definition py_add (a b : pyval) : outcome pyval :=
  match int_val a, int_val b with
  | Some x, Some y => Ok (PInt (x + y))
  | _, _ =>
    match num_val a, num_val b with
    | Some x, Some y => Ok (PFloat (x + y))
    | _, _ => Raise TypeError
    end
  end.

(** [a * b] on numbers. *)
Definition py_mul (a b : pyval) : outcome pyval :=
  match int_val a, int_val b with
  | Some x, Some y => Ok (PInt (x * y))
  | _, _ =>
    match num_val a, num_val b with
    | Some x, Some y => Ok (PFloat (x * y))
    | _, _ => Raise TypeError
    end
  end.

(** [a / b]: true division, always a [float]; a zero divisor raises. *)
Definition py_truediv (a b : pyval) : outcome pyval :=
  match num_val a, num_val b with
  | Some x, Some y =>
    if Qeq_bool y 0 then Raise ZeroDivisionError else Ok (PFloat (x / y))
  | _, _ => Raise TypeError
  end.

(** [a != 0] for a numeric [a]. *)
Definition py_ne0 (a : pyval) : bool :=
  match num_val a with
  | Some x => negb (Qeq_bool x 0)
  | None => true
  end.

Fixpoint assoc (k : string) (kvs : list (string * pyval)) : option pyval :=
  match kvs with
  | [] => None
  | (k', v) :: rest => if String.eqb k k' then Some v else assoc k rest
  end.

(** [d.get(k, default)]; only a dict has [get]. *)
Definition py_get (d : pyval) (k : string) (default : pyval) : outcome pyval :=
  match d with
  | PDict kvs => Ok (match assoc k kvs with Some v => v | None => default end)
  | _ => Raise AttributeError
  end.

(** [d[k]] *)
Definition py_item (d : pyval) (k : string) : outcome pyval :=
  match d with
  | PDict kvs => match assoc k kvs with Some v => Ok v | None => Raise KeyError end
  | _ => Raise TypeError
  end.

(** [d[k] = v] on the items of a dict: an existing key keeps its place. *)
Fixpoint dict_set (k : string) (v : pyval) (kvs : list (string * pyval))
    : list (string * pyval) :=
  match kvs with
  | [] => [(k, v)]
  | (k', v') :: rest =>
    if String.eqb k k' then (k, v) :: rest else (k', v') :: dict_set k v rest
  end.

(** Sequencing of code that may raise. *)
Definition obind {A B} (o : outcome A) (k : A -> outcome B) : outcome B :=
  match o with
  | Ok a => k a
  | Raise e => Raise e
  | OutOfFuel => OutOfFuel
  end.

Declare Scope outcome_scope.
Delimit Scope outcome_scope with outcome.
Notation "'let?' x := c 'in' k" := (obind c (fun x => k))
  (at level 10, x name, c at level 100, k at level 200) : outcome_scope.

(** [round(x)] on a float: the nearest integer, a tie going to the even one. *)
Definition py_round (q : Q) : Z :=
  let n := Qnum q in
  let d := Zpos (Qden q) in
  let f := n / d in
  let r := n mod d in
  if 2 * r <? d then f
  else if d <? 2 * r then f + 1
  else if Z.even f then f else f + 1.

(** [int(x)] on a float: truncation towards zero. *)
Definition py_trunc (q : Q) : Z := Z.quot (Qnum q) (Zpos (Qden q)).

(** [str(n)] for an [int]. *)
Definition str_of_Z (z : Z) : string := pretty z.

End Py.

(** ** Effects: the world and the state-and-exception monad *)

Module Eff.
Import Py.

(** A point handed to the time-series writer. *)
Record point : Type := {
  measurement : string;
  tags : list (string * string);
  fields : list (string * pyval);
  time : pyval
}.

(** Everything the pipeline reads and mutates besides its arguments. *)
Record world : Type := {
  kite_calls : nat;                 (* upstream invocations so far *)
  refreshes : nat;                  (* [ensure_token_fn] invocations so far *)
  slept : list Q;                   (* [time.sleep] arguments, latest first *)
  oi_open_map : gmap string pyval;  (* [self.oi_open_map] *)
  iv_open_map : gmap string pyval;  (* [self.iv_open_map] *)
  files : list (string * pyval);    (* snapshot writes, latest first *)
  points : list point               (* point writes, latest first *)
}.

Definition world0 : world :=
  {| kite_calls := 0; refreshes := 0; slept := [];
     oi_open_map := ∅; iv_open_map := ∅; files := []; points := [] |}.

Definition M (A : Type) : Type := world -> world * outcome A.

Definition ret {A} (a : A) : M A := fun w => (w, Ok a).

Definition raise {A} (e : exn) : M A := fun w => (w, Raise e).

Definition bind {A B} (c : M A) (k : A -> M B) : M B :=
  fun w =>
    match c w with
    | (w', Ok a) => k a w'
    | (w', Raise e) => (w', Raise e)
    | (w', OutOfFuel) => (w', OutOfFuel)
    end.

(** [try: c  except Exception as e: h e]; effects made before the raise stay. *)
Definition try_except {A} (c : M A) (h : exn -> M A) : M A :=
  fun w =>
    match c w with
    | (w', Raise e) => h e w'
    | r => r
    end.

Definition lift {A} (o : outcome A) : M A := fun w => (w, o).

Definition get_world : M world := fun w => (w, Ok w).

Definition modify (f : world -> world) : M unit := fun w => (f w, Ok tt).

Declare Scope eff_scope.
Delimit Scope eff_scope with eff.
Notation "'do' x <- c ; k" := (bind c (fun x => k))
  (at level 10, x name, c at level 100, k at level 200) : eff_scope.
Notation "'run' c ; k" := (bind c (fun _ => k))
  (at level 10, c at level 100, k at level 200) : eff_scope.

End Eff.

(** ** [app/brokers/kite_helpers.py] *)

Module KiteHelpers.
Import Py Eff.
Local Open Scope eff_scope.
Local Open Scope outcome_scope.

(** *** What one invocation of a broker method can do *)

(** The [Retry-After] header of a response: absent, a text that [int()]
    accepts, or any other text. *)
Inductive header_value : Type :=
| Absent
| IntText (z : Z)
| OtherText.

(** The parts of a [KiteException] that [safe_call] inspects. *)
Record kite_exception : Type := {
  (* "TokenException" in str(type(ex)) or "TokenException" in str(ex) *)
  is_token_exception : bool;
  (* "Too many requests" in str(ex) *)
  says_too_many : bool;
  (* getattr(ex, "code", None) *)
  code : option Z;
  (* the Retry-After entry of ex.response.headers, when those exist *)
  kite_headers : option header_value
}.

(** The response carried by a [requests.exceptions.HTTPError]. *)
Record http_response : Type := {
  status_code : Z;
  http_headers : header_value
}.

Inductive upstream : Type :=
| Returns (payload : pyval)
| RaisesKite (ex : kite_exception)
| RaisesHTTP (response : option http_response)
| RaisesOther (e : exn).

Definition max_retries : nat := 3.
Definition base_delay : Q := 2 # 10.

(** [time.sleep(secs)]: a negative argument raises [ValueError]. *)
Definition time_sleep (secs : Q) : M unit :=
  fun w =>
    if Qle_bool 0 secs
    then ({| kite_calls := kite_calls w; refreshes := refreshes w;
             slept := secs :: slept w;
             oi_open_map := oi_open_map w; iv_open_map := iv_open_map w;
             files := files w; points := points w |}, Ok tt)
    else (w, Raise ValueError).

(** [base_delay * (2 ** attempt)] *)
Definition backoff (attempt : nat) : Q :=
  base_delay * inject_Z (2 ^ Z.of_nat attempt).

(** Delay of the [KiteException] rate-limit branch (lines 49-61). *)
Definition kite_delay (ex : kite_exception) (attempt : nat) : Q :=
  let retry_after :=
    match kite_headers ex with
    | Some Absent => Some 0        (* int(headers.get("Retry-After", 0)) *)
    | Some (IntText z) => Some z
    | Some OtherText => None       (* int() raised: retry_after stays None *)
    | None => None
    end in
  match retry_after with
  | Some z =>
    if negb (z =? 0) && (0 <? z)    (* retry_after and retry_after > 0 *)
    then inject_Z (Z.min z 2)
    else Qmin (backoff attempt) 2
  | None => Qmin (backoff attempt) 2
  end.

(** Delay of the [HTTPError] 429 branch (lines 78-83):
    [min(retry_after or base_delay * (2 ** attempt), 2.0)]. *)
Definition http_delay (r : http_response) (attempt : nat) : Q :=
  let retry_after :=
    match http_headers r with
    | IntText z => Some z
    | Absent | OtherText => None   (* int() raised: retry_after = None *)
    end in
  match retry_after with
  | Some z => Qmin (if z =? 0 then backoff attempt else inject_Z z) 2
  | None => Qmin (backoff attempt) 2
  end.

(** The spec's AuthFailure: a [KiteException] that names [TokenException]. *)
Definition is_auth_failure (u : upstream) : bool :=
  match u with
  | RaisesKite ex => is_token_exception ex
  | _ => false
  end.

(** No HTTP 429 response with a negative [Retry-After]. *)
Definition nonneg_hint (u : upstream) : bool :=
  match u with
  | RaisesHTTP (Some resp) =>
    if status_code resp =? 429 then
      match http_headers resp with
      | IntText z => 0 <=? z
      | _ => true
      end
    else true
  | _ => true
  end.

Definition is_429 (c : option Z) : bool :=
  match c with Some z => z =? 429 | None => false end.

Section SafeCall.

(** The broker client: outcome of the [n]-th invocation overall, of the
    given method on the given arguments. *)
Variable kite : nat -> string -> list string -> upstream.
(** The token refresher: whether its [n]-th invocation raises. *)
Variable ensure_token_fn : nat -> option exn.

(** [m = getattr(kite, method_name)] followed by the call of [m] on [args]. *)
Definition invoke (method_name : string) (args : list string) : M upstream :=
  fun w =>
    ({| kite_calls := S (kite_calls w); refreshes := refreshes w;
        slept := slept w;
        oi_open_map := oi_open_map w; iv_open_map := iv_open_map w;
        files := files w; points := points w |},
     Ok (kite (kite_calls w) method_name args)).

(** [ensure_token_fn()] *)
Definition ensure_token : M unit :=
  fun w =>
    ({| kite_calls := kite_calls w; refreshes := S (refreshes w);
        slept := slept w;
        oi_open_map := oi_open_map w; iv_open_map := iv_open_map w;
        files := files w; points := points w |},
     match ensure_token_fn (refreshes w) with
     | Some e => Raise e
     | None => Ok tt
     end).

(** The [while True] loop of [safe_call]; [attempt] is the loop's counter. *)
Fixpoint safe_call_loop (fuel : nat) (method_name : string)
    (args : list string) (attempt : nat) : M pyval :=
  match fuel with
  | O => lift OutOfFuel
  | S fuel' =>
    do r <- invoke method_name args;
    match r with
    | Returns v => ret v
    | RaisesKite ex =>
      if is_token_exception ex then
        run try_except ensure_token (fun _ => ret tt);
        let attempt := S attempt in
        if (max_retries <? attempt)%nat then ret empty_dict
        else safe_call_loop fuel' method_name args attempt
      else if says_too_many ex || is_429 (code ex) then
        run time_sleep (kite_delay ex attempt);
        let attempt := S attempt in
        if (max_retries <? attempt)%nat then ret empty_dict
        else safe_call_loop fuel' method_name args attempt
      else ret empty_dict
    | RaisesHTTP (Some resp) =>
      if status_code resp =? 429 then
        run time_sleep (http_delay resp attempt);
        let attempt := S attempt in
        if (max_retries <? attempt)%nat then ret empty_dict
        else safe_call_loop fuel' method_name args attempt
      else ret empty_dict
    | RaisesHTTP None => ret empty_dict
    | RaisesOther _ => ret empty_dict
    end
  end.

(** [safe_call(kite, ensure_token_fn, method_name, args)]: the loop
    started at [attempt = 0]. *)
Definition safe_call (fuel : nat) (method_name : string)
    (args : list string) : M pyval :=
  safe_call_loop fuel method_name args 0%nat.

End SafeCall.

(** *** Dates and the calendar *)

(** A [datetime.date]. *)
Record date : Type := { year : Z; month : Z; day : Z }.

Definition MINYEAR : Z := 1.
Definition MAXYEAR : Z := 9999.

Definition isleap (y : Z) : bool :=
  (y mod 4 =? 0) && (negb (y mod 100 =? 0) || (y mod 400 =? 0)).

(** [calendar.mdays] *)
Definition mdays (m : Z) : Z :=
  nth (Z.to_nat m) [0; 31; 28; 31; 30; 31; 30; 31; 31; 30; 31; 30; 31] 0.

Definition days_in_month (y m : Z) : Z :=
  mdays m + (if (m =? 2) && isleap y then 1 else 0).

(** Days before January 1st of year [y]. *)
Definition days_before_year (y : Z) : Z :=
  let y := y - 1 in y * 365 + y / 4 - y / 100 + y / 400.

(** Days of year [y] before the first day of month [m]. *)
Definition days_before_month (y m : Z) : Z :=
  nth (Z.to_nat m) [0; 0; 31; 59; 90; 120; 151; 181; 212; 243; 273; 304; 334] 0
  + (if (2 <? m) && isleap y then 1 else 0).

(** Proleptic Gregorian ordinal: January 1st of year 1 is day 1. *)
Definition ymd2ord (y m d : Z) : Z :=
  days_before_year y + days_before_month y m + d.

Definition toordinal (t : date) : Z := ymd2ord (year t) (month t) (day t).

(** [date.weekday()]: Monday is 0, Thursday is 3, Sunday is 6. *)
Definition weekday (y m d : Z) : Z := (ymd2ord y m d + 6) mod 7.

Definition THURSDAY : Z := 3.

Definition valid_date (t : date) : Prop :=
  MINYEAR <= year t <= MAXYEAR /\ 1 <= month t <= 12 /\
  1 <= day t <= days_in_month (year t) (month t).

(** The constructor [date(y, m, d)], which checks its arguments. *)
Definition date_new (y m d : Z) : outcome date :=
  if (MINYEAR <=? y) && (y <=? MAXYEAR) && (1 <=? m) && (m <=? 12)
     && (1 <=? d) && (d <=? days_in_month y m)
  then Ok {| year := y; month := m; day := d |}
  else Raise ValueError.

(** [calendar.weekday]: a year outside the [date] range is first mapped into
    it, 400 years being a whole number of weeks. *)
Definition calendar_weekday (y m d : Z) : Z :=
  let y :=
    if (MINYEAR <=? y) && (y <=? MAXYEAR) then y else 2000 + y mod 400 in
  weekday y m d.

(** [calendar.monthrange]: weekday of the first day, and number of days. *)
Definition monthrange (y m : Z) : outcome (Z * Z) :=
  if (1 <=? m) && (m <=? 12)
  then Ok (calendar_weekday y m 1, days_in_month y m)
  else Raise ValueError.

(** [range(1, n + 1)] *)
Definition range1 (n : Z) : list Z :=
  map (fun i => Z.of_nat i + 1) (seq 0 (Z.to_nat n)).

(** [Calendar.itermonthdays] with Monday as the first day of the week: the
    days of the month, padded with zeros to whole weeks. *)
Definition itermonthdays (day1 ndays : Z) : list Z :=
  let days_before := day1 mod 7 in
  let days_after := (0 - day1 - ndays) mod 7 in
  repeat 0 (Z.to_nat days_before) ++ range1 ndays
  ++ repeat 0 (Z.to_nat days_after).

(** [[days[i:i+7] for i in range(0, len(days), 7)]] *)
Fixpoint weeks_of (fuel : nat) (days : list Z) : list (list Z) :=
  match fuel with
  | O => []
  | S fuel' =>
    match days with
    | [] => []
    | _ => firstn 7 days :: weeks_of fuel' (skipn 7 days)
    end
  end.

(** [calendar.monthcalendar(y, m)] *)
Definition monthcalendar (y m : Z) : outcome (list (list Z)) :=
  let? range := monthrange y m in
  let days := itermonthdays (fst range) (snd range) in
  Ok (weeks_of (length days) days).

(** [[w[3] for w in cal if w[3] != 0]]; every week has seven entries. *)
Definition thursdays (cal : list (list Z)) : list Z :=
  map (fun w => nth 3 w 0)
      (List.filter (fun w => negb (nth 3 w 0 =? 0)) cal).

(** [l[-1]] *)
Definition last_item (l : list Z) : outcome Z :=
  match rev l with
  | [] => Raise IndexError
  | x :: _ => Ok x
  end.

(** [this_month_expiry()], with [date.today()] passed as [t]. *)
Definition this_month_expiry (t : date) : outcome date :=
  let? cal := monthcalendar (year t) (month t) in
  let thurs := thursdays cal in
  let? d := last_item thurs in
  date_new (year t) (month t) d.

(** [next_month_expiry()], with [date.today()] passed as [t]. *)
Definition next_month_expiry (t : date) : outcome date :=
  let m := (month t mod 12) + 1 in
  let y := year t + (if month t =? 12 then 1 else 0) in
  let? cal := monthcalendar y m in
  let thurs := thursdays cal in
  let? d := last_item thurs in
  date_new y m d.

End KiteHelpers.

(** ** [app/sinks/influx_sink.py] *)

Module InfluxSink.
Import Py Eff.
Local Open Scope eff_scope.

(** [_ffloat]: [float(val)] if numeric, else [None]. *)
Definition _ffloat (val : pyval) : pyval :=
  match num_val val with
  | Some q => PFloat q
  | None => PNone
  end.

(** [_fint]: [int(val)] if numeric, else [None]. *)
Definition _fint (val : pyval) : pyval :=
  match val with
  | PInt z => PInt z
  | PBool b => PInt (Z_of_bool b)
  | PFloat q => PInt (py_trunc q)
  | _ => PNone
  end.

(** [rec.get(k)] on a record that is a dict. *)
Definition rec_get (rec : pyval) (k : string) : M pyval :=
  lift (py_get rec k PNone).

Definition is_none (v : pyval) : bool :=
  match v with PNone => true | _ => false end.

(** [{k: v for k, v in d.items() if v is not None}] *)
Definition drop_none (kvs : list (string * pyval)) : list (string * pyval) :=
  List.filter (fun kv => negb (is_none (snd kv))) kvs.

Definition float_fields : list (string * string) :=
  [("last_price", "last_price"); ("average_price", "average_price");
   ("ohlc_open", "ohlc.open"); ("ohlc_high", "ohlc.high");
   ("ohlc_low", "ohlc.low"); ("ohlc_close", "ohlc.close");
   ("net_change", "net_change"); ("net_change_percent", "net_change_percent");
   ("day_change", "day_change"); ("day_change_percent", "day_change_percent");
   ("iv", "iv")].

Definition int_fields : list (string * string) :=
  [("volume", "volume"); ("oi", "oi"); ("oi_open", "oi_open");
   ("oi_change", "oi_change"); ("days_to_expiry", "days_to_expiry");
   ("atm_strike_val", "atm_strike")].

(** One entry [name: conv(rec.get(key))] after another. *)
Fixpoint convert_fields (conv : pyval -> pyval) (rec : pyval)
    (names : list (string * string)) : M (list (string * pyval)) :=
  match names with
  | [] => ret []
  | (name, key) :: rest =>
    do v <- rec_get rec key;
    do tl <- convert_fields conv rec rest;
    ret ((name, conv v) :: tl)
  end.

Section WriteAtmLeg.

(** [datetime.fromisoformat]: [None] when it raises. *)
Variable fromisoformat : pyval -> option pyval.
(** [str(v)] of a tag value that is neither [None] nor a string. *)
Variable str_other : pyval -> string.
(** [writer.write_api.write(bucket=writer.bucket, record=p)]: the
    exception it raises, if any. *)
Variable write_api_write : point -> option exn.

Definition py_str (v : pyval) : string :=
  match v with
  | PStr s => s
  | PInt z => str_of_Z z
  | _ => str_other v
  end.

(** The loop [if v is not None: p = p.tag(k, str(v))]. *)
Definition tag_all (kvs : list (string * pyval)) : list (string * string) :=
  map (fun kv => (fst kv, py_str (snd kv))) (drop_none kvs).

Definition write_point (p : point) : M unit :=
  fun w =>
    match write_api_write p with
    | Some e => (w, Raise e)
    | None =>
      ({| kite_calls := kite_calls w; refreshes := refreshes w;
          slept := slept w;
          oi_open_map := oi_open_map w; iv_open_map := iv_open_map w;
          files := files w; points := p :: points w |}, Ok tt)
    end.

(** The body of the [try] of [write_atm_leg]. *)
Definition write_atm_leg_body (rec : pyval) : M unit :=
  do stamp <- lift (py_item rec "timestamp");
  do ts <- match fromisoformat stamp with
           | Some ts => ret ts
           | None => raise ValueError
           end;
  do index <- rec_get rec "index";
  do side <- rec_get rec "side";
  do expiry <- rec_get rec "expiry";
  do strike <- rec_get rec "atm_strike";
  do bucket <- rec_get rec "bucket";
  let tags :=
    [("index", index);
     ("option_type",
      PStr (match side with
            | PStr s => if String.eqb s "CALL" then "CE" else "PE"
            | _ => "PE"
            end));
     ("expiration", expiry);
     ("strike", PStr (py_str strike));
     ("bucket", bucket)] in
  do ffields <- convert_fields _ffloat rec float_fields;
  do ifields <- convert_fields _fint rec int_fields;
  let fields := drop_none (ffields ++ ifields) in
  match fields with
  | [] => ret tt
  | _ =>
    write_point {| measurement := "atm_option_quote";
                   tags := tag_all tags;
                   fields := fields;
                   time := ts |}
  end.

(** [write_atm_leg(rec, writer)] *)
Definition write_atm_leg (rec : pyval) : M unit :=
  try_except (write_atm_leg_body rec) (fun _ => ret tt).

End WriteAtmLeg.

End InfluxSink.

(** ** [app/collectors/atm_option_collector.py] *)

Module Collector.
Import Py Eff KiteHelpers InfluxSink.
Local Open Scope eff_scope.
Local Open Scope outcome_scope.

Inductive index : Type := NIFTY | SENSEX | BANKNIFTY.

Definition index_name (idx : index) : string :=
  match idx with
  | NIFTY => "NIFTY"
  | SENSEX => "SENSEX"
  | BANKNIFTY => "BANKNIFTY"
  end.

Definition SPOT_SYMBOL (idx : index) : string :=
  match idx with
  | NIFTY => "NSE:NIFTY 50"
  | SENSEX => "BSE:SENSEX"
  | BANKNIFTY => "NSE:NIFTY BANK"
  end.

Definition STEP (idx : index) : Z :=
  match idx with
  | NIFTY => 50
  | SENSEX => 100
  | BANKNIFTY => 100
  end.

(** *** ATM strike (line 84) *)

(** [round(p / s) * s] on a float spot [p] and an integer step [s]. *)
Definition atm_strike (p : Q) (s : Z) : Z := py_round (p / inject_Z s) * s.

(** [round(spot / STEP[idx]) * STEP[idx]] on whatever the quote holds. *)
Definition atm_of (spot : pyval) (step : Z) : outcome Z :=
  let? x := py_truediv spot (PInt step) in
  match x with
  | PFloat q => Ok (py_round q * step)
  | _ => Raise TypeError
  end.

(** *** Instruments and contract resolution *)

(** A row of the instrument universe, with the fields [_get_tokens] reads. *)
Record instrument : Type := {
  segment : string;
  strike : Q;
  tradingsymbol : string;
  expiry : option date;       (* [parse_expiry(inst)], [None] when it raises *)
  instrument_type : string;
  instrument_token : string   (* [str(inst["instrument_token"])] *)
}.

(** [s.endswith(suffix)] *)
Definition endswith (s suffix : string) : bool :=
  let n := String.length s in
  let k := String.length suffix in
  (k <=? n)%nat && String.eqb (substring (n - k) k s) suffix.

(** [sub in s] *)
Definition contains (sub s : string) : bool :=
  match String.index 0%nat sub s with Some _ => true | None => false end.

Definition date_eqb (a b : date) : bool :=
  (year a =? year b) && (month a =? month b) && (day a =? day b).

(** [_get_tokens(pool, idx, atm, exp)] *)
Definition _get_tokens (pool : list instrument) (idx : index) (atm : Z)
    (exp : date) : option string * option string :=
  let opts :=
    List.filter (fun i => endswith (segment i) "-OPT"
                     && Qeq_bool (strike i) (inject_Z atm)
                     && contains (index_name idx) (tradingsymbol i)) pool in
  let side ty :=
    find (fun o => match expiry o with
                   | Some e => date_eqb e exp
                   | None => false
                   end && String.eqb (instrument_type o) ty) opts in
  match side "CE", side "PE" with
  | Some ce, Some pe => (Some (instrument_token ce), Some (instrument_token pe))
  | _, _ => (None, None)
  end.

(** *** Expiry buckets (lines 86-95) *)

(** The dict [exps]: bucket family to ascending expiry dates. *)
Fixpoint exps_get (k : string) (exps : list (string * list date))
    : option (list date) :=
  match exps with
  | [] => None
  | (k', v) :: rest => if String.eqb k k' then Some v else exps_get k rest
  end.

(** [exps[k]] *)
Definition exps_item (k : string) (exps : list (string * list date))
    : outcome (list date) :=
  match exps_get k exps with
  | Some v => Ok v
  | None => Raise KeyError
  end.

(** [exps.get(k) or []] *)
Definition exps_get_or_nil (k : string) (exps : list (string * list date))
    : list date :=
  match exps_get k exps with
  | Some v => v
  | None => []
  end.

(** The list [pairs] of (label, expiry or [None]). *)
Definition pairs_for (idx : index) (exps : list (string * list date))
    : outcome (list (string * option date)) :=
  match idx with
  | BANKNIFTY =>
    let? monthly := exps_item "monthly" exps in
    Ok [("this_month", nth_error monthly 0);
        ("next_month", nth_error monthly 1)]
  | _ =>
    Ok [("this_week", nth_error (exps_get_or_nil "weekly" exps) 0);
        ("next_week", nth_error (exps_get_or_nil "weekly" exps) 1);
        ("this_month", nth_error (exps_get_or_nil "monthly" exps) 0);
        ("next_month", nth_error (exps_get_or_nil "monthly" exps) 1)]
  end.

(** *** Baselines (lines 108-122, 137-139) *)

Definition set_oi_open (k : string) (v : pyval) (w : world) : world :=
  {| kite_calls := kite_calls w; refreshes := refreshes w; slept := slept w;
     oi_open_map := <[k := v]> (oi_open_map w); iv_open_map := iv_open_map w;
     files := files w; points := points w |}.

Definition set_iv_open (k : string) (v : pyval) (w : world) : world :=
  {| kite_calls := kite_calls w; refreshes := refreshes w; slept := slept w;
     oi_open_map := oi_open_map w; iv_open_map := <[k := v]> (iv_open_map w);
     files := files w; points := points w |}.

(** [m.get(k)] on a baseline map. *)
Definition baseline_get (m : gmap string pyval) (k : string) : pyval :=
  match m !! k with
  | Some v => v
  | None => PNone
  end.

(** Lines 110-111: seed the open interest of a token. *)
Definition seed_oi (tkn : string) (q : pyval) : M unit :=
  do w <- get_world;
  match oi_open_map w !! tkn with
  | Some _ => ret tt
  | None =>
    do oi <- lift (py_get q "oi" PNone);
    if isinstance_int oi then modify (set_oi_open tkn oi) else ret tt
  end.

(** Lines 112-113: seed the implied volatility of a token. *)
Definition seed_iv (tkn : string) (q : pyval) : M unit :=
  do w <- get_world;
  match iv_open_map w !! tkn with
  | Some _ => ret tt
  | None =>
    do iv <- lift (py_get q "iv" PNone);
    if isinstance_num iv then modify (set_iv_open tkn iv) else ret tt
  end.

(** One round of the seeding loop, for one token and its quote. *)
Definition seed (tkn : string) (q : pyval) : M unit :=
  run seed_oi tkn q;
  seed_iv tkn q.

(** [iv_avg] (lines 115-117) *)
Definition iv_average (ce_q pe_q : pyval) : outcome pyval :=
  let? ce_iv := py_get ce_q "iv" PNone in
  if isinstance_num ce_iv then
    let? pe_iv := py_get pe_q "iv" PNone in
    if isinstance_num pe_iv then
      let? s := py_add ce_iv pe_iv in
      py_truediv s (PInt 2)
    else Ok PNone
  else Ok PNone.

(** Lines 119-121: seed the aggregate key, then read it back. *)
Definition observe_iv_avg (iv_key : string) (iv_avg : pyval) : M pyval :=
  do w <- get_world;
  run (match iv_avg, iv_open_map w !! iv_key with
       | PNone, _ => ret tt
       | _, Some _ => ret tt
       | _, None => modify (set_iv_open iv_key iv_avg)
       end);
  do w <- get_world;
  ret (baseline_get (iv_open_map w) iv_key).

(** [iv_day_change] (line 122): [(iv_open_val - iv_avg)] when both are
    [int] or [float], else [None]. *)
Definition iv_drift (iv_open_val iv_avg : pyval) : outcome pyval :=
  if isinstance_num iv_open_val && isinstance_num iv_avg
  then py_sub iv_open_val iv_avg
  else Ok PNone.

(** [oi_change] (line 139): [(oi_open - oi_curr)] when both are [int],
    else [None]. *)
Definition oi_drift (oi_open oi_curr : pyval) : outcome pyval :=
  if isinstance_int oi_open && isinstance_int oi_curr
  then py_sub oi_open oi_curr
  else Ok PNone.

(** *** The overview aggregate of a bucket (lines 124-134) *)

(** [sum(xs)]: additions from the integer 0, left to right. *)
Definition py_sum (xs : list pyval) : outcome pyval :=
  fold_left (fun acc x => let? a := acc in py_add a x) xs (Ok (PInt 0)).

(** The field [TP]: both last prices, the non-numeric ones filtered out. *)
Definition total_premium (ce_lp pe_lp : pyval) : outcome pyval :=
  py_sum (List.filter isinstance_num [ce_lp; pe_lp]).

(** The field [PCR]. *)
Definition put_call_ratio (pe_oi ce_oi : pyval) : outcome pyval :=
  if isinstance_int pe_oi && isinstance_int ce_oi && py_ne0 ce_oi
  then py_truediv pe_oi ce_oi
  else Ok PNone.

(** [(exp - date.today()).days] *)
Definition days_to_expiry (exp today : date) : Z :=
  toordinal exp - toordinal today.

Definition overview_aggregate (ce_q pe_q iv_avg iv_open_val iv_day_change : pyval)
    (exp today : date) : outcome pyval :=
  let? ce_lp := py_get ce_q "last_price" PNone in
  let? pe_lp := py_get pe_q "last_price" PNone in
  let? tp := total_premium ce_lp pe_lp in
  let? ce_oi := py_get ce_q "oi" PNone in
  let? pe_oi := py_get pe_q "oi" PNone in
  let? pcr := put_call_ratio pe_oi ce_oi in
  Ok (PDict [("TP", tp);
             ("OI_CALL", ce_oi);
             ("OI_PUT", pe_oi);
             ("PCR", pcr);
             ("atm_iv", iv_avg);
             ("iv_open", iv_open_val);
             ("iv_day_change", iv_day_change);
             ("days_to_expiry", PInt (days_to_expiry exp today))]).

(** Lines 122-134: the drift, then the aggregate that holds it. *)
Definition make_overview (ce_q pe_q iv_avg iv_open_val : pyval)
    (exp today : date) : outcome pyval :=
  let? iv_day_change := iv_drift iv_open_val iv_avg in
  overview_aggregate ce_q pe_q iv_avg iv_open_val iv_day_change exp today.

(** *** The leg record (lines 141-176) *)

(** [net_change] and [day_change]: [(last - ref)] when both are numeric. *)
Definition change (last ref : pyval) : outcome pyval :=
  if isinstance_num last && isinstance_num ref
  then py_sub last ref
  else Ok PNone.

(** [net_change_percent] and [day_change_percent]:
    [((last - ref) / ref * 100)] when both are numeric and [ref != 0]. *)
Definition change_percent (last ref : pyval) : outcome pyval :=
  if isinstance_num last && isinstance_num ref && py_ne0 ref
  then
    let? d := py_sub last ref in
    let? r := py_truediv d ref in
    py_mul r (PInt 100)
  else Ok PNone.

Definition pad2 (n : Z) : string :=
  if n <? 10 then "0" +:+ str_of_Z n else str_of_Z n.

Definition pad4 (n : Z) : string :=
  if n <? 10 then "000" +:+ str_of_Z n
  else if n <? 100 then "00" +:+ str_of_Z n
  else if n <? 1000 then "0" +:+ str_of_Z n
  else str_of_Z n.

(** [d.isoformat()] *)
Definition isoformat (d : date) : string :=
  pad4 (year d) +:+ "-" +:+ pad2 (month d) +:+ "-" +:+ pad2 (day d).

Definition leg_record (timestamp : pyval) (idx : index) (label side : string)
    (exp today : date) (atm : Z) (oi_open oi_curr oi_change q : pyval)
    : outcome pyval :=
  let? last_price := py_get q "last_price" PNone in
  let? average_price := py_get q "average_price" PNone in
  let? volume := py_get q "volume" PNone in
  let? ohlc := py_get q "ohlc" empty_dict in
  let? ohlc_open := py_get ohlc "open" PNone in
  let? ohlc_high := py_get ohlc "high" PNone in
  let? ohlc_low := py_get ohlc "low" PNone in
  let? ohlc_close := py_get ohlc "close" PNone in
  let? net_change := change last_price ohlc_close in
  let? net_change_percent := change_percent last_price ohlc_close in
  let? day_change := change last_price ohlc_open in
  let? day_change_percent := change_percent last_price ohlc_open in
  let? iv := py_get q "iv" PNone in
  Ok (PDict [("timestamp", timestamp);
             ("index", PStr (index_name idx));
             ("bucket", PStr label);
             ("side", PStr side);
             ("expiry", PStr (isoformat exp));
             ("atm_strike", PInt atm);
             ("last_price", last_price);
             ("days_to_expiry", PInt (days_to_expiry exp today));
             ("average_price", average_price);
             ("volume", volume);
             ("oi", oi_curr);
             ("oi_open", oi_open);
             ("oi_change", oi_change);
             ("ohlc.open", ohlc_open);
             ("ohlc.high", ohlc_high);
             ("ohlc.low", ohlc_low);
             ("ohlc.close", ohlc_close);
             ("net_change", net_change);
             ("net_change_percent", net_change_percent);
             ("day_change", day_change);
             ("day_change_percent", day_change_percent);
             ("iv", iv)]).

(** Lines 138-176: the current open interest, its change, then the record. *)
Definition make_leg (timestamp : pyval) (idx : index) (label side : string)
    (exp today : date) (atm : Z) (oi_open q : pyval) : outcome pyval :=
  let? oi_curr := py_get q "oi" PNone in
  let? oi_change := oi_drift oi_open oi_curr in
  leg_record timestamp idx label side exp today atm oi_open oi_curr oi_change q.

(** *** The cycle *)

(** The two locals that [collect] accumulates and returns. *)
Record cycle : Type := {
  legs : list pyval;
  overview_aggs : list (string * pyval)
}.

Definition append_leg (rec : pyval) (c : cycle) : cycle :=
  {| legs := legs c ++ [rec]; overview_aggs := overview_aggs c |}.

(** [overview_aggs[idx] = {}] *)
Definition open_index (idx : index) (c : cycle) : cycle :=
  {| legs := legs c;
     overview_aggs := dict_set (index_name idx) empty_dict (overview_aggs c) |}.

(** [overview_aggs[idx][label] = agg] *)
Definition put_overview (idx : index) (label : string) (agg : pyval)
    (c : cycle) : cycle :=
  let inner :=
    match assoc (index_name idx) (overview_aggs c) with
    | Some (PDict kvs) => kvs
    | _ => []
    end in
  {| legs := legs c;
     overview_aggs :=
       dict_set (index_name idx) (PDict (dict_set label agg inner))
                (overview_aggs c) |}.

(** A [for] loop whose body may raise: the first raise ends the loop. *)
Fixpoint for_each {A S} (body : S -> A -> M S) (xs : list A) (s : S) : M S :=
  match xs with
  | [] => ret s
  | x :: rest => do s' <- body s x; for_each body rest s'
  end.

Section Collect.

(** The collaborators of an [ATMOptionCollector]. *)
Variable kite : nat -> string -> list string -> upstream.
Variable ensure_token_fn : nat -> option exn.
Variable insts_nfo insts_bfo : list instrument.
Variable raw_dir : string.
Variable use_dynamic_expiries : bool.
(** [self.influx_writer]: [None], or the outcome of its write call. *)
Variable influx_writer : option (point -> option exn).
Variable fromisoformat : pyval -> option pyval.
Variable str_other : pyval -> string.

(** [app.brokers.expiry_discovery], which this development takes as given. *)
Variable discover_weeklies_for_index :
  list instrument -> list instrument -> index -> Z -> list date.
Variable discover_monthlies_for_index :
  list instrument -> list instrument -> index -> Z
  -> option date * option date.

(** The clock: [date.today()], [get_now().strftime(...)] at the start of
    the cycle, and [rounded_half_minute(get_now())] at the [n]-th leg. *)
Variable today : date.
Variable snapshot_time : string.
Variable rounded_half_minute_now : nat -> pyval.

(** The file system: the exception, if any, raised by creating the bucket
    directory, opening the file at the path and dumping the record. *)
Variable fs_write : string -> pyval -> option exn.

(** Fuel handed to each [safe_call]. *)
Variable fuel : nat.

(** [_spot_price(idx)] *)
Definition _spot_price (idx : index) : M pyval :=
  do r <- safe_call kite ensure_token_fn fuel "quote" [SPOT_SYMBOL idx];
  let q := py_or r empty_dict in
  do entry <- lift (py_get q (SPOT_SYMBOL idx) empty_dict);
  lift (py_get entry "last_price" PNone).

(** [_pool_for_idx(idx)] *)
Definition _pool_for_idx (idx : index) : list instrument :=
  match idx with
  | SENSEX => insts_bfo
  | _ => insts_nfo
  end.

(** [_discover_expiries_for_idx(idx, atm)] *)
Definition _discover_expiries_for_idx (idx : index) (atm : Z)
    : list (string * list date) :=
  let weeklies := discover_weeklies_for_index insts_nfo insts_bfo idx atm in
  let '(m_this, m_next) :=
    discover_monthlies_for_index insts_nfo insts_bfo idx atm in
  let monthly := omap id [m_this; m_next] in
  [("weekly", weeklies); ("monthly", monthly)].

(** The snapshot file of a leg (lines 179-183). *)
Definition save_json (path : string) (rec : pyval) : M unit :=
  fun w =>
    match fs_write path rec with
    | Some e => (w, Raise e)
    | None =>
      ({| kite_calls := kite_calls w; refreshes := refreshes w;
          slept := slept w;
          oi_open_map := oi_open_map w; iv_open_map := iv_open_map w;
          files := (path, rec) :: files w; points := points w |}, Ok tt)
    end.

(** The guarded time-series write of a leg (lines 186-190). *)
Definition save_point (rec : pyval) : M unit :=
  match influx_writer with
  | Some write_api_write =>
    try_except (write_atm_leg fromisoformat str_other write_api_write rec)
               (fun _ => ret tt)
  | None => ret tt
  end.

(** One round of the loop over the two sides (lines 136-190). *)
Definition collect_leg (idx : index) (label : string) (exp : date) (atm : Z)
    (c : cycle) (leg : string * string * pyval) : M cycle :=
  let '(side, tkn, q) := leg in
  do w <- get_world;
  let oi_open := baseline_get (oi_open_map w) tkn in
  do rec <- lift (make_leg (rounded_half_minute_now (length (legs c)))
                           idx label side exp today atm oi_open q);
  let c := append_leg rec c in
  let fname :=
    index_name idx +:+ "_" +:+ side +:+ "_" +:+ label +:+ "_"
    +:+ isoformat exp +:+ "_" +:+ snapshot_time +:+ ".json" in
  run save_json (raw_dir +:+ "/" +:+ label +:+ "/" +:+ fname) rec;
  run save_point rec;
  ret c.

(** One round of the loop over [pairs] (lines 98-190). *)
Definition collect_bucket (idx : index) (atm : Z) (pool : list instrument)
    (c : cycle) (pair : string * option date) : M cycle :=
  let '(label, exp) := pair in
  match exp with
  | None => ret c
  | Some exp =>
    match _get_tokens pool idx atm exp with
    | (Some ce_tkn, Some pe_tkn) =>
      if String.eqb ce_tkn "" || String.eqb pe_tkn "" then ret c
      else
        do r <- safe_call kite ensure_token_fn fuel "quote" [ce_tkn; pe_tkn];
        let qdata := py_or r empty_dict in
        do ce_q <- lift (py_get qdata ce_tkn empty_dict);
        do pe_q <- lift (py_get qdata pe_tkn empty_dict);
        run seed ce_tkn ce_q;
        run seed pe_tkn pe_q;
        do iv_avg <- lift (iv_average ce_q pe_q);
        let iv_key := index_name idx +:+ "_" +:+ label +:+ "_iv_open" in
        do iv_open_val <- observe_iv_avg iv_key iv_avg;
        do agg <- lift (make_overview ce_q pe_q iv_avg iv_open_val
                                      exp today);
        let c := put_overview idx label agg c in
        for_each (collect_leg idx label exp atm)
                 [("CALL", ce_tkn, ce_q); ("PUT", pe_tkn, pe_q)] c
    | _ => ret c
    end
  end.

(** One round of the loop over the indices (lines 80-190). *)
Definition collect_index (c : cycle) (idx : index) : M cycle :=
  do spot <- _spot_price idx;
  match spot with
  | PNone => ret c
  | _ =>
    do atm <- lift (atm_of spot (STEP idx));
    let pool := _pool_for_idx idx in
    let exps :=
      if use_dynamic_expiries then _discover_expiries_for_idx idx atm
      else [] in
    do pairs <- lift (pairs_for idx exps);
    let c := open_index idx c in
    for_each (collect_bucket idx atm pool) pairs c
  end.

(** [collect()] *)
Definition collect : M pyval :=
  do c <- for_each collect_index [NIFTY; SENSEX; BANKNIFTY]
                   {| legs := []; overview_aggs := [] |};
  ret (PDict [("legs", PList (legs c));
              ("overview_aggs", PDict (overview_aggs c))]).

End Collect.

End Collector.

(** ** Concrete collaborators, used to run the model *)

Module Scenarios.
Import Py Eff KiteHelpers InfluxSink Collector.

(** An HTTP 429 whose [Retry-After] header reads [-1]. *)
Definition http_429_negative_hint : upstream :=
  RaisesHTTP (Some {| status_code := 429; http_headers := IntText (-1) |}).

(** An expired token. *)
Definition auth_failure : upstream :=
  RaisesKite {| is_token_exception := true; says_too_many := false;
                code := Some 403; kite_headers := None |}.

(** A broker that answers every invocation the same way. *)
Definition always (u : upstream) : nat -> string -> list string -> upstream :=
  fun _ _ _ => u.

(** A broker whose first [k] invocations yield [u] and the later ones
    return [payload]. *)
Definition first_then (k : nat) (u : upstream) (payload : pyval)
    : nat -> string -> list string -> upstream :=
  fun n _ _ => if (n <? k)%nat then u else Returns payload.

(** A token refresher that always succeeds, and one that always fails. *)
Definition refresh_ok : nat -> option exn := fun _ => None.
Definition refresh_fails : nat -> option exn :=
  fun _ => Some (OtherError "login").

Definition some_payload : pyval :=
  PDict [("NSE:NIFTY 50", PDict [("last_price", PInt 24821)])].

(** A session: one weekly NIFTY expiry with both ATM contracts listed. *)
Definition today : date := {| year := 2026; month := 11; day := 4 |}.
Definition weekly_expiry : date := {| year := 2026; month := 11; day := 10 |}.

Definition nifty_ce : instrument :=
  {| segment := "NFO-OPT"; strike := 24800;
     tradingsymbol := "NIFTY26N1024800CE";
     expiry := Some weekly_expiry; instrument_type := "CE";
     instrument_token := "1001" |}.

Definition nifty_pe : instrument :=
  {| segment := "NFO-OPT"; strike := 24800;
     tradingsymbol := "NIFTY26N1024800PE";
     expiry := Some weekly_expiry; instrument_type := "PE";
     instrument_token := "1002" |}.

(** What the broker knows: the NIFTY spot and the two option quotes. *)
Definition book : list (string * pyval) :=
  [("NSE:NIFTY 50", PDict [("last_price", PInt 24821)]);
   ("1001", PDict [("last_price", PFloat (1205 # 10)); ("oi", PInt 1000);
                   ("iv", PFloat (14 # 1));
                   ("ohlc", PDict [("open", PInt 110); ("close", PInt 100)])]);
   ("1002", PDict [("last_price", PFloat (9525 # 100)); ("oi", PInt 1200);
                   ("iv", PFloat (16 # 1));
                   ("ohlc", PDict [("open", PInt 90); ("close", PInt 0)])])].

(** A healthy broker: [quote] returns the entries asked for. *)
Definition quoting (entries : list (string * pyval))
    : nat -> string -> list string -> upstream :=
  fun _ _ args =>
    Returns (PDict (List.filter
                      (fun kv => existsb (String.eqb (fst kv)) args) entries)).

(** A broker that knows the spot of all three indices. *)
Definition spots : list (string * pyval) :=
  [("NSE:NIFTY 50", PDict [("last_price", PInt 24821)]);
   ("BSE:SENSEX", PDict [("last_price", PInt 81234)]);
   ("NSE:NIFTY BANK", PDict [("last_price", PInt 55010)])].

Definition weeklies_one
    : list instrument -> list instrument -> index -> Z -> list date :=
  fun _ _ idx _ => match idx with NIFTY => [weekly_expiry] | _ => [] end.

Definition monthlies_none : list instrument -> list instrument -> index -> Z
    -> option date * option date :=
  fun _ _ _ _ => (None, None).

Definition stamp : nat -> pyval := fun _ => PStr "2026-11-04T10:15:00+05:30".

Definition disk_ok : string -> pyval -> option exn := fun _ _ => None.
Definition disk_full : string -> pyval -> option exn :=
  fun _ _ => Some OSError.
Definition influx_ok : point -> option exn := fun _ => None.
Definition influx_down : point -> option exn :=
  fun _ => Some (OtherError "influx").

(** A cycle of the session above, by sink behaviour and discovery switch. *)
Definition run_cycle (entries : list (string * pyval)) (dynamic : bool)
    (disk : string -> pyval -> option exn) (influx : point -> option exn)
    : world * outcome pyval :=
  collect (quoting entries) refresh_ok [nifty_ce; nifty_pe] []
          "data/raw_snapshots/options" dynamic (Some influx)
          (fun v => Some v) (fun _ => "") weeklies_one monthlies_none
          today "20261104_101500" stamp disk 4 world0.

End Scenarios.

(** ** Notions used to state the properties *)

Module Spec.
Import Py Eff KiteHelpers InfluxSink Collector.

(** Every baseline stored in [w] is stored, unchanged, in [w']. *)
Definition extends (w w' : world) : Prop :=
  (forall k v, oi_open_map w !! k = Some v -> oi_open_map w' !! k = Some v) /\
  (forall k v, iv_open_map w !! k = Some v -> iv_open_map w' !! k = Some v).


(** An action that never changes or drops a stored baseline. *)
Definition preserves {A} (c : M A) : Prop :=
  forall w, extends w (fst (c w)).

(** The value a dict literal gives for a key, [None] when it has none. *)
Definition field (kvs : list (string * pyval)) (k : string) : pyval :=
  match assoc k kvs with
  | Some v => v
  | None => PNone
  end.

(** [d] is the last Thursday of the month [m] of year [y]. *)
Definition last_thursday_of (y m : Z) (d : date) : Prop :=
  year d = y /\ month d = m /\
  1 <= day d <= days_in_month y m /\
  weekday y m (day d) = THURSDAY /\
  forall d' : Z, day d < d' <= days_in_month y m -> weekday y m d' <> THURSDAY.

End Spec.

(** ** [app/brokers/kite_helpers.py], continued *)

Module SafeLtp.
Import Py Eff KiteHelpers.
Local Open Scope eff_scope.

(** [safe_ltp(kite_client, ensure_token_fn, tokens)]:
    [safe_call(kite_client, ensure_token_fn, "ltp", tokens) or {}]. *)
Definition safe_ltp (kite : nat -> string -> list string -> upstream)
    (ensure_token_fn : nat -> option exn) (fuel : nat)
    (tokens : list string) : M pyval :=
  do r <- safe_call kite ensure_token_fn fuel "ltp" tokens;
  ret (py_or r empty_dict).

End SafeLtp.

(** ** Further notions used to state properties *)

Module Laws.
Import Py Eff KiteHelpers InfluxSink Collector.

(** A failure that [safe_call] does not retry: neither an authentication
    failure nor a rate limit. *)
Definition is_terminal (u : upstream) : bool :=
  match u with
  | Returns _ => false
  | RaisesKite ex =>
    negb (is_token_exception ex)
    && negb (says_too_many ex || is_429 (code ex))
  | RaisesHTTP (Some resp) => negb (status_code resp =? 429)
  | RaisesHTTP None => true
  | RaisesOther _ => true
  end.

(** A rate limit of the [KiteException] kind. *)
Definition is_kite_rate_limit (ex : kite_exception) : bool :=
  negb (is_token_exception ex) && (says_too_many ex || is_429 (code ex)).

(** A rate limit that carries no usable hint: no [Retry-After] header, one
    that is not an integer, or one that is not positive (zero only, for an
    [HTTPError]). *)
Definition rate_limited_no_hint (u : upstream) : bool :=
  match u with
  | RaisesKite ex =>
    is_kite_rate_limit ex
    && match kite_headers ex with
       | Some (IntText z) => z <=? 0
       | _ => true
       end
  | RaisesHTTP (Some resp) =>
    (status_code resp =? 429)
    && match http_headers resp with
       | IntText z => z =? 0
       | _ => true
       end
  | _ => false
  end.

(** A rate limit whose [Retry-After] header is the integer [z]. *)
Definition rate_limited_with_hint (z : Z) (u : upstream) : bool :=
  match u with
  | RaisesKite ex =>
    is_kite_rate_limit ex
    && match kite_headers ex with
       | Some (IntText z') => z' =? z
       | _ => false
       end
  | RaisesHTTP (Some resp) =>
    (status_code resp =? 429)
    && match http_headers resp with
       | IntText z' => z' =? z
       | _ => false
       end
  | _ => false
  end.

(** The sum of a list of delays. *)
Definition total_delay (ds : list Q) : Q := fold_right Qplus 0%Q ds.

End Laws.


(** ** [app/sinks/influx_sink.py], continued *)

Module InfluxOverview.
Import Py Eff InfluxSink Collector.
Local Open Scope eff_scope.

(** [s.startswith(p)] *)
Definition startswith (s p : string) : bool := String.prefix p s.

(** The entries of [fields] that [write_index_overview] always computes. *)
Definition overview_int_fields : list (string * string) :=
  [("atm_strike", "atm_strike")].

Definition overview_float_fields : list (string * string) :=
  [("last_price", "last_price"); ("open", "open"); ("high", "high");
   ("low", "low"); ("close", "close"); ("net_change", "net_change");
   ("net_change_percent", "net_change_percent");
   ("day_change", "day_change");
   ("day_change_percent", "day_change_percent");
   ("day_width", "day_width"); ("day_width_percent", "day_width_percent")].

(** The three branches of the loop over [rec.items()]: the converted value
    of an entry whose key is one of the per-bucket keys, [None] for an
    entry that the loop passes over. *)
Definition convert_item (k : string) (v : pyval) : pyval :=
  if endswith k "_TP" || endswith k "_OI_CALL" || endswith k "_OI_PUT"
  then _ffloat v
  else if startswith k "pcr_" || endswith k "_iv_open"
          || endswith k "_iv_day_change" || endswith k "_atm_iv"
  then _ffloat v
  else if endswith k "_days_to_expiry"
  then _fint v
  else PNone.

(** One round of that loop: [fields[k] = fv] when [fv is not None]. *)
Definition add_item (fields : list (string * pyval)) (kv : string * pyval)
    : list (string * pyval) :=
  let fv := convert_item (fst kv) (snd kv) in
  if is_none fv then fields else dict_set (fst kv) fv fields.

Section WriteIndexOverview.

Variable fromisoformat : pyval -> option pyval.
Variable str_other : pyval -> string.
Variable write_api_write : point -> option exn.

(** The body of the [try] of [write_index_overview]. *)
Definition write_index_overview_body (rec : pyval) : M unit :=
  do stamp <- lift (py_item rec "timestamp");
  do ts <- match fromisoformat stamp with
           | Some ts => ret ts
           | None => raise ValueError
           end;
  do symbol <- rec_get rec "symbol";
  let tags := [("index", symbol)] in
  do ifields <- convert_fields _fint rec overview_int_fields;
  do ffields <- convert_fields _ffloat rec overview_float_fields;
  do items <- match rec with
              | PDict kvs => ret kvs
              | _ => raise AttributeError
              end;
  let fields := fold_left add_item items (ifields ++ ffields)%list in
  let fields := drop_none fields in
  match fields with
  | [] => ret tt
  | _ =>
    write_point write_api_write
      {| measurement := "index_overview";
         tags := tag_all str_other tags;
         fields := fields;
         time := ts |}
  end.

(** [write_index_overview(rec, writer)] *)
Definition write_index_overview (rec : pyval) : M unit :=
  try_except (write_index_overview_body rec) (fun _ => ret tt).

End WriteIndexOverview.

End InfluxOverview.

(** ** [scripts/log_raw_all.py]: the table of expected buckets *)

Module Scheduler.

Definition EXPECTED_BUCKETS : list (string * list string) :=
  [("NIFTY", ["this_week"; "next_week"; "this_month"; "next_month"]);
   ("SENSEX", ["this_week"; "next_week"; "this_month"; "next_month"]);
   ("BANKNIFTY", ["this_month"; "next_month"])].

(** [EXPECTED_BUCKETS.get(idx)] *)
Fixpoint expected_buckets (idx : string)
    (table : list (string * list string)) : option (list string) :=
  match table with
  | [] => None
  | (k, v) :: rest =>
    if String.eqb idx k then Some v else expected_buckets idx rest
  end.

End Scheduler.

(** ** Invariants of the world *)

Module Frames.
Import Py Eff KiteHelpers InfluxSink Collector.

(** An action after which the world is always related by [R] to the world
    before it, whatever the action yields. *)
Definition keeps (R : world -> world -> Prop) {A} (c : M A) : Prop :=
  forall w, R w (fst (c w)).

(** The open-interest baselines are [int]s and the implied-volatility
    baselines are [int]s or [float]s. *)
Definition typed_baselines (w : world) : Prop :=
  (forall k v, oi_open_map w !! k = Some v -> isinstance_int v = true) /\
  (forall k v, iv_open_map w !! k = Some v -> isinstance_num v = true).

Definition stays_typed (w w' : world) : Prop :=
  typed_baselines w -> typed_baselines w'.

(** The logs of writes grow, and no more points are written than files. *)
Definition sinks_grow (w w' : world) : Prop :=
  exists fs ps,
    files w' = (fs ++ files w)%list /\ points w' = (ps ++ points w)%list /\
    (length ps <= length fs)%nat.

(** Neither the baselines nor the sinks differ. *)
Definition same_stores (w w' : world) : Prop :=
  oi_open_map w' = oi_open_map w /\ iv_open_map w' = iv_open_map w /\
  files w' = files w /\ points w' = points w.

(** When an action started in a world satisfying [P] returns a value, the
    value and the world after it satisfy [Q]. *)
Definition triple {A} (P : world -> Prop) (c : M A)
    (Q : A -> world -> Prop) : Prop :=
  forall w, P w -> forall w' a, c w = (w', Ok a) -> Q a w'.

(** An instrument that [_get_tokens] accepts for a side. The index is
    matched by [idx in tradingsymbol], a test on substrings. *)
Definition resolves (idx : index) (atm : Z) (exp : date) (ty : string)
    (i : instrument) : Prop :=
  endswith (segment i) "-OPT" = true /\
  (strike i == inject_Z atm)%Q /\
  contains (index_name idx) (tradingsymbol i) = true /\
  (exists e, expiry i = Some e /\ date_eqb e exp = true) /\
  instrument_type i = ty.

End Frames.


(** ** The points that the sink builds, as functions of the record *)

Module Points.
Import Py Eff InfluxSink Collector Spec InfluxOverview.

(** The entries [name: conv(rec.get(key))] of a dict literal. *)
Definition converted (conv : pyval -> pyval) (kvs : list (string * pyval))
    (names : list (string * string)) : list (string * pyval) :=
  map (fun nk => (fst nk, conv (field kvs (snd nk)))) names.

(** The fields of the point of a leg: the numeric measurements present. *)
Definition leg_fields (kvs : list (string * pyval)) : list (string * pyval) :=
  drop_none (converted _ffloat kvs float_fields
             ++ converted _fint kvs int_fields)%list.

(** The tags of the point of a leg. *)
Definition leg_tags (str_other : pyval -> string)
    (kvs : list (string * pyval)) : list (string * string) :=
  tag_all str_other
    [("index", field kvs "index");
     ("option_type",
      PStr (match field kvs "side" with
            | PStr s => if String.eqb s "CALL" then "CE" else "PE"
            | _ => "PE"
            end));
     ("expiration", field kvs "expiry");
     ("strike", PStr (py_str str_other (field kvs "atm_strike")));
     ("bucket", field kvs "bucket")].

Definition leg_point (str_other : pyval -> string)
    (kvs : list (string * pyval)) (ts : pyval) : point :=
  {| measurement := "atm_option_quote";
     tags := leg_tags str_other kvs;
     fields := leg_fields kvs;
     time := ts |}.

(** The fields of the point of an index overview. *)
Definition overview_fields (kvs : list (string * pyval))
    : list (string * pyval) :=
  drop_none
    (fold_left add_item kvs
       (converted _fint kvs overview_int_fields
        ++ converted _ffloat kvs overview_float_fields)%list).

Definition overview_point (str_other : pyval -> string)
    (kvs : list (string * pyval)) (ts : pyval) : point :=
  {| measurement := "index_overview";
     tags := tag_all str_other [("index", field kvs "symbol")];
     fields := overview_fields kvs;
     time := ts |}.

(** The world with one more point. *)
Definition with_point (p : point) (w : world) : world :=
  {| kite_calls := kite_calls w; refreshes := refreshes w; slept := slept w;
     oi_open_map := oi_open_map w; iv_open_map := iv_open_map w;
     files := files w; points := p :: points w |}.

(** The world with one more snapshot file. *)
Definition with_file (f : string * pyval) (w : world) : world :=
  {| kite_calls := kite_calls w; refreshes := refreshes w; slept := slept w;
     oi_open_map := oi_open_map w; iv_open_map := iv_open_map w;
     files := f :: files w; points := points w |}.

(** No snapshot file is written. *)
Definition same_files (w w' : world) : Prop := files w' = files w.

(** A value that a time-series field may hold. *)
Definition is_float (v : pyval) : bool :=
  match v with PFloat _ => true | _ => false end.

Definition is_int (v : pyval) : bool :=
  match v with PInt _ => true | _ => false end.

End Points.

(** ** A leg of the session of [Scenarios] *)

Module Sessions.
Import Py Eff KiteHelpers InfluxSink Collector.

(** The quote of the call of the weekly NIFTY bucket. *)
Definition call_quote : pyval :=
  PDict [("last_price", PFloat (1205 # 10)); ("oi", PInt 1000)].

(** The record that the collector builds from it. *)
Definition call_leg : pyval :=
  match make_leg (Scenarios.stamp 0) NIFTY "this_week" "CALL"
                 Scenarios.weekly_expiry Scenarios.today 24800 (PInt 1000)
                 call_quote with
  | Ok rec => rec
  | _ => PNone
  end.

End Sessions.

(** ** Lines 84 and 117 in binary64 arithmetic *)

Module Binary64.
Import Py Collector.
Local Open Scope outcome_scope.

(** [2 ** k] for an integer [k] of either sign. *)
Definition pow2 (k : Z) : Q := (2 ^ k)%Q.

(** [floor(log2(x))] for a rational [x > 0]. *)
Definition ilog2 (x : Q) : Z :=
  let d := Z.log2 (Qnum x) - Z.log2 (Zpos (Qden x)) in
  if Qle_bool (pow2 d) x then d else d - 1.

(** The exponent of the unit in the last place of the binary64 numbers
    around [x]: 53 significant bits, and no exponent below that of the
    subnormal numbers. *)
Definition ulp_exp (x : Q) : Z := Z.max (ilog2 (Qabs x) - 52) (-1074).

(** The multiple of [2 ** ulp_exp x] nearest to [x], a tie going to the even
    multiple: IEEE 754 round-to-nearest-even, before the overflow test. *)
Definition round_binary64 (x : Q) : Q :=
  if Qeq_bool x 0 then 0%Q
  else (inject_Z (py_round (x / pow2 (ulp_exp x))) * pow2 (ulp_exp x))%Q.

(** A rational that is a finite binary64 number. *)
Definition is_binary64 (x : Q) : bool :=
  Qeq_bool (round_binary64 x) x && negb (Qle_bool (pow2 1024) (Qabs x)).

(** The value is an [int] or a [bool], or a [float] that is a finite
    binary64 number. *)
Definition float_ok (v : pyval) : bool :=
  match v with PFloat q => is_binary64 q | _ => true end.

(** The float nearest to the exact result [x] of an operation, or the
    [OverflowError] that the operation, or [round] on its infinite result,
    raises. *)
Definition to_float (x : Q) : outcome Q :=
  let y := round_binary64 x in
  if Qle_bool (pow2 1024) (Qabs y) then Raise (OtherError "OverflowError")
  else Ok y.

(** [spot / step] with an [int] step: a [float] spot is divided by
    [float(step)]; an [int] spot gives the correctly rounded quotient of the
    two integers. *)
Definition truediv_binary64 (spot : pyval) (step : Z) : outcome Q :=
  match spot with
  | PFloat p =>
    let? b := to_float (inject_Z step) in
    if Qeq_bool b 0 then Raise ZeroDivisionError else to_float (p / b)
  | PInt _ | PBool _ =>
    match num_val spot with
    | Some p =>
      if step =? 0 then Raise ZeroDivisionError
      else to_float (p / inject_Z step)
    | None => Raise TypeError
    end
  | _ => Raise TypeError
  end.

(** [round(spot / STEP[idx]) * STEP[idx]] in binary64 arithmetic. *)
Definition atm_of_binary64 (spot : pyval) (step : Z) : outcome Z :=
  let? q := truediv_binary64 spot step in
  Ok (py_round q * step).

(** The result of a binary64 operation on finite operands: a finite number
    or an infinity. *)
Inductive float64 : Type :=
| Finite64 (q : Q)
| Infinite64 (negative : bool).

(** The result of an operation whose exact result is [x]: the nearest
    float, an infinity when that is out of range. *)
Definition fl (x : Q) : float64 :=
  let y := round_binary64 x in
  if Qle_bool (pow2 1024) (Qabs y) then Infinite64 (negb (Qle_bool 0 y))
  else Finite64 y.

(** The operand of a mixed operation, as a float: an [int] is converted,
    and one too large raises [OverflowError]. *)
Definition coerce_float (v : pyval) : outcome Q :=
  match v with
  | PFloat q => Ok q
  | _ =>
    match int_val v with
    | Some z => to_float (inject_Z z)
    | None => Raise TypeError
    end
  end.

(** [(ce_iv + pe_iv) / 2] (line 117) in binary64 arithmetic: the sum of two
    [int]s is exact and their quotient by 2 is correctly rounded; otherwise
    the sum and the quotient are each rounded. *)
Definition iv_mean_binary64 (ce_iv pe_iv : pyval) : outcome float64 :=
  match int_val ce_iv, int_val pe_iv with
  | Some x, Some y =>
    let? q := to_float (inject_Z (x + y) / 2) in
    Ok (Finite64 q)
  | _, _ =>
    let? a := coerce_float ce_iv in
    let? b := coerce_float pe_iv in
    match fl (a + b) with
    | Finite64 s => Ok (fl (s / 2))
    | Infinite64 n => Ok (Infinite64 n)
    end
  end.

(** [iv_avg] (lines 115-117) in binary64 arithmetic; [None] is [None]. *)
Definition iv_average_binary64 (ce_q pe_q : pyval)
    : outcome (option float64) :=
  let? ce_iv := py_get ce_q "iv" PNone in
  if isinstance_num ce_iv then
    let? pe_iv := py_get pe_q "iv" PNone in
    if isinstance_num pe_iv then
      let? m := iv_mean_binary64 ce_iv pe_iv in
      Ok (Some m)
    else Ok None
  else Ok None.

End Binary64.

(** ** Snapshot files *)

Module Snapshots.
Import Py Eff KiteHelpers InfluxSink Collector Points.

(** [bdir / fname] for a leg (lines 179-182). *)
Definition snapshot_path (raw_dir snapshot_time : string) (idx : index)
    (label side : string) (exp : date) : string :=
  raw_dir +:+ "/" +:+ label +:+ "/" +:+ index_name idx +:+ "_" +:+ side
  +:+ "_" +:+ label +:+ "_" +:+ isoformat exp +:+ "_" +:+ snapshot_time
  +:+ ".json".

(** What a path holds once the writes of the log are made: the record of
    the latest write to it, since [open(path, "w")] truncates. *)
Definition on_disk (w : world) (path : string) : option pyval :=
  assoc path (files w).

(** The index, the bucket label and the side of a leg. *)
Definition leg_key : Type := index * string * string.

(** A write to the snapshot path of a leg, whatever the expiry. *)
Definition written_for (raw_dir snapshot_time : string) (k : leg_key)
    (f : string * pyval) : Prop :=
  exists exp,
    fst f = snapshot_path raw_dir snapshot_time (fst (fst k)) (snd (fst k))
                          (snd k) exp.

(** An action on the accumulated cycle that, when it returns, has appended
    to the legs [l0] the records of the snapshot writes it has made, in the
    order it has made them, and nothing else; each write went to the path
    of a leg among [allowed], and no leg was written for twice. *)
Definition tracks_keys (raw_dir snapshot_time : string)
    (allowed : list leg_key) (l0 : list pyval) (m : M cycle) : Prop :=
  forall w w' c',
    m w = (w', Ok c') ->
    exists fs ks,
      legs c' = (l0 ++ rev (map snd fs))%list /\
      files w' = (fs ++ files w)%list /\
      Forall2 (written_for raw_dir snapshot_time) ks fs /\
      List.NoDup ks /\ List.incl ks allowed.

(** The legs of a bucket and of an index. *)
Definition bucket_keys (idx : index) (label : string) : list leg_key :=
  [(idx, label, "CALL"); (idx, label, "PUT")].

Definition index_keys (idx : index) : list leg_key :=
  concat (map (bucket_keys idx)
              ["this_week"; "next_week"; "this_month"; "next_month"]).

Definition cycle_keys : list leg_key :=
  concat (map index_keys [NIFTY; SENSEX; BANKNIFTY]).

End Snapshots.

(** * Properties *)

Module Props.
Import Py Eff KiteHelpers InfluxSink Collector Spec.

(** ** ATM strike *)

(** The quotient and remainder that [py_round] inspects. *)
Lemma py_round_cases (q : Q) :
  let n := Qnum q in
  let d := Zpos (Qden q) in
  (2 * (n mod d) < d /\ py_round q = n / d) \/
  (d < 2 * (n mod d) /\ py_round q = n / d + 1) \/
  (2 * (n mod d) = d /\ Z.even (py_round q) = true /\
   (py_round q = n / d \/ py_round q = n / d + 1)).
Proof.
  intros n d. unfold py_round. fold n. fold d.
  destruct (Z.ltb_spec (2 * (n mod d)) d) as [H1|H1]; [left; split; [lia|reflexivity]|].
  destruct (Z.ltb_spec d (2 * (n mod d))) as [H2|H2]; [right; left; split; [lia|reflexivity]|].
  right; right. split; [lia|].
  destruct (Z.even (n / d)) eqn:E.
  - split; [exact E|left; reflexivity].
  - split; [|right; reflexivity].
    rewrite Z.even_add, E. reflexivity.
Qed.

(** Twice the distance to the rounded value is at most one. *)
Lemma py_round_half (q : Q) :
  2 * Z.abs (Qnum q - py_round q * Zpos (Qden q)) <= Zpos (Qden q).
Proof.
  pose proof (py_round_cases q) as H. cbv zeta in H.
  pose proof (Z.div_mod (Qnum q) (Zpos (Qden q)) ltac:(lia)) as Hdm.
  pose proof (Z.mod_pos_bound (Qnum q) (Zpos (Qden q)) ltac:(lia)) as Hb.
  destruct H as [[H1 ->]|[[H1 ->]|[H1 [_ [-> | ->]]]]]; nia.
Qed.

Lemma py_round_nearest_Z (q : Q) (k : Z) :
  Z.abs (Qnum q - py_round q * Zpos (Qden q))
  <= Z.abs (Qnum q - k * Zpos (Qden q)).
Proof.
  pose proof (py_round_half q) as H.
  destruct (Z.eq_dec k (py_round q)) as [->|Hne]; [lia|].
  nia.
Qed.

Lemma py_round_tie_Z (q : Q) (k : Z) :
  k <> py_round q ->
  Z.abs (Qnum q - py_round q * Zpos (Qden q))
  = Z.abs (Qnum q - k * Zpos (Qden q)) ->
  Z.even (py_round q) = true.
Proof.
  intros Hne Heq.
  pose proof (py_round_cases q) as H. cbv zeta in H.
  pose proof (Z.div_mod (Qnum q) (Zpos (Qden q)) ltac:(lia)) as Hdm.
  pose proof (Z.mod_pos_bound (Qnum q) (Zpos (Qden q)) ltac:(lia)) as Hb.
  destruct H as [[H1 E]|[[H1 E]|[H1 [Hev _]]]]; [exfalso|exfalso|exact Hev];
    rewrite E in *; nia.
Qed.

Lemma py_round_nearest (x : Q) (k : Z) :
  (Qabs (x - inject_Z (py_round x)) <= Qabs (x - inject_Z k))%Q.
Proof.
  pose proof (py_round_nearest_Z x k) as H.
  destruct x as [n d]. unfold Qle, Qabs, Qminus, Qplus, Qopp, inject_Z.
  cbn [Qnum Qden] in *. nia.
Qed.

Lemma py_round_tie (x : Q) (k : Z) :
  k <> py_round x ->
  (Qabs (x - inject_Z (py_round x)) == Qabs (x - inject_Z k))%Q ->
  Z.even (py_round x) = true.
Proof.
  intros Hne Heq. apply (py_round_tie_Z x k Hne).
  destruct x as [n d]. unfold Qeq, Qabs, Qminus, Qplus, Qopp, inject_Z in Heq.
  cbn [Qnum Qden] in *. nia.
Qed.

(** Distances to multiples of the step are distances of the quotient to
    integers, scaled by the step. *)
Lemma step_scaling (p : Q) (s k : Z) :
  (0 < s)%Z ->
  (Qabs (p - inject_Z (k * s))
   == Qabs (p / inject_Z s - inject_Z k) * inject_Z s)%Q.
Proof.
  intros Hs.
  assert (Hs' : ~ (inject_Z s == 0)%Q).
  { unfold Qeq, inject_Z; cbn. lia. }
  assert (Hpos : (0 <= inject_Z s)%Q).
  { unfold Qle, inject_Z; cbn. lia. }
  rewrite <- (Qabs_pos (inject_Z s)) at 2 by exact Hpos.
  rewrite <- Qabs_Qmult. apply Qabs_wd.
  rewrite inject_Z_mult. field. exact Hs'.
Qed.

(** On the exact quotient [p / s], the strike [round(p / s) * s] is a
    multiple of [s]; no multiple of [s] is strictly closer to [p]; and when
    another multiple is as close, the computed one is the even multiple.
    The steps are 50, 100 and 100, and a spot of 24821 with step 50 gives
    24800. *)
Lemma atm_strike_exact_quotient (spot : pyval) (p : Q) (s : Z) :
  num_val spot = Some p -> (0 < p)%Q -> (0 < s)%Z ->
  atm_of spot s = Ok (atm_strike p s) /\
  (s | atm_strike p s)%Z /\
  (forall k : Z,
     (Qabs (p - inject_Z (atm_strike p s)) <= Qabs (p - inject_Z (k * s)))%Q) /\
  (forall k : Z,
     k * s <> atm_strike p s ->
     (Qabs (p - inject_Z (atm_strike p s)) == Qabs (p - inject_Z (k * s)))%Q ->
     Z.even (atm_strike p s / s) = true) /\
  (STEP NIFTY = 50 /\ STEP SENSEX = 100 /\ STEP BANKNIFTY = 100) /\
  atm_of (PInt 24821) (STEP NIFTY) = Ok 24800.
Proof.
  intros Hspot Hp Hs.
  assert (Hs' : Qeq_bool (inject_Z s) 0 = false).
  { apply not_true_is_false. intros H. apply Qeq_bool_iff in H.
    unfold Qeq, inject_Z in H; cbn in H. lia. }
  assert (Hpos : (0 < inject_Z s)%Q).
  { unfold Qlt, inject_Z; cbn. lia. }
  split; [|split; [|split; [|split; [|split]]]].
  - unfold atm_of, py_truediv. rewrite Hspot. cbn [num_val obind].
    rewrite Hs'. reflexivity.
  - exists (py_round (p / inject_Z s)). reflexivity.
  - intros k. unfold atm_strike. rewrite !step_scaling by exact Hs.
    apply Qmult_le_compat_r; [apply py_round_nearest|apply Qlt_le_weak, Hpos].
  - intros k Hne Heq. unfold atm_strike in *.
    rewrite Z.div_mul by lia.
    apply (py_round_tie (p / inject_Z s) k).
    + intros ->. apply Hne. reflexivity.
    + rewrite !step_scaling in Heq by exact Hs.
      apply Qmult_inj_r in Heq; [exact Heq|].
      intros H0. rewrite H0 in Hpos. discriminate Hpos.
  - repeat split.
  - reflexivity.
Qed.

(** ** [safe_call] *)

Ltac eff_unfold :=
  unfold safe_call, bind, ret, lift, raise, try_except, invoke, ensure_token,
         time_sleep, get_world, modify in *.

Ltac world_simpl :=
  cbv beta iota;
  cbn [kite_calls refreshes slept oi_open_map iv_open_map files points].

Ltac world_simpl_in H :=
  cbv beta iota in H;
  cbn [kite_calls refreshes slept oi_open_map iv_open_map files points] in H.

Section SafeCallProps.

Variable kite : nat -> string -> list string -> upstream.
Variable ensure_token_fn : nat -> option exn.
Variable method_name : string.
Variable args : list string.

Abbreviation loop := (safe_call_loop kite ensure_token_fn).

(** One round of the loop, by the outcome of the invocation. *)
Lemma safe_call_loop_S (fuel attempt : nat) (w : world) :
  loop (S fuel) method_name args attempt w
  = (do r <- invoke kite method_name args;
     match r with
     | Returns v => ret v
     | RaisesKite ex =>
       if is_token_exception ex then
         run try_except (ensure_token ensure_token_fn) (fun _ => ret tt);
         if (max_retries <? S attempt)%nat then ret empty_dict
         else loop fuel method_name args (S attempt)
       else if says_too_many ex || is_429 (code ex) then
         run time_sleep (kite_delay ex attempt);
         if (max_retries <? S attempt)%nat then ret empty_dict
         else loop fuel method_name args (S attempt)
       else ret empty_dict
     | RaisesHTTP (Some resp) =>
       if status_code resp =? 429 then
         run time_sleep (http_delay resp attempt);
         if (max_retries <? S attempt)%nat then ret empty_dict
         else loop fuel method_name args (S attempt)
       else ret empty_dict
     | RaisesHTTP None => ret empty_dict
     | RaisesOther _ => ret empty_dict
     end)%eff w.
Proof. reflexivity. Qed.

(** The loop ends within the retry budget: it never runs out of fuel once
    the fuel exceeds the retries left, and it invokes the broker at least
    once and at most once per attempt left. *)
Lemma safe_call_loop_bounded (fuel : nat) :
  forall (attempt : nat) (w w' : world) (r : outcome pyval),
    (attempt <= max_retries)%nat ->
    (max_retries - attempt < fuel)%nat ->
    loop fuel method_name args attempt w = (w', r) ->
    r <> OutOfFuel /\
    (kite_calls w < kite_calls w')%nat /\
    (kite_calls w' <= kite_calls w + (S max_retries - attempt))%nat.
Proof.
  induction fuel as [|fuel IH]; intros attempt w w' r Ha Hf H; [lia|].
  rewrite safe_call_loop_S in H. eff_unfold. world_simpl_in H.
  assert (Hretry : forall w1 : world,
    kite_calls w1 = S (kite_calls w) ->
    (if (max_retries <? S attempt)%nat
     then (fun w0 : world => (w0, Ok empty_dict))
     else loop fuel method_name args (S attempt)) w1 = (w', r) ->
    r <> OutOfFuel /\
    (kite_calls w < kite_calls w')%nat /\
    (kite_calls w' <= kite_calls w + (S max_retries - attempt))%nat).
  { intros w1 Hw1 H1.
    destruct (max_retries <? S attempt)%nat eqn:E.
    - inversion H1; subst. split; [discriminate|lia].
    - apply Nat.ltb_ge in E. apply IH in H1; [|lia|lia].
      destruct H1 as (? & ? & ?). split; [assumption|lia]. }
  assert (Hstop : forall (w1 : world) (r1 : outcome pyval),
    kite_calls w1 = S (kite_calls w) -> r1 <> OutOfFuel ->
    (w1, r1) = (w', r) ->
    r <> OutOfFuel /\
    (kite_calls w < kite_calls w')%nat /\
    (kite_calls w' <= kite_calls w + (S max_retries - attempt))%nat).
  { intros w1 r1 Hw1 Hr1 H1. inversion H1; subst. split; [assumption|lia]. }
  revert H.
  destruct (kite (kite_calls w) method_name args) as [v|ex|[resp|]|e];
    world_simpl;
    [ |destruct (is_token_exception ex); world_simpl;
       [destruct (ensure_token_fn (refreshes w)); world_simpl
       |destruct (says_too_many ex || is_429 (code ex)); world_simpl;
        [destruct (Qle_bool 0 (kite_delay ex attempt)); world_simpl|]]
     |destruct (status_code resp =? 429); world_simpl;
       [destruct (Qle_bool 0 (http_delay resp attempt)); world_simpl|]
     | | ];
    intros H;
    first [ eapply Hretry; [|exact H]; reflexivity
          | eapply Hstop; [| |exact H]; [reflexivity|discriminate] ].
Qed.

(** The delay of the [KiteException] branch is never negative. *)
Lemma backoff_nonneg (attempt : nat) : (0 <= Qmin (backoff attempt) 2)%Q.
Proof.
  apply Q.min_glb; [|discriminate].
  unfold backoff, base_delay.
  apply Qmult_le_0_compat; [discriminate|].
  unfold Qle, inject_Z; cbn. pose proof (Z.pow_nonneg 2 (Z.of_nat attempt)). lia.
Qed.

Lemma kite_delay_nonneg (ex : kite_exception) (attempt : nat) :
  Qle_bool 0 (kite_delay ex attempt) = true.
Proof.
  apply Qle_bool_iff. unfold kite_delay.
  pose proof (backoff_nonneg attempt) as Hb.
  destruct (kite_headers ex) as [[|z|]|]; cbn [negb andb Z.eqb]; try exact Hb.
  destruct (Z.eqb_spec z 0); cbn [negb andb]; [exact Hb|].
  destruct (Z.ltb_spec 0 z); [|exact Hb].
  unfold Qle, inject_Z; cbn. lia.
Qed.

Lemma http_delay_nonneg (resp : http_response) (attempt : nat) :
  nonneg_hint (RaisesHTTP (Some resp)) = true ->
  (status_code resp =? 429) = true ->
  Qle_bool 0 (http_delay resp attempt) = true.
Proof.
  intros Hh Hs. apply Qle_bool_iff. unfold http_delay.
  pose proof (backoff_nonneg attempt) as Hb.
  cbn in Hh. rewrite Hs in Hh.
  destruct (http_headers resp) as [|z|]; try exact Hb.
  apply Z.leb_le in Hh.
  destruct (Z.eqb_spec z 0); [exact Hb|].
  apply Q.min_glb; [|discriminate].
  unfold Qle, inject_Z; cbn. lia.
Qed.

(** Unless a rate-limit response carries a negative hint, the loop ends
    with a value: the payload of one of its invocations or [{}]. *)
Lemma safe_call_loop_absorbs (fuel : nat) :
  forall (attempt : nat) (w w' : world) (r : outcome pyval),
    (forall n, nonneg_hint (kite n method_name args) = true) ->
    (attempt <= max_retries)%nat ->
    (max_retries - attempt < fuel)%nat ->
    loop fuel method_name args attempt w = (w', r) ->
    exists v, r = Ok v /\
      (v = empty_dict \/ exists n, kite n method_name args = Returns v).
Proof.
  induction fuel as [|fuel IH]; intros attempt w w' r Hh Ha Hf H; [lia|].
  rewrite safe_call_loop_S in H. eff_unfold. world_simpl_in H.
  assert (Hretry : forall w1 : world,
    (if (max_retries <? S attempt)%nat
     then (fun w0 : world => (w0, Ok empty_dict))
     else loop fuel method_name args (S attempt)) w1 = (w', r) ->
    exists v, r = Ok v /\
      (v = empty_dict \/ exists n, kite n method_name args = Returns v)).
  { intros w1 H1.
    destruct (max_retries <? S attempt)%nat eqn:E.
    - inversion H1; subst. exists empty_dict. split; [reflexivity|left; reflexivity].
    - apply Nat.ltb_ge in E. apply IH in H1; [exact H1|exact Hh|lia|lia]. }
  assert (Hstop : forall w1 : world, (w1, Ok empty_dict) = (w', r) ->
    exists v, r = Ok v /\
      (v = empty_dict \/ exists n, kite n method_name args = Returns v)).
  { intros w1 H1. inversion H1; subst.
    exists empty_dict. split; [reflexivity|left; reflexivity]. }
  pose proof (Hh (kite_calls w)) as Hh0.
  revert H.
  destruct (kite (kite_calls w) method_name args) as [v|ex|[resp|]|e] eqn:Ek;
    world_simpl.
  - intros H. inversion H; subst. exists v. split; [reflexivity|].
    right. exists (kite_calls w). exact Ek.
  - destruct (is_token_exception ex); world_simpl.
    + destruct (ensure_token_fn (refreshes w)); world_simpl;
        intros H; eapply Hretry; exact H.
    + destruct (says_too_many ex || is_429 (code ex)); world_simpl.
      * rewrite kite_delay_nonneg. world_simpl.
        intros H; eapply Hretry; exact H.
      * intros H; eapply Hstop; exact H.
  - destruct (status_code resp =? 429) eqn:Es; world_simpl.
    + rewrite (http_delay_nonneg resp attempt Hh0 Es). world_simpl.
      intros H; eapply Hretry; exact H.
    + intros H; eapply Hstop; exact H.
  - intros H; eapply Hstop; exact H.
  - intros H; eapply Hstop; exact H.
Qed.

(** While the attempts left keep failing on authentication, the loop
    refreshes the token after each of them and ends with [{}]. *)
Lemma safe_call_loop_auth (fuel : nat) :
  forall (attempt : nat) (w : world),
    (attempt <= max_retries)%nat ->
    (max_retries - attempt < fuel)%nat ->
    (forall i, (i <= max_retries - attempt)%nat ->
       is_auth_failure (kite (kite_calls w + i) method_name args) = true) ->
    exists w',
      loop fuel method_name args attempt w = (w', Ok empty_dict) /\
      kite_calls w' = (kite_calls w + (S max_retries - attempt))%nat /\
      refreshes w' = (refreshes w + (S max_retries - attempt))%nat /\
      slept w' = slept w.
Proof.
  induction fuel as [|fuel IH]; intros attempt w Ha Hf Hauth; [lia|].
  rewrite safe_call_loop_S. eff_unfold. world_simpl.
  pose proof (Hauth 0%nat ltac:(lia)) as H0.
  rewrite Nat.add_0_r in H0.
  destruct (kite (kite_calls w) method_name args) as [v|ex|[resp|]|e];
    try discriminate H0.
  cbn in H0. rewrite H0. world_simpl.
  assert (Hgo : forall w1 : world,
    kite_calls w1 = S (kite_calls w) -> refreshes w1 = S (refreshes w) ->
    slept w1 = slept w ->
    exists w',
      (if (max_retries <? S attempt)%nat
       then (fun w0 : world => (w0, Ok empty_dict))
       else loop fuel method_name args (S attempt)) w1
      = (w', Ok empty_dict) /\
      kite_calls w' = (kite_calls w + (S max_retries - attempt))%nat /\
      refreshes w' = (refreshes w + (S max_retries - attempt))%nat /\
      slept w' = slept w).
  { intros w1 Hc Hr Hs.
    destruct (max_retries <? S attempt)%nat eqn:E.
    - apply Nat.ltb_lt in E. exists w1. split; [reflexivity|].
      rewrite Hc, Hr, Hs. split; [lia|split; [lia|reflexivity]].
    - apply Nat.ltb_ge in E.
      destruct (IH (S attempt) w1 ltac:(lia) ltac:(lia)) as (w' & Hl & Hc' & Hr' & Hs').
      { intros i Hi. rewrite Hc.
        replace (S (kite_calls w) + i)%nat with (kite_calls w + S i)%nat by lia.
        apply Hauth. lia. }
      exists w'. split; [exact Hl|].
      rewrite Hc', Hr', Hs', Hc, Hr, Hs. split; [lia|split; [lia|reflexivity]]. }
  destruct (ensure_token_fn (refreshes w)); world_simpl;
    apply Hgo; reflexivity.
Qed.

End SafeCallProps.

(** Unless an HTTP 429 carries a negative hint, [safe_call] absorbs every
    failure: it ends, within one attempt and three retries, with the payload
    of an invocation or with [{}]. *)
Lemma safe_call_absorbs (kite : nat -> string -> list string -> upstream)
    (ensure_token_fn : nat -> option exn) (method_name : string)
    (args : list string) (fuel : nat) (w : world) :
  (forall n, nonneg_hint (kite n method_name args) = true) ->
  (max_retries < fuel)%nat ->
  exists w' v,
    safe_call kite ensure_token_fn fuel method_name args w = (w', Ok v) /\
    (v = empty_dict \/ exists n, kite n method_name args = Returns v).
Proof.
  intros Hh Hf.
  destruct (safe_call kite ensure_token_fn fuel method_name args w)
    as [w' r] eqn:E.
  destruct (safe_call_loop_absorbs kite ensure_token_fn method_name args
              fuel 0%nat w w' r Hh ltac:(unfold max_retries; lia)
              ltac:(lia) E) as (v & -> & Hv).
  exists w', v. split; [reflexivity|exact Hv].
Qed.

(** C1. [safe_call] does let an exception through: when the broker method
    raises an HTTP 429 whose [Retry-After] header is a negative integer, the
    delay is negative, [time.sleep] raises [ValueError] inside the handler,
    and the caller receives it, whatever the operation and its arguments. *)
Theorem safe_call_raises_on_negative_hint (ensure_token_fn : nat -> option exn)
    (method_name : string) (args : list string) (fuel : nat) (w : world) :
  nonneg_hint Scenarios.http_429_negative_hint = false /\
  snd (safe_call (Scenarios.always Scenarios.http_429_negative_hint)
                 ensure_token_fn (S fuel) method_name args w)
  = Raise ValueError.
Proof. split; reflexivity. Qed.

(** C2, as amended. Whatever the broker does, a logical call ends after at
    most one attempt and three retries; and when the attempt and all three
    retries fail on authentication, the result is [{}], not an exception,
    and the token refresher has been invoked exactly four times (whether or
    not it succeeds). *)
Theorem auth_failures_exhaust_after_four
    (kite : nat -> string -> list string -> upstream)
    (ensure_token_fn : nat -> option exn) (method_name : string)
    (args : list string) (fuel : nat) (w : world) :
  (max_retries < fuel)%nat ->
  max_retries = 3%nat /\
  snd (safe_call kite ensure_token_fn fuel method_name args w) <> OutOfFuel /\
  (kite_calls (fst (safe_call kite ensure_token_fn fuel method_name args w))
   <= kite_calls w + 1 + max_retries)%nat /\
  ((forall i, (i <= max_retries)%nat ->
      is_auth_failure (kite (kite_calls w + i)%nat method_name args) = true) ->
   snd (safe_call kite ensure_token_fn fuel method_name args w) = Ok empty_dict /\
   kite_calls (fst (safe_call kite ensure_token_fn fuel method_name args w))
   = (kite_calls w + 4)%nat /\
   refreshes (fst (safe_call kite ensure_token_fn fuel method_name args w))
   = (refreshes w + 4)%nat).
Proof.
  intros Hf. split; [reflexivity|].
  destruct (safe_call kite ensure_token_fn fuel method_name args w)
    as [w' r] eqn:E.
  destruct (safe_call_loop_bounded kite ensure_token_fn method_name args
              fuel 0%nat w w' r ltac:(unfold max_retries; lia)
              ltac:(lia) E) as (Hr & _ & Hc).
  split; [exact Hr|]. split; [cbn [fst]; unfold max_retries in *; lia|].
  intros Hauth.
  destruct (safe_call_loop_auth kite ensure_token_fn method_name args
              fuel 0%nat w ltac:(unfold max_retries; lia) ltac:(lia))
    as (w2 & Hl & Hc2 & Hr2 & _).
  { intros i Hi. apply Hauth. lia. }
  unfold safe_call in E. rewrite Hl in E. inversion E; subst.
  cbn [fst snd]. split; [reflexivity|]. split; assumption.
Qed.

(** Four authentication failures in a row, with a refresher that fails too. *)
Lemma auth_failures_exhaust_after_four_witness :
  snd (safe_call (Scenarios.always Scenarios.auth_failure)
                 Scenarios.refresh_fails 4 "quote" ["NSE:NIFTY 50"] world0)
  = Ok empty_dict /\
  refreshes (fst (safe_call (Scenarios.always Scenarios.auth_failure)
                            Scenarios.refresh_fails 4 "quote"
                            ["NSE:NIFTY 50"] world0)) = 4%nat.
Proof.
  destruct (auth_failures_exhaust_after_four
              (Scenarios.always Scenarios.auth_failure) Scenarios.refresh_fails
              "quote" ["NSE:NIFTY 50"] 4 world0 ltac:(unfold max_retries; lia))
    as (_ & _ & _ & H).
  destruct (H (fun _ _ => eq_refl)) as (H1 & _ & H3).
  split; [exact H1|exact H3].
Defined.

(** C2, as stated, fails. After three authentication failures in a row the
    token has been refreshed three times and a fourth attempt is made: if
    it succeeds the payload is returned, not [{}]; if it fails too, the
    refresher is invoked a fourth time. *)
Lemma three_auth_failures_counterexample :
  (forall i, (i < 3)%nat ->
     is_auth_failure
       (Scenarios.first_then 3 Scenarios.auth_failure Scenarios.some_payload
          i "quote" ["NSE:NIFTY 50"]) = true) /\
  snd (safe_call
         (Scenarios.first_then 3 Scenarios.auth_failure Scenarios.some_payload)
         Scenarios.refresh_ok 4 "quote" ["NSE:NIFTY 50"] world0)
  = Ok Scenarios.some_payload /\
  Scenarios.some_payload <> empty_dict /\
  refreshes (fst (safe_call (Scenarios.always Scenarios.auth_failure)
                            Scenarios.refresh_ok 4 "quote"
                            ["NSE:NIFTY 50"] world0)) = 4%nat.
Proof.
  split; [|split; [reflexivity|split; [discriminate|reflexivity]]].
  intros [|[|[|i]]] Hi; [reflexivity|reflexivity|reflexivity|lia].
Qed.

(** ** Derived fields *)

Lemma isinstance_int_val (v : pyval) :
  isinstance_int v = true -> exists z, int_val v = Some z.
Proof. destruct v; cbn; intros H; try discriminate H; eexists; reflexivity. Qed.

Lemma isinstance_num_val (v : pyval) :
  isinstance_num v = true -> exists q, num_val v = Some q.
Proof. destruct v; cbn; intros H; try discriminate H; eexists; reflexivity. Qed.

Lemma int_val_isinstance (v : pyval) (z : Z) :
  int_val v = Some z -> isinstance_int v = true.
Proof. destruct v; cbn; intros H; try discriminate H; reflexivity. Qed.

Lemma num_val_isinstance (v : pyval) (q : Q) :
  num_val v = Some q -> isinstance_num v = true.
Proof. destruct v; cbn; intros H; try discriminate H; reflexivity. Qed.

Lemma int_val_num_val (v : pyval) (z : Z) :
  int_val v = Some z -> num_val v = Some (inject_Z z).
Proof. destruct v; cbn; intros H; inversion H; reflexivity. Qed.

(** Subtraction of numbers yields the number that is their difference. *)
Lemma py_sub_num (a b : pyval) (x y : Q) :
  num_val a = Some x -> num_val b = Some y ->
  exists v d, py_sub a b = Ok v /\ num_val v = Some d /\ (d == x - y)%Q.
Proof.
  intros Ha Hb. unfold py_sub.
  destruct (int_val a) as [i|] eqn:Ia; [destruct (int_val b) as [j|] eqn:Ib|].
  - apply int_val_num_val in Ia, Ib. rewrite Ia in Ha. rewrite Ib in Hb.
    inversion Ha; inversion Hb; subst.
    exists (PInt (i - j)), (inject_Z (i - j)). split; [reflexivity|].
    split; [reflexivity|].
    unfold Z.sub. rewrite inject_Z_plus, inject_Z_opp. reflexivity.
  - rewrite Ha, Hb. exists (PFloat (x - y)), (x - y)%Q.
    split; [reflexivity|split; reflexivity].
  - rewrite Ha, Hb. exists (PFloat (x - y)), (x - y)%Q.
    split; [reflexivity|split; reflexivity].
Qed.

Lemma py_add_num (a b : pyval) (x y : Q) :
  num_val a = Some x -> num_val b = Some y ->
  exists v d, py_add a b = Ok v /\ num_val v = Some d /\ (d == x + y)%Q.
Proof.
  intros Ha Hb. unfold py_add.
  destruct (int_val a) as [i|] eqn:Ia; [destruct (int_val b) as [j|] eqn:Ib|].
  - apply int_val_num_val in Ia, Ib. rewrite Ia in Ha. rewrite Ib in Hb.
    inversion Ha; inversion Hb; subst.
    exists (PInt (i + j)), (inject_Z (i + j)). split; [reflexivity|].
    split; [reflexivity|]. rewrite inject_Z_plus. reflexivity.
  - rewrite Ha, Hb. exists (PFloat (x + y)), (x + y)%Q.
    split; [reflexivity|split; reflexivity].
  - rewrite Ha, Hb. exists (PFloat (x + y)), (x + y)%Q.
    split; [reflexivity|split; reflexivity].
Qed.

Lemma py_mul_num (a b : pyval) (x y : Q) :
  num_val a = Some x -> num_val b = Some y ->
  exists v d, py_mul a b = Ok v /\ num_val v = Some d /\ (d == x * y)%Q.
Proof.
  intros Ha Hb. unfold py_mul.
  destruct (int_val a) as [i|] eqn:Ia; [destruct (int_val b) as [j|] eqn:Ib|].
  - apply int_val_num_val in Ia, Ib. rewrite Ia in Ha. rewrite Ib in Hb.
    inversion Ha; inversion Hb; subst.
    exists (PInt (i * j)), (inject_Z (i * j)). split; [reflexivity|].
    split; [reflexivity|]. rewrite inject_Z_mult. reflexivity.
  - rewrite Ha, Hb. exists (PFloat (x * y)), (x * y)%Q.
    split; [reflexivity|split; reflexivity].
  - rewrite Ha, Hb. exists (PFloat (x * y)), (x * y)%Q.
    split; [reflexivity|split; reflexivity].
Qed.

(** A division guarded by [!= 0] does not raise. *)
Lemma py_truediv_guarded (a b : pyval) (x y : Q) :
  num_val a = Some x -> num_val b = Some y -> py_ne0 b = true ->
  py_truediv a b = Ok (PFloat (x / y)).
Proof.
  intros Ha Hb Hne. unfold py_truediv, py_ne0 in *. rewrite Ha, Hb in *.
  destruct (Qeq_bool y 0); [discriminate Hne|reflexivity].
Qed.

(** The guarded field computations never raise. *)
Lemma oi_drift_total (a b : pyval) : exists v, oi_drift a b = Ok v.
Proof.
  unfold oi_drift.
  destruct (isinstance_int a) eqn:Ea; [destruct (isinstance_int b) eqn:Eb|];
    cbn [andb]; try (eexists; reflexivity).
  destruct (isinstance_int_val a Ea) as [x Hx].
  destruct (isinstance_int_val b Eb) as [y Hy].
  unfold py_sub. rewrite Hx, Hy. eexists; reflexivity.
Qed.

Lemma iv_drift_total (a b : pyval) : exists v, iv_drift a b = Ok v.
Proof.
  unfold iv_drift.
  destruct (isinstance_num a) eqn:Ea; [destruct (isinstance_num b) eqn:Eb|];
    cbn [andb]; try (eexists; reflexivity).
  destruct (isinstance_num_val a Ea) as [x Hx].
  destruct (isinstance_num_val b Eb) as [y Hy].
  destruct (py_sub_num a b x y Hx Hy) as (v & _ & -> & _). eexists; reflexivity.
Qed.

Lemma change_total (a b : pyval) : exists v, change a b = Ok v.
Proof. apply iv_drift_total. Qed.

Lemma change_percent_total (a b : pyval) : exists v, change_percent a b = Ok v.
Proof.
  unfold change_percent.
  destruct (isinstance_num a) eqn:Ea; [destruct (isinstance_num b) eqn:Eb|];
    cbn [andb]; try (eexists; reflexivity).
  destruct (py_ne0 b) eqn:Ec; [|eexists; reflexivity].
  destruct (isinstance_num_val a Ea) as [x Hx].
  destruct (isinstance_num_val b Eb) as [y Hy].
  destruct (py_sub_num a b x y Hx Hy) as (d & dq & -> & Hd & _). cbn [obind].
  rewrite (py_truediv_guarded d b dq y Hd Hy Ec). cbn [obind].
  destruct (py_mul_num (PFloat (dq / y)) (PInt 100) (dq / y) (inject_Z 100)
              eq_refl eq_refl) as (v & _ & -> & _).
  eexists; reflexivity.
Qed.

Lemma put_call_ratio_total (pe_oi ce_oi : pyval) :
  exists v, put_call_ratio pe_oi ce_oi = Ok v.
Proof.
  unfold put_call_ratio.
  destruct (isinstance_int pe_oi) eqn:Ea; [destruct (isinstance_int ce_oi) eqn:Eb|];
    cbn [andb]; try (eexists; reflexivity).
  destruct (py_ne0 ce_oi) eqn:Ec; [|eexists; reflexivity].
  destruct (isinstance_int_val pe_oi Ea) as [x Hx].
  destruct (isinstance_int_val ce_oi Eb) as [y Hy].
  apply int_val_num_val in Hx, Hy.
  rewrite (py_truediv_guarded pe_oi ce_oi _ _ Hx Hy Ec). eexists; reflexivity.
Qed.

(** The total premium is a number, whatever the two last prices are. *)
Lemma total_premium_number (ce_lp pe_lp : pyval) :
  exists tp q, total_premium ce_lp pe_lp = Ok tp /\ num_val tp = Some q /\
    (q == match num_val ce_lp with Some x => x | None => 0 end
          + match num_val pe_lp with Some y => y | None => 0 end)%Q.
Proof.
  unfold total_premium, py_sum. cbn [List.filter].
  destruct (isinstance_num ce_lp) eqn:Ea; destruct (isinstance_num pe_lp) eqn:Eb;
    cbn [fold_left obind].
  - destruct (isinstance_num_val _ Ea) as [x Hx].
    destruct (isinstance_num_val _ Eb) as [y Hy]. rewrite Hx, Hy.
    destruct (py_add_num (PInt 0) ce_lp 0 x eq_refl Hx) as (s & sq & -> & Hs & Es).
    cbn [obind].
    destruct (py_add_num s pe_lp sq y Hs Hy) as (t & tq & -> & Ht & Et).
    exists t, tq. split; [reflexivity|split; [exact Ht|]].
    rewrite Et, Es. ring.
  - destruct (isinstance_num_val _ Ea) as [x Hx]. rewrite Hx.
    destruct (py_add_num (PInt 0) ce_lp 0 x eq_refl Hx) as (s & sq & -> & Hs & Es).
    exists s, sq. split; [reflexivity|split; [exact Hs|]].
    destruct (num_val pe_lp) eqn:Ey;
      [apply num_val_isinstance in Ey; congruence|]. rewrite Es. ring.
  - destruct (isinstance_num_val _ Eb) as [y Hy]. rewrite Hy.
    destruct (py_add_num (PInt 0) pe_lp 0 y eq_refl Hy) as (s & sq & -> & Hs & Es).
    exists s, sq. split; [reflexivity|split; [exact Hs|]].
    destruct (num_val ce_lp) eqn:Ex;
      [apply num_val_isinstance in Ex; congruence|]. rewrite Es. ring.
  - exists (PInt 0), (inject_Z 0). split; [reflexivity|split; [reflexivity|]].
    destruct (num_val ce_lp) eqn:Ex;
      [apply num_val_isinstance in Ex; congruence|].
    destruct (num_val pe_lp) eqn:Ey;
      [apply num_val_isinstance in Ey; congruence|]. reflexivity.
Qed.

(** [d.get(k)] on a dict literal. *)
Lemma py_get_field (kvs : list (string * pyval)) (k : string) :
  py_get (PDict kvs) k PNone = Ok (field kvs k).
Proof. reflexivity. Qed.

(** On a quote that is a dict and whose [ohlc] entry, if any, is a dict, the
    leg record is built, and its derived fields are the guarded
    computations on the quote's and the record's own fields. *)
Lemma make_leg_fields (timestamp : pyval) (idx : index) (label side : string)
    (exp today : date) (atm : Z) (oi_open : pyval)
    (kvs okvs : list (string * pyval)) :
  py_get (PDict kvs) "ohlc" empty_dict = Ok (PDict okvs) ->
  exists rec,
    make_leg timestamp idx label side exp today atm oi_open (PDict kvs)
    = Ok (PDict rec) /\
    field rec "oi_open" = oi_open /\
    field rec "oi" = field kvs "oi" /\
    Ok (field rec "oi_change") = oi_drift (field rec "oi_open") (field rec "oi") /\
    Ok (field rec "net_change")
    = change (field kvs "last_price") (field okvs "close") /\
    Ok (field rec "net_change_percent")
    = change_percent (field kvs "last_price") (field okvs "close") /\
    Ok (field rec "day_change")
    = change (field kvs "last_price") (field okvs "open") /\
    Ok (field rec "day_change_percent")
    = change_percent (field kvs "last_price") (field okvs "open").
Proof.
  intros Hohlc. unfold make_leg. rewrite py_get_field. cbn [obind].
  destruct (oi_drift_total oi_open (field kvs "oi")) as [oc Hoc].
  rewrite Hoc. cbn [obind]. unfold leg_record.
  repeat (first [rewrite py_get_field | rewrite Hohlc]; cbn [obind]).
  destruct (change_total (field kvs "last_price") (field okvs "close")) as [nc Hnc].
  destruct (change_percent_total (field kvs "last_price") (field okvs "close"))
    as [ncp Hncp].
  destruct (change_total (field kvs "last_price") (field okvs "open")) as [dc Hdc].
  destruct (change_percent_total (field kvs "last_price") (field okvs "open"))
    as [dcp Hdcp].
  rewrite Hnc, Hncp, Hdc, Hdcp. cbn [obind].
  eexists. split; [reflexivity|].
  cbn -[change change_percent oi_drift].
  rewrite ?Hoc, ?Hnc, ?Hncp, ?Hdc, ?Hdcp. repeat split; reflexivity.
Qed.

(** Building a leg record raises [AttributeError] or nothing. *)
Lemma make_leg_outcome (timestamp : pyval) (idx : index) (label side : string)
    (exp today : date) (atm : Z) (oi_open q : pyval) :
  (exists rec, make_leg timestamp idx label side exp today atm oi_open q
               = Ok (PDict rec)) \/
  make_leg timestamp idx label side exp today atm oi_open q
  = Raise AttributeError.
Proof.
  destruct q as [| | | | |kvs|]; try (right; reflexivity).
  destruct (py_get (PDict kvs) "ohlc" empty_dict) as [ohlc| |] eqn:E;
    try discriminate E.
  destruct ohlc as [| | | | |okvs|].
  6:{ left. destruct (make_leg_fields timestamp idx label side exp today atm
                        oi_open kvs okvs E) as (rec & H & _).
      exists rec. exact H. }
  all: right; unfold make_leg; rewrite py_get_field; cbn [obind];
    destruct (oi_drift_total oi_open (field kvs "oi")) as [oc ->]; cbn [obind];
    unfold leg_record;
    repeat (first [rewrite py_get_field | rewrite E]; cbn [obind]); reflexivity.
Qed.

(** On two quotes that are dicts the overview aggregate is built, and its
    derived fields are the guarded computations on the quotes' and the
    aggregate's own fields. *)
Lemma make_overview_fields (ce pe : list (string * pyval))
    (iv_avg iv_open_val : pyval) (exp today : date) :
  exists agg,
    make_overview (PDict ce) (PDict pe) iv_avg iv_open_val exp today
    = Ok (PDict agg) /\
    field agg "atm_iv" = iv_avg /\
    field agg "iv_open" = iv_open_val /\
    Ok (field agg "iv_day_change")
    = iv_drift (field agg "iv_open") (field agg "atm_iv") /\
    Ok (field agg "TP")
    = total_premium (field ce "last_price") (field pe "last_price") /\
    Ok (field agg "PCR") = put_call_ratio (field pe "oi") (field ce "oi").
Proof.
  unfold make_overview.
  destruct (iv_drift_total iv_open_val iv_avg) as [dr Hdr]. rewrite Hdr.
  cbn [obind]. unfold overview_aggregate.
  repeat (rewrite py_get_field; cbn [obind]).
  destruct (total_premium_number (field ce "last_price") (field pe "last_price"))
    as (tp & _ & Htp & _).
  destruct (put_call_ratio_total (field pe "oi") (field ce "oi")) as [pcr Hpcr].
  rewrite Htp. cbn [obind]. repeat (rewrite py_get_field; cbn [obind]).
  rewrite Hpcr. cbn [obind].
  eexists. split; [reflexivity|].
  cbn -[iv_drift total_premium put_call_ratio].
  rewrite ?Hdr, ?Htp, ?Hpcr. repeat split; reflexivity.
Qed.

(** Building an overview aggregate raises [AttributeError] or nothing. *)
Lemma make_overview_outcome (ce_q pe_q iv_avg iv_open_val : pyval)
    (exp today : date) :
  (exists agg, make_overview ce_q pe_q iv_avg iv_open_val exp today
               = Ok (PDict agg)) \/
  make_overview ce_q pe_q iv_avg iv_open_val exp today = Raise AttributeError.
Proof.
  destruct ce_q as [| | | | |ce|]; destruct pe_q as [| | | | |pe|].
  41:{ left. destruct (make_overview_fields ce pe iv_avg iv_open_val exp today)
         as (agg & H & _). exists agg. exact H. }
  all: right; unfold make_overview;
    destruct (iv_drift_total iv_open_val iv_avg) as [dr ->]; cbn [obind];
    unfold overview_aggregate;
    repeat (rewrite py_get_field; cbn [obind]); reflexivity.
Qed.

Lemma not_num_val (v : pyval) : isinstance_num v = false -> num_val v = None.
Proof. destruct v; cbn; intros H; try discriminate H; reflexivity. Qed.

(** C5. The put/call ratio is [None] when the call open interest is zero or
    not an [int] (or the put open interest is not an [int]) and is put
    divided by call otherwise; a percentage is [None] when its OHLC
    reference is zero or not numeric (or the last price is not numeric);
    these are the fields that the emitted leg and overview hold; building
    them never raises [ZeroDivisionError]. Call 100 and put 150 give 1.5;
    call 0 gives [None]; last price 100 on a close of 0 gives [None]. *)
Theorem ratios_null_unless_defined :
  (forall pe_oi ce_oi : pyval,
     (isinstance_int ce_oi = false \/ py_ne0 ce_oi = false \/
      isinstance_int pe_oi = false ->
      put_call_ratio pe_oi ce_oi = Ok PNone) /\
     (forall p c : Z,
        int_val pe_oi = Some p -> int_val ce_oi = Some c -> c <> 0 ->
        put_call_ratio pe_oi ce_oi = Ok (PFloat (inject_Z p / inject_Z c)))) /\
  (forall last ref : pyval,
     isinstance_num ref = false \/ py_ne0 ref = false \/
     isinstance_num last = false ->
     change_percent last ref = Ok PNone) /\
  (forall timestamp idx label side exp today atm oi_open kvs okvs,
     py_get (PDict kvs) "ohlc" empty_dict = Ok (PDict okvs) ->
     exists rec,
       make_leg timestamp idx label side exp today atm oi_open (PDict kvs)
       = Ok (PDict rec) /\
       Ok (field rec "net_change_percent")
       = change_percent (field kvs "last_price") (field okvs "close") /\
       Ok (field rec "day_change_percent")
       = change_percent (field kvs "last_price") (field okvs "open")) /\
  (forall ce pe iv_avg iv_open_val exp today,
     exists agg,
       make_overview (PDict ce) (PDict pe) iv_avg iv_open_val exp today
       = Ok (PDict agg) /\
       Ok (field agg "PCR") = put_call_ratio (field pe "oi") (field ce "oi")) /\
  (forall timestamp idx label side exp today atm oi_open q,
     make_leg timestamp idx label side exp today atm oi_open q
     <> Raise ZeroDivisionError) /\
  (forall ce_q pe_q iv_avg iv_open_val exp today,
     make_overview ce_q pe_q iv_avg iv_open_val exp today
     <> Raise ZeroDivisionError) /\
  (exists r, put_call_ratio (PInt 150) (PInt 100) = Ok (PFloat r) /\
             (r == 15 # 10)%Q) /\
  put_call_ratio (PInt 150) (PInt 0) = Ok PNone /\
  change_percent (PInt 100) (PInt 0) = Ok PNone.
Proof.
  split; [|split; [|split; [|split; [|split; [|split; [|split; [|split]]]]]]].
  - intros pe_oi ce_oi. split.
    + unfold put_call_ratio. intros [H|[H|H]]; rewrite H;
        rewrite ?andb_false_r; reflexivity.
    + intros p c Hp Hc Hne. unfold put_call_ratio.
      rewrite (int_val_isinstance _ _ Hp), (int_val_isinstance _ _ Hc).
      pose proof (int_val_num_val _ _ Hp) as Hp'.
      pose proof (int_val_num_val _ _ Hc) as Hc'.
      assert (Hz : py_ne0 ce_oi = true).
      { unfold py_ne0. rewrite Hc'. apply negb_true_iff, not_true_is_false.
        intros H. apply Qeq_bool_iff in H.
        unfold Qeq, inject_Z in H. cbn in H. lia. }
      rewrite Hz. cbn [andb]. apply py_truediv_guarded; assumption.
  - intros last ref. unfold change_percent. intros [H|[H|H]]; rewrite H;
      rewrite ?andb_false_r; reflexivity.
  - intros timestamp idx label side exp today atm oi_open kvs okvs H.
    destruct (make_leg_fields timestamp idx label side exp today atm oi_open
                kvs okvs H) as (rec & Hr & _ & _ & _ & _ & H1 & _ & H2).
    exists rec. split; [exact Hr|split; [exact H1|exact H2]].
  - intros ce pe iv_avg iv_open_val exp today.
    destruct (make_overview_fields ce pe iv_avg iv_open_val exp today)
      as (agg & Ha & _ & _ & _ & _ & H).
    exists agg. split; [exact Ha|exact H].
  - intros timestamp idx label side exp today atm oi_open q.
    destruct (make_leg_outcome timestamp idx label side exp today atm oi_open q)
      as [[rec ->]| ->]; discriminate.
  - intros ce_q pe_q iv_avg iv_open_val exp today.
    destruct (make_overview_outcome ce_q pe_q iv_avg iv_open_val exp today)
      as [[agg ->]| ->]; discriminate.
  - eexists. split; reflexivity.
  - reflexivity.
  - reflexivity.
Qed.

(** A call open interest of [False], which is the integer 0, gives no ratio. *)
Lemma ratios_null_unless_defined_witness :
  put_call_ratio (PInt 7) (PBool false) = Ok PNone /\
  put_call_ratio (PInt 1200) (PInt 1000)
  = Ok (PFloat (inject_Z 1200 / inject_Z 1000)).
Proof.
  destruct ratios_null_unless_defined as (H & _).
  destruct (H (PInt 7) (PBool false)) as [H1 _].
  destruct (H (PInt 1200) (PInt 1000)) as [_ H2].
  split.
  - apply H1. right; left. reflexivity.
  - apply (H2 1200 1000); [reflexivity|reflexivity|discriminate].
Defined.

(** C6. The open-interest change of a leg is baseline minus current when
    both are [int] and [None] otherwise; the implied-volatility drift of a
    bucket is baseline minus current when both are [int] or [float] and
    [None] otherwise; these are the fields [oi_change] and [iv_day_change]
    of the emitted records, computed from the records' own baseline and
    current fields. A baseline of 100 against a current 80 gives +20. *)
Theorem drift_is_baseline_minus_current :
  (forall oi_open oi_curr : pyval,
     (forall b c : Z,
        int_val oi_open = Some b -> int_val oi_curr = Some c ->
        oi_drift oi_open oi_curr = Ok (PInt (b - c))) /\
     (isinstance_int oi_open = false \/ isinstance_int oi_curr = false ->
      oi_drift oi_open oi_curr = Ok PNone)) /\
  (forall iv_open_val iv_avg : pyval,
     (forall b c : Q,
        num_val iv_open_val = Some b -> num_val iv_avg = Some c ->
        exists v d, iv_drift iv_open_val iv_avg = Ok v /\
                    num_val v = Some d /\ (d == b - c)%Q) /\
     (isinstance_num iv_open_val = false \/ isinstance_num iv_avg = false ->
      iv_drift iv_open_val iv_avg = Ok PNone)) /\
  (forall timestamp idx label side exp today atm oi_open kvs okvs,
     py_get (PDict kvs) "ohlc" empty_dict = Ok (PDict okvs) ->
     exists rec,
       make_leg timestamp idx label side exp today atm oi_open (PDict kvs)
       = Ok (PDict rec) /\
       field rec "oi_open" = oi_open /\
       field rec "oi" = field kvs "oi" /\
       Ok (field rec "oi_change")
       = oi_drift (field rec "oi_open") (field rec "oi")) /\
  (forall ce pe iv_avg iv_open_val exp today,
     exists agg,
       make_overview (PDict ce) (PDict pe) iv_avg iv_open_val exp today
       = Ok (PDict agg) /\
       field agg "atm_iv" = iv_avg /\
       field agg "iv_open" = iv_open_val /\
       Ok (field agg "iv_day_change")
       = iv_drift (field agg "iv_open") (field agg "atm_iv")) /\
  oi_drift (PInt 100) (PInt 80) = Ok (PInt 20) /\
  iv_drift (PFloat (15 # 1)) (PFloat (12 # 1)) = Ok (PFloat ((15 # 1) - (12 # 1))).
Proof.
  split; [|split; [|split; [|split; [|split]]]].
  - intros oi_open oi_curr. split.
    + intros b c Hb Hc. unfold oi_drift.
      rewrite (int_val_isinstance _ _ Hb), (int_val_isinstance _ _ Hc).
      cbn [andb]. unfold py_sub. rewrite Hb, Hc. reflexivity.
    + unfold oi_drift. intros [H|H]; rewrite H; rewrite ?andb_false_r; reflexivity.
  - intros iv_open_val iv_avg. split.
    + intros b c Hb Hc. unfold iv_drift.
      rewrite (num_val_isinstance _ _ Hb), (num_val_isinstance _ _ Hc).
      cbn [andb]. apply py_sub_num; assumption.
    + unfold iv_drift. intros [H|H]; rewrite H; rewrite ?andb_false_r; reflexivity.
  - intros timestamp idx label side exp today atm oi_open kvs okvs H.
    destruct (make_leg_fields timestamp idx label side exp today atm oi_open
                kvs okvs H) as (rec & Hr & H1 & H2 & H3 & _).
    exists rec. repeat split; assumption.
  - intros ce pe iv_avg iv_open_val exp today.
    destruct (make_overview_fields ce pe iv_avg iv_open_val exp today)
      as (agg & Ha & H1 & H2 & H3 & _).
    exists agg. repeat split; assumption.
  - reflexivity.
  - reflexivity.
Qed.

(** An open interest that fell from 1000 at the open to 900 now: +100. *)
Lemma drift_is_baseline_minus_current_witness :
  oi_drift (PInt 1000) (PInt 900) = Ok (PInt (1000 - 900)) /\
  oi_drift (PInt 1000) PNone = Ok PNone.
Proof.
  destruct drift_is_baseline_minus_current as (H & _).
  split.
  - destruct (H (PInt 1000) (PInt 900)) as [H1 _].
    apply (H1 1000 900); reflexivity.
  - destruct (H (PInt 1000) PNone) as [_ H2]. apply H2. right. reflexivity.
Defined.

(** C10. The total premium is always a number, never [None]: it is the sum
    of the last prices that are numeric, so it is the other leg's last price
    when one is missing and the integer 0 when both are; and it is the
    field [TP] of every overview aggregate that is emitted. *)
Theorem total_premium_never_null :
  (forall ce_lp pe_lp : pyval,
     exists tp q, total_premium ce_lp pe_lp = Ok tp /\
       isinstance_num tp = true /\ tp <> PNone /\
       num_val tp = Some q /\
       (q == match num_val ce_lp with Some x => x | None => 0 end
             + match num_val pe_lp with Some y => y | None => 0 end)%Q) /\
  (forall (ce_lp pe_lp : pyval) (y : Q),
     isinstance_num ce_lp = false -> num_val pe_lp = Some y ->
     exists tp q, total_premium ce_lp pe_lp = Ok tp /\
       num_val tp = Some q /\ (q == y)%Q) /\
  (forall (ce_lp pe_lp : pyval) (x : Q),
     num_val ce_lp = Some x -> isinstance_num pe_lp = false ->
     exists tp q, total_premium ce_lp pe_lp = Ok tp /\
       num_val tp = Some q /\ (q == x)%Q) /\
  (forall ce_lp pe_lp : pyval,
     isinstance_num ce_lp = false -> isinstance_num pe_lp = false ->
     total_premium ce_lp pe_lp = Ok (PInt 0)) /\
  (forall ce pe iv_avg iv_open_val exp today,
     exists agg,
       make_overview (PDict ce) (PDict pe) iv_avg iv_open_val exp today
       = Ok (PDict agg) /\
       Ok (field agg "TP")
       = total_premium (field ce "last_price") (field pe "last_price") /\
       isinstance_num (field agg "TP") = true).
Proof.
  split; [|split; [|split; [|split]]].
  - intros ce_lp pe_lp.
    destruct (total_premium_number ce_lp pe_lp) as (tp & q & H1 & H2 & H3).
    exists tp, q. split; [exact H1|]. split; [exact (num_val_isinstance _ _ H2)|].
    split; [intros ->; discriminate H2|]. split; [exact H2|exact H3].
  - intros ce_lp pe_lp y Hc Hp.
    destruct (total_premium_number ce_lp pe_lp) as (tp & q & H1 & H2 & H3).
    exists tp, q. split; [exact H1|split; [exact H2|]].
    rewrite (not_num_val _ Hc), Hp in H3. rewrite H3. ring.
  - intros ce_lp pe_lp x Hc Hp.
    destruct (total_premium_number ce_lp pe_lp) as (tp & q & H1 & H2 & H3).
    exists tp, q. split; [exact H1|split; [exact H2|]].
    rewrite (not_num_val _ Hp), Hc in H3. rewrite H3. ring.
  - intros ce_lp pe_lp Hc Hp. unfold total_premium. cbn [List.filter].
    rewrite Hc, Hp. reflexivity.
  - intros ce pe iv_avg iv_open_val exp today.
    destruct (make_overview_fields ce pe iv_avg iv_open_val exp today)
      as (agg & Ha & _ & _ & _ & H & _).
    exists agg. split; [exact Ha|split; [exact H|]].
    destruct (total_premium_number (field ce "last_price") (field pe "last_price"))
      as (tp & q & H1 & H2 & _).
    rewrite H1 in H. inversion H as [H3]. rewrite H3.
    exact (num_val_isinstance _ _ H2).
Qed.

(** A missing call price and a put at 95.25, then both prices missing. *)
Lemma total_premium_never_null_witness :
  (exists tp q, total_premium PNone (PFloat (9525 # 100)) = Ok tp /\
     num_val tp = Some q /\ (q == 9525 # 100)%Q) /\
  total_premium PNone (PStr "n/a") = Ok (PInt 0).
Proof.
  destruct total_premium_never_null as (_ & H1 & _ & H2 & _).
  split.
  - apply (H1 PNone (PFloat (9525 # 100)) (9525 # 100)); reflexivity.
  - apply H2; reflexivity.
Defined.

(** ** The monthly expiry rule *)

(** Within a month the weekday advances by one per day. *)
Lemma weekday_from_first (y m d : Z) :
  weekday y m d = (weekday y m 1 + (d - 1)) mod 7.
Proof.
  unfold weekday, ymd2ord. rewrite Zplus_mod_idemp_l. f_equal. lia.
Qed.

Lemma weekday_range (y m d : Z) : 0 <= weekday y m d < 7.
Proof. unfold weekday. apply Z.mod_pos_bound. lia. Qed.

Lemma days_in_month_range (y m : Z) :
  1 <= m <= 12 -> 28 <= days_in_month y m <= 31.
Proof.
  intros Hm. unfold days_in_month, mdays.
  assert (Hc : m = 1 \/ m = 2 \/ m = 3 \/ m = 4 \/ m = 5 \/ m = 6 \/ m = 7 \/
               m = 8 \/ m = 9 \/ m = 10 \/ m = 11 \/ m = 12) by lia.
  destruct (isleap y);
    repeat (destruct Hc as [->|Hc];
            [vm_compute; split; intros H; discriminate H|]);
    subst; vm_compute; split; intros H; discriminate H.
Qed.

(** The month calendar of a month that starts on weekday [day1] and has
    [ndays] days: its last Thursday entry, by running all 28 cases. *)
Lemma last_thursday_entry (day1 ndays : Z) :
  0 <= day1 < 7 -> 28 <= ndays <= 31 ->
  exists d,
    last_item (thursdays (weeks_of (length (itermonthdays day1 ndays))
                                   (itermonthdays day1 ndays))) = Ok d /\
    1 <= d <= ndays /\ (day1 + (d - 1)) mod 7 = THURSDAY /\ ndays < d + 7.
Proof.
  intros H1 H2.
  assert (Hd : day1 = 0 \/ day1 = 1 \/ day1 = 2 \/ day1 = 3 \/ day1 = 4 \/
               day1 = 5 \/ day1 = 6) by lia.
  assert (Hn : ndays = 28 \/ ndays = 29 \/ ndays = 30 \/ ndays = 31) by lia.
  repeat (destruct Hd as [->|Hd]);
    repeat (destruct Hn as [->|Hn]); subst;
    (eexists; split; [vm_compute; reflexivity|]);
    (split; [lia|split; [reflexivity|lia]]).
Qed.

(** The body shared by [this_month_expiry] and [next_month_expiry], on a
    month within the range of [date]. *)
Lemma expiry_of_month (y m : Z) :
  MINYEAR <= y <= MAXYEAR -> 1 <= m <= 12 ->
  exists d,
    (let? cal := monthcalendar y m in
     let thurs := thursdays cal in
     let? d := last_item thurs in
     date_new y m d)%outcome = Ok d /\ last_thursday_of y m d.
Proof.
  intros Hy Hm.
  pose proof (days_in_month_range y m Hm) as Hn.
  pose proof (weekday_range y m 1) as Hw.
  destruct (last_thursday_entry _ _ Hw Hn) as (d & Hl & Hd & Ht & Hlast).
  exists {| year := y; month := m; day := d |}.
  assert (Hmr : monthrange y m = Ok (weekday y m 1, days_in_month y m)).
  { unfold monthrange, calendar_weekday.
    replace ((1 <=? m) && (m <=? 12)) with true by (symmetry; apply andb_true_intro; split; lia).
    replace ((MINYEAR <=? y) && (y <=? MAXYEAR)) with true
      by (symmetry; apply andb_true_intro; split; lia).
    reflexivity. }
  split.
  - unfold monthcalendar. rewrite Hmr. cbn [obind fst snd]. rewrite Hl.
    cbn [obind]. unfold date_new.
    replace ((MINYEAR <=? y) && (y <=? MAXYEAR) && (1 <=? m) && (m <=? 12)
             && (1 <=? d) && (d <=? days_in_month y m)) with true;
      [reflexivity|].
    symmetry. repeat (apply andb_true_intro; split); lia.
  - unfold last_thursday_of. cbn [year month day].
    split; [reflexivity|split; [reflexivity|split; [exact Hd|split]]].
    + rewrite weekday_from_first. exact Ht.
    + intros d' Hd'. rewrite weekday_from_first.
      unfold THURSDAY in *. intros Hc.
      pose proof (Z.div_mod (weekday y m 1 + (d - 1)) 7 ltac:(lia)) as E1.
      pose proof (Z.div_mod (weekday y m 1 + (d' - 1)) 7 ltac:(lia)) as E2.
      rewrite Ht in E1. rewrite Hc in E2. lia.
Qed.

(** C7. With [date.today()] any valid date, [this_month_expiry] returns the
    last Thursday of the current month: a date of that month that is a
    Thursday and after which the month has no other Thursday;
    [next_month_expiry] returns the last Thursday of the following month,
    which for December is January of the next year (the following month
    must itself be within the range of [date], which ends in year 9999). *)
Theorem monthly_expiry_is_last_thursday (t : date) :
  valid_date t ->
  (exists d, this_month_expiry t = Ok d /\
             last_thursday_of (year t) (month t) d) /\
  (year t < MAXYEAR \/ month t < 12 ->
   exists d, next_month_expiry t = Ok d /\
             last_thursday_of (if month t =? 12 then year t + 1 else year t)
                              (if month t =? 12 then 1 else month t + 1) d).
Proof.
  intros (Hy & Hm & _). split.
  - apply expiry_of_month; assumption.
  - intros Hnext. unfold next_month_expiry.
    destruct (Z.eqb_spec (month t) 12) as [E|E].
    + rewrite E. change (12 mod 12 + 1) with 1.
      apply expiry_of_month; unfold MINYEAR, MAXYEAR in *; lia.
    + replace (month t mod 12 + 1) with (month t + 1)
        by (rewrite Z.mod_small; lia).
      replace (year t + 0) with (year t) by lia.
      apply expiry_of_month; lia.
Qed.

(** From 4 December 2026: 31 December 2026, then 28 January 2027. *)
Lemma monthly_expiry_is_last_thursday_witness :
  (exists d, this_month_expiry {| year := 2026; month := 12; day := 4 |} = Ok d /\
             last_thursday_of 2026 12 d) /\
  (exists d, next_month_expiry {| year := 2026; month := 12; day := 4 |} = Ok d /\
             last_thursday_of 2027 1 d).
Proof.
  destruct (monthly_expiry_is_last_thursday
              {| year := 2026; month := 12; day := 4 |}) as [H1 H2].
  - vm_compute. repeat split; intros H; discriminate H.
  - split; [exact H1|]. apply H2. left. reflexivity.
Defined.

(** ** The sinks and the cycle *)




























(** ** Baselines *)

Lemma extends_refl (w : world) : extends w w.
Proof. split; intros k v H; exact H. Qed.




Lemma extends_set_iv_open (w : world) (k : string) (v : pyval) :
  iv_open_map w !! k = None -> extends w (set_iv_open k v w).
Proof.
  intros Hk. split; intros k' v' H; cbn; [exact H|].
  destruct (decide (k = k')) as [->|Hne]; [congruence|].
  rewrite lookup_insert_ne by exact Hne. exact H.
Qed.














(** What the two seeding steps and the aggregate step leave in the world. *)
Lemma seed_oi_world (tkn : string) (q : pyval) (w : world) :
  fst (seed_oi tkn q w)
  = match oi_open_map w !! tkn, py_get q "oi" PNone with
    | None, Ok oi => if isinstance_int oi then set_oi_open tkn oi w else w
    | _, _ => w
    end.
Proof.
  unfold seed_oi, bind, get_world, lift, modify, ret. cbv beta iota.
  destruct (oi_open_map w !! tkn); [reflexivity|].
  destruct (py_get q "oi" PNone) as [oi| |]; cbv beta iota; [|reflexivity|reflexivity].
  destruct (isinstance_int oi); reflexivity.
Qed.

Lemma seed_iv_world (tkn : string) (q : pyval) (w : world) :
  fst (seed_iv tkn q w)
  = match iv_open_map w !! tkn, py_get q "iv" PNone with
    | None, Ok iv => if isinstance_num iv then set_iv_open tkn iv w else w
    | _, _ => w
    end.
Proof.
  unfold seed_iv, bind, get_world, lift, modify, ret. cbv beta iota.
  destruct (iv_open_map w !! tkn); [reflexivity|].
  destruct (py_get q "iv" PNone) as [iv| |]; cbv beta iota; [|reflexivity|reflexivity].
  destruct (isinstance_num iv); reflexivity.
Qed.

Lemma observe_iv_avg_run (iv_key : string) (iv_avg : pyval) (w : world) :
  observe_iv_avg iv_key iv_avg w
  = match iv_avg, iv_open_map w !! iv_key with
    | PNone, _ => (w, Ok (baseline_get (iv_open_map w) iv_key))
    | _, Some v => (w, Ok v)
    | _, None => (set_iv_open iv_key iv_avg w, Ok iv_avg)
    end.
Proof.
  unfold observe_iv_avg, bind, get_world, modify, ret, baseline_get.
  cbv beta iota.
  destruct iv_avg; destruct (iv_open_map w !! iv_key) eqn:E; cbv beta iota;
    cbn [iv_open_map set_iv_open]; rewrite ?E, ?lookup_insert_eq; reflexivity.
Qed.


Lemma preserves_seed_iv tkn q : preserves (seed_iv tkn q).
Proof.
  intros w. rewrite seed_iv_world.
  destruct (iv_open_map w !! tkn) eqn:E; [apply extends_refl|].
  destruct (py_get q "iv" PNone) as [iv| |]; try apply extends_refl.
  destruct (isinstance_num iv); [|apply extends_refl].
  apply extends_set_iv_open. exact E.
Qed.






Section CollectPreserves.

Variable kite : nat -> string -> list string -> upstream.
Variable ensure_token_fn : nat -> option exn.
Variable insts_nfo insts_bfo : list instrument.
Variable raw_dir : string.
Variable use_dynamic_expiries : bool.
Variable influx_writer : option (point -> option exn).
Variable fromisoformat : pyval -> option pyval.
Variable str_other : pyval -> string.
Variable discover_weeklies_for_index :
  list instrument -> list instrument -> index -> Z -> list date.
Variable discover_monthlies_for_index :
  list instrument -> list instrument -> index -> Z
  -> option date * option date.
Variable today : date.
Variable snapshot_time : string.
Variable rounded_half_minute_now : nat -> pyval.
Variable fs_write : string -> pyval -> option exn.
Variable fuel : nat.







End CollectPreserves.

Lemma extends_lookup_oi (w w' : world) (k : string) (v : pyval) :
  extends w w' -> oi_open_map w !! k = Some v ->
  baseline_get (oi_open_map w') k = v.
Proof. intros [H _] Hk. unfold baseline_get. rewrite (H k v Hk). reflexivity. Qed.






(** With discovery disabled, the round of the BANKNIFTY index raises
    [KeyError] as soon as its spot price is a number, whatever the other
    collaborators are. *)
Lemma collect_index_static_banknifty
    kite ensure_token_fn insts_nfo insts_bfo raw_dir influx_writer
    fromisoformat str_other discover_weeklies_for_index
    discover_monthlies_for_index today snapshot_time rounded_half_minute_now
    fs_write fuel (c : cycle) (w w1 : world) (spot : pyval) (p : Q) :
  _spot_price kite ensure_token_fn fuel BANKNIFTY w = (w1, Ok spot) ->
  num_val spot = Some p ->
  collect_index kite ensure_token_fn insts_nfo insts_bfo raw_dir false
    influx_writer fromisoformat str_other discover_weeklies_for_index
    discover_monthlies_for_index today snapshot_time rounded_half_minute_now
    fs_write fuel c BANKNIFTY w
  = (w1, Raise KeyError).
Proof.
  intros Hspot Hp. unfold collect_index, bind. rewrite Hspot.
  assert (Hatm : exists atm, atm_of spot (STEP BANKNIFTY) = Ok atm).
  { unfold atm_of, py_truediv. rewrite Hp. cbn. eexists; reflexivity. }
  destruct Hatm as [atm Hatm]. unfold lift. rewrite Hatm.
  destruct spot; try discriminate Hp; reflexivity.
Qed.

(** A failing snapshot write ends the round of its leg with the exception
    of the write, before the time-series write: the world is as it was. *)
Lemma collect_leg_snapshot_failure
    influx_writer fromisoformat str_other today snapshot_time
    rounded_half_minute_now fs_write raw_dir
    (idx : index) (label : string) (exp : date) (atm : Z) (c : cycle)
    (side tkn : string) (q rec : pyval) (w : world) (e : exn) :
  make_leg (rounded_half_minute_now (length (legs c))) idx label side exp
           today atm (baseline_get (oi_open_map w) tkn) q = Ok rec ->
  (forall path, fs_write path rec = Some e) ->
  collect_leg raw_dir influx_writer fromisoformat str_other today
    snapshot_time rounded_half_minute_now fs_write idx label exp atm c
    (side, tkn, q) w
  = (w, Raise e).
Proof.
  intros Hrec Hfs. unfold collect_leg, bind, get_world, lift, save_json.
  rewrite Hrec, Hfs. reflexivity.
Qed.

(** C8. With dynamic expiry discovery disabled, [collect] does not complete
    when the BANKNIFTY spot is available: [exps] is the empty dict,
    [exps["monthly"]] raises [KeyError] in the BANKNIFTY branch, and the
    cycle ends with that exception. The other two indices read [exps]
    through [get] and find no bucket. *)
Theorem collect_static_raises_key_error :
  pairs_for BANKNIFTY [] = Raise KeyError /\
  pairs_for NIFTY []
  = Ok [("this_week", None); ("next_week", None);
        ("this_month", None); ("next_month", None)] /\
  pairs_for SENSEX [] = pairs_for NIFTY [] /\
  snd (Scenarios.run_cycle Scenarios.spots false
         Scenarios.disk_ok Scenarios.influx_ok) = Raise KeyError.
Proof. repeat split; vm_compute; reflexivity. Qed.

(** C9. A failure of the snapshot file write is not swallowed: with a disk
    that refuses writes, the cycle ends with [OSError] at the first leg,
    whose time-series point is never written, and no other leg is
    processed. A failing time-series writer, on the same session, leaves
    the cycle complete with both snapshot files written. *)
Theorem snapshot_write_failure_escapes :
  snd (Scenarios.run_cycle Scenarios.book true
         Scenarios.disk_full Scenarios.influx_ok) = Raise OSError /\
  points (fst (Scenarios.run_cycle Scenarios.book true
                 Scenarios.disk_full Scenarios.influx_ok)) = [] /\
  length (points (fst (Scenarios.run_cycle Scenarios.book true
                         Scenarios.disk_ok Scenarios.influx_ok))) = 2%nat /\
  (exists r, snd (Scenarios.run_cycle Scenarios.book true
                    Scenarios.disk_ok Scenarios.influx_down) = Ok r) /\
  length (files (fst (Scenarios.run_cycle Scenarios.book true
                        Scenarios.disk_ok Scenarios.influx_down))) = 2%nat.
Proof.
  split; [vm_compute; reflexivity|].
  split; [vm_compute; reflexivity|].
  split; [vm_compute; reflexivity|].
  split; [eexists; vm_compute; reflexivity|vm_compute; reflexivity].
Qed.

End Props.

(** * Further properties *)

Module More.
Import Py Eff KiteHelpers InfluxSink Collector Spec Props.
Import SafeLtp Laws InfluxOverview Scheduler Frames Points.
Import Binary64 Snapshots.

(** ** [safe_call]: retries, delays, refreshes *)

Section SafeCallMore.

Variable kite : nat -> string -> list string -> upstream.
Variable ensure_token_fn : nat -> option exn.
Variable method_name : string.
Variable args : list string.

Abbreviation loop' := (safe_call_loop kite ensure_token_fn).

Lemma http_delay_le_2 (resp : http_response) (attempt : nat) :
  (http_delay resp attempt <= 2)%Q.
Proof.
  unfold http_delay. destruct (http_headers resp) as [|z|];
    apply Q.le_min_r.
Qed.

Lemma kite_delay_le_2 (ex : kite_exception) (attempt : nat) :
  (kite_delay ex attempt <= 2)%Q.
Proof.
  unfold kite_delay.
  destruct (kite_headers ex) as [[|z|]|]; try apply Q.le_min_r.
  destruct (negb (z =? 0) && (0 <? z)); [|apply Q.le_min_r].
  unfold Qle, inject_Z; cbn. lia.
Qed.

(** The sleeps of the loop: at most one per attempt left, each between 0
    and 2 seconds. *)
Lemma safe_call_loop_sleeps (fuel : nat) :
  forall (attempt : nat) (w w' : world) (r : outcome pyval),
    (attempt <= max_retries)%nat ->
    loop' fuel method_name args attempt w = (w', r) ->
    exists ds,
      slept w' = (ds ++ slept w)%list /\
      (length ds <= S max_retries - attempt)%nat /\
      Forall (fun d => (0 <= d)%Q /\ (d <= 2)%Q) ds.
Proof.
  induction fuel as [|fuel IH]; intros attempt w w' r Ha H.
  { inversion H; subst. exists []. repeat split; [cbn; lia|constructor]. }
  rewrite safe_call_loop_S in H. eff_unfold. world_simpl_in H.
  assert (Hstop : forall (w1 : world) (r1 : outcome pyval),
    slept w1 = slept w -> (w1, r1) = (w', r) ->
    exists ds,
      slept w' = (ds ++ slept w)%list /\
      (length ds <= S max_retries - attempt)%nat /\
      Forall (fun d => (0 <= d)%Q /\ (d <= 2)%Q) ds).
  { intros w1 r1 Hs H1. inversion H1; subst. exists [].
    repeat split; [exact Hs|cbn; lia|constructor]. }
  assert (Hretry : forall (w1 : world) (pre : list Q),
    slept w1 = (pre ++ slept w)%list -> (length pre <= 1)%nat ->
    Forall (fun d => (0 <= d)%Q /\ (d <= 2)%Q) pre ->
    (if (max_retries <? S attempt)%nat
     then (fun w0 : world => (w0, Ok empty_dict))
     else loop' fuel method_name args (S attempt)) w1 = (w', r) ->
    exists ds,
      slept w' = (ds ++ slept w)%list /\
      (length ds <= S max_retries - attempt)%nat /\
      Forall (fun d => (0 <= d)%Q /\ (d <= 2)%Q) ds).
  { intros w1 pre Hs Hl Hpre H1.
    destruct (max_retries <? S attempt)%nat eqn:E.
    - inversion H1; subst. exists pre.
      apply Nat.ltb_lt in E. repeat split; [exact Hs|lia|exact Hpre].
    - apply Nat.ltb_ge in E. apply IH in H1; [|lia].
      destruct H1 as (ds & Hds & Hlen & Hall).
      exists (ds ++ pre)%list. rewrite Hds, Hs, app_assoc.
      repeat split; [rewrite length_app; lia|].
      apply Forall_app. split; assumption. }
  revert H.
  destruct (kite (kite_calls w) method_name args) as [v|ex|[resp|]|e];
    world_simpl;
    [ |destruct (is_token_exception ex); world_simpl;
       [destruct (ensure_token_fn (refreshes w)); world_simpl
       |destruct (says_too_many ex || is_429 (code ex)); world_simpl;
        [destruct (Qle_bool 0 (kite_delay ex attempt)) eqn:Ed; world_simpl|]]
     |destruct (status_code resp =? 429); world_simpl;
       [destruct (Qle_bool 0 (http_delay resp attempt)) eqn:Ed; world_simpl|]
     | | ];
    intros H;
    try (eapply Hstop; [|exact H]; reflexivity);
    try (eapply (Hretry _ []); [| | |exact H];
         [reflexivity|cbn; lia|constructor]).
  - eapply (Hretry _ [kite_delay ex attempt]); [| | |exact H];
      [reflexivity|cbn; lia|].
    constructor; [|constructor].
    split; [apply Qle_bool_iff; exact Ed|apply kite_delay_le_2].
  - eapply (Hretry _ [http_delay resp attempt]); [| | |exact H];
      [reflexivity|cbn; lia|].
    constructor; [|constructor].
    split; [apply Qle_bool_iff; exact Ed|apply http_delay_le_2].
Qed.

Lemma total_delay_bound (ds : list Q) :
  Forall (fun d => (0 <= d)%Q /\ (d <= 2)%Q) ds ->
  (0 <= total_delay ds)%Q /\
  (total_delay ds <= 2 * inject_Z (Z.of_nat (length ds)))%Q.
Proof.
  induction 1 as [|d ds [H0 H2] _ [IH0 IH]]; cbn [total_delay fold_right length].
  - split; discriminate.
  - fold (total_delay ds). split.
    + replace 0%Q with (0 + 0)%Q by reflexivity.
      apply Qplus_le_compat; assumption.
    + rewrite Nat2Z.inj_succ. unfold Z.succ. rewrite inject_Z_plus.
      apply Qle_trans with (2 + 2 * inject_Z (Z.of_nat (length ds)))%Q;
        [apply Qplus_le_compat; assumption|].
      apply Qle_lteq. right. ring.
Qed.

(** X1. Whatever the broker and the refresher do, one logical call sleeps
    at most four times, each time between 0 and 2 seconds: at most 8
    seconds in all. *)
Theorem safe_call_sleeps_bounded (fuel : nat) (w : world) :
  exists ds,
    slept (fst (safe_call kite ensure_token_fn fuel method_name args w))
    = (ds ++ slept w)%list /\
    (length ds <= 4)%nat /\
    Forall (fun d => (0 <= d)%Q /\ (d <= 2)%Q) ds /\
    (total_delay ds <= 8)%Q.
Proof.
  destruct (safe_call kite ensure_token_fn fuel method_name args w)
    as [w' r] eqn:E.
  destruct (safe_call_loop_sleeps fuel 0%nat w w' r
              ltac:(unfold max_retries; lia) E) as (ds & Hs & Hl & Hall).
  exists ds. cbn [fst]. unfold max_retries in Hl.
  repeat split; [exact Hs|lia|exact Hall|].
  destruct (total_delay_bound ds Hall) as [_ Hb].
  eapply Qle_trans; [exact Hb|].
  unfold Qle, inject_Z; cbn. lia.
Qed.

(** The loop recovers once an attempt succeeds after authentication
    failures that leave a retry. *)
Lemma safe_call_loop_recovers (fuel : nat) :
  forall (attempt j : nat) (w : world) (v : pyval),
    (attempt + j <= max_retries)%nat ->
    (j < fuel)%nat ->
    (forall i, (i < j)%nat ->
       is_auth_failure (kite (kite_calls w + i) method_name args) = true) ->
    kite (kite_calls w + j)%nat method_name args = Returns v ->
    exists w',
      loop' fuel method_name args attempt w = (w', Ok v) /\
      kite_calls w' = (kite_calls w + S j)%nat /\
      refreshes w' = (refreshes w + j)%nat /\
      slept w' = slept w.
Proof.
  induction fuel as [|fuel IH]; intros attempt j w v Ha Hf Hauth Hv; [lia|].
  rewrite safe_call_loop_S. eff_unfold. world_simpl.
  destruct j as [|j].
  - rewrite Nat.add_0_r in Hv. rewrite Hv. world_simpl.
    eexists. split; [reflexivity|]. cbn. repeat split; lia.
  - pose proof (Hauth 0%nat ltac:(lia)) as H0. rewrite Nat.add_0_r in H0.
    destruct (kite (kite_calls w) method_name args) as [?|ex|[?|]|?];
      try discriminate H0.
    cbn in H0. rewrite H0. world_simpl.
    assert (Hgo : forall w1 : world,
      kite_calls w1 = S (kite_calls w) -> refreshes w1 = S (refreshes w) ->
      slept w1 = slept w ->
      exists w',
        (if (max_retries <? S attempt)%nat
         then (fun w0 : world => (w0, Ok empty_dict))
         else loop' fuel method_name args (S attempt)) w1 = (w', Ok v) /\
        kite_calls w' = (kite_calls w + S (S j))%nat /\
        refreshes w' = (refreshes w + S j)%nat /\
        slept w' = slept w).
    { intros w1 Hc Hr Hs.
      replace (max_retries <? S attempt)%nat with false
        by (symmetry; apply Nat.ltb_ge; lia).
      destruct (IH (S attempt) j w1 v ltac:(lia) ltac:(lia))
        as (w' & Hl & Hc' & Hr' & Hs').
      { intros i Hi. rewrite Hc.
        replace (S (kite_calls w) + i)%nat with (kite_calls w + S i)%nat by lia.
        apply Hauth. lia. }
      { rewrite Hc.
        replace (S (kite_calls w) + j)%nat with (kite_calls w + S j)%nat by lia.
        exact Hv. }
      exists w'. split; [exact Hl|].
      rewrite Hc', Hr', Hs', Hc, Hr, Hs. repeat split; lia. }
    destruct (ensure_token_fn (refreshes w)); world_simpl;
      apply Hgo; reflexivity.
Qed.

(** X2. When the first [j <= 3] attempts fail on authentication and the
    next one succeeds, the call returns that payload after [j + 1]
    invocations, [j] token refreshes and no sleep. *)
Theorem safe_call_recovers_after_auth_failures (fuel j : nat) (w : world)
    (v : pyval) :
  (j <= max_retries)%nat -> (j < fuel)%nat ->
  (forall i, (i < j)%nat ->
     is_auth_failure (kite (kite_calls w + i) method_name args) = true) ->
  kite (kite_calls w + j)%nat method_name args = Returns v ->
  exists w',
    safe_call kite ensure_token_fn fuel method_name args w = (w', Ok v) /\
    kite_calls w' = (kite_calls w + S j)%nat /\
    refreshes w' = (refreshes w + j)%nat /\
    slept w' = slept w.
Proof.
  intros Hj Hf Hauth Hv.
  apply safe_call_loop_recovers; [cbn; exact Hj|exact Hf|exact Hauth|exact Hv].
Qed.

(** A failure that is not retried ends the loop at the first invocation. *)
Lemma safe_call_terminal (fuel : nat) (w : world) :
  is_terminal (kite (kite_calls w) method_name args) = true ->
  safe_call kite ensure_token_fn (S fuel) method_name args w
  = (fst (invoke kite method_name args w), Ok empty_dict).
Proof.
  intros Ht.
  unfold safe_call. rewrite safe_call_loop_S. eff_unfold. world_simpl.
  destruct (kite (kite_calls w) method_name args) as [v|ex|[resp|]|e];
    cbn in Ht; try discriminate Ht; world_simpl; try reflexivity.
  - apply andb_true_iff in Ht. destruct Ht as [H1 H2].
    apply negb_true_iff in H1, H2. rewrite H1, H2. reflexivity.
  - apply negb_true_iff in Ht. rewrite Ht. reflexivity.
Qed.

(** X3. A failure that is neither an authentication failure nor a rate
    limit ends the call at once: one invocation, the empty result, no token
    refresh, no sleep. *)
Theorem safe_call_terminal_failure_no_retry (fuel : nat) (w : world) :
  is_terminal (kite (kite_calls w) method_name args) = true ->
  safe_call kite ensure_token_fn (S fuel) method_name args w
  = (fst (invoke kite method_name args w), Ok empty_dict) /\
  kite_calls (fst (invoke kite method_name args w)) = S (kite_calls w) /\
  refreshes (fst (invoke kite method_name args w)) = refreshes w /\
  slept (fst (invoke kite method_name args w)) = slept w.
Proof.
  intros Ht. split; [|repeat split].
  apply safe_call_terminal. exact Ht.
Qed.

(** Without a usable hint the delay is the capped exponential backoff. *)
Lemma no_hint_delay (u : upstream) (attempt : nat) :
  rate_limited_no_hint u = true ->
  match u with
  | RaisesKite ex =>
    is_token_exception ex = false /\
    says_too_many ex || is_429 (code ex) = true /\
    kite_delay ex attempt = Qmin (backoff attempt) 2
  | RaisesHTTP (Some resp) =>
    (status_code resp =? 429) = true /\
    http_delay resp attempt = Qmin (backoff attempt) 2
  | _ => False
  end.
Proof.
  destruct u as [v|ex|[resp|]|e]; cbn; try discriminate.
  - unfold is_kite_rate_limit, kite_delay. intros H.
    apply andb_true_iff in H. destruct H as [H1 H2].
    apply andb_true_iff in H1. destruct H1 as [Ht Hr].
    apply negb_true_iff in Ht. repeat split; [exact Ht|exact Hr|].
    destruct (kite_headers ex) as [[|z|]|]; try reflexivity.
    apply Z.leb_le in H2.
    replace (0 <? z) with false by (symmetry; apply Z.ltb_ge; lia).
    rewrite andb_false_r. reflexivity.
  - unfold http_delay. intros H.
    apply andb_true_iff in H. destruct H as [Hs H2]. split; [exact Hs|].
    destruct (http_headers resp) as [|z|]; try reflexivity.
    rewrite H2. reflexivity.
Qed.

Lemma backoff_sleep_ok (attempt : nat) :
  Qle_bool 0 (Qmin (backoff attempt) 2) = true.
Proof. apply Qle_bool_iff, backoff_nonneg. Qed.

(** While every attempt left is rate limited without a usable hint, the
    loop sleeps the capped backoff of each attempt and ends with [{}]. *)
Lemma safe_call_loop_backoff (fuel : nat) :
  forall (attempt : nat) (w : world),
    (attempt <= max_retries)%nat ->
    (max_retries - attempt < fuel)%nat ->
    (forall i, (i <= max_retries - attempt)%nat ->
       rate_limited_no_hint (kite (kite_calls w + i) method_name args) = true) ->
    exists w',
      loop' fuel method_name args attempt w = (w', Ok empty_dict) /\
      kite_calls w' = (kite_calls w + (S max_retries - attempt))%nat /\
      refreshes w' = refreshes w /\
      slept w'
      = (rev (map (fun a => Qmin (backoff a) 2)
                  (seq attempt (S max_retries - attempt))) ++ slept w)%list.
Proof.
  induction fuel as [|fuel IH]; intros attempt w Ha Hf Hrl; [lia|].
  rewrite safe_call_loop_S. eff_unfold. world_simpl.
  pose proof (Hrl 0%nat ltac:(lia)) as H0. rewrite Nat.add_0_r in H0.
  apply (no_hint_delay _ attempt) in H0.
  assert (Hgo : forall w1 : world,
    kite_calls w1 = S (kite_calls w) -> refreshes w1 = refreshes w ->
    slept w1 = Qmin (backoff attempt) 2 :: slept w ->
    exists w',
      (if (max_retries <? S attempt)%nat
       then (fun w0 : world => (w0, Ok empty_dict))
       else loop' fuel method_name args (S attempt)) w1
      = (w', Ok empty_dict) /\
      kite_calls w' = (kite_calls w + (S max_retries - attempt))%nat /\
      refreshes w' = refreshes w /\
      slept w'
      = (rev (map (fun a => Qmin (backoff a) 2)
                  (seq attempt (S max_retries - attempt))) ++ slept w)%list).
  { intros w1 Hc Hr Hs.
    destruct (max_retries <? S attempt)%nat eqn:E.
    - apply Nat.ltb_lt in E. exists w1. split; [reflexivity|].
      replace (S max_retries - attempt)%nat with 1%nat by lia.
      rewrite Hc, Hr, Hs. split; [lia|split; reflexivity].
    - apply Nat.ltb_ge in E.
      destruct (IH (S attempt) w1 ltac:(lia) ltac:(lia))
        as (w' & Hl & Hc' & Hr' & Hs').
      { intros i Hi. rewrite Hc.
        replace (S (kite_calls w) + i)%nat with (kite_calls w + S i)%nat by lia.
        apply Hrl. lia. }
      exists w'. split; [exact Hl|].
      rewrite Hc', Hr', Hs', Hc, Hr, Hs.
      split; [lia|split; [reflexivity|]].
      replace (S max_retries - attempt)%nat
        with (S (S max_retries - S attempt)) by lia.
      cbn [seq map rev]. rewrite <- app_assoc. reflexivity. }
  destruct (kite (kite_calls w) method_name args) as [v|ex|[resp|]|e];
    try contradiction.
  - destruct H0 as (Ht & Hr & Hd). rewrite Ht, Hr, Hd, backoff_sleep_ok.
    world_simpl. apply Hgo; reflexivity.
  - destruct H0 as (Hs & Hd). rewrite Hs, Hd, backoff_sleep_ok.
    world_simpl. apply Hgo; reflexivity.
Qed.

(** X4. When the attempt and its three retries are all rate limited and no
    response carries a usable hint, the call sleeps 0.2, 0.4, 0.8 and 1.6
    seconds, in that order, never refreshes the token, and returns the empty
    result after four invocations. *)
Theorem safe_call_backoff_schedule (fuel : nat) (w : world) :
  (max_retries < fuel)%nat ->
  (forall i, (i <= max_retries)%nat ->
     rate_limited_no_hint (kite (kite_calls w + i) method_name args) = true) ->
  exists w',
    safe_call kite ensure_token_fn fuel method_name args w
    = (w', Ok empty_dict) /\
    kite_calls w' = (kite_calls w + 4)%nat /\
    refreshes w' = refreshes w /\
    slept w' = ((16 # 10) :: (8 # 10) :: (4 # 10) :: (2 # 10) :: slept w)%Q.
Proof.
  intros Hf Hrl.
  destruct (safe_call_loop_backoff fuel 0%nat w
              ltac:(unfold max_retries; lia) ltac:(lia))
    as (w' & Hl & Hc & Hr & Hs).
  { intros i Hi. apply Hrl. lia. }
  exists w'. repeat split; assumption.
Qed.

(** X5. When the first attempt is rate limited with a positive integer
    [Retry-After], the first sleep of the call is that hint, capped at 2
    seconds. *)
Theorem safe_call_honours_positive_hint (fuel : nat) (w : world) (z : Z) :
  0 < z ->
  rate_limited_with_hint z (kite (kite_calls w) method_name args) = true ->
  exists ds d0,
    slept (fst (safe_call kite ensure_token_fn (S fuel) method_name args w))
    = (ds ++ d0 :: slept w)%list /\
    (d0 == inject_Z (Z.min z 2))%Q /\
    (length ds <= 3)%nat.
Proof.
  intros Hz Hrl.
  destruct (safe_call kite ensure_token_fn (S fuel) method_name args w)
    as [w' r] eqn:E.
  unfold safe_call in E. rewrite safe_call_loop_S in E. eff_unfold.
  world_simpl_in E. cbn [fst].
  assert (Hrest : forall (w1 : world) (d0 : Q),
    slept w1 = d0 :: slept w ->
    (if (max_retries <? 1)%nat
     then (fun w0 : world => (w0, Ok empty_dict))
     else loop' fuel method_name args 1%nat) w1 = (w', r) ->
    exists ds, slept w' = (ds ++ d0 :: slept w)%list /\ (length ds <= 3)%nat).
  { intros w1 d0 Hs H1. change (max_retries <? 1)%nat with false in H1.
    destruct (safe_call_loop_sleeps fuel 1%nat w1 w' r
                ltac:(unfold max_retries; lia) H1) as (ds & Hds & Hl & _).
    exists ds. rewrite Hds, Hs. split; [reflexivity|].
    unfold max_retries in Hl. lia. }
  revert E.
  destruct (kite (kite_calls w) method_name args) as [v|ex|[resp|]|e];
    cbn in Hrl; try discriminate Hrl.
  - apply andb_true_iff in Hrl. destruct Hrl as [Hk Hh].
    unfold is_kite_rate_limit in Hk. apply andb_true_iff in Hk.
    destruct Hk as [Ht Hr]. apply negb_true_iff in Ht.
    assert (Hd : kite_delay ex 0 = inject_Z (Z.min z 2)).
    { unfold kite_delay. destruct (kite_headers ex) as [[|z'|]|];
        try discriminate Hh. apply Z.eqb_eq in Hh. subst z'.
      replace (z =? 0) with false by (symmetry; apply Z.eqb_neq; lia).
      replace (0 <? z) with true by (symmetry; apply Z.ltb_lt; lia).
      reflexivity. }
    rewrite Ht, Hr, Hd. world_simpl.
    replace (Qle_bool 0 (inject_Z (Z.min z 2))) with true.
    2:{ symmetry. apply Qle_bool_iff. unfold Qle, inject_Z; cbn. lia. }
    world_simpl. intros E.
    eapply Hrest in E; [|reflexivity]. destruct E as (ds & Hds & Hl).
    exists ds, (inject_Z (Z.min z 2)).
    split; [exact Hds|split; [reflexivity|exact Hl]].
  - apply andb_true_iff in Hrl. destruct Hrl as [Hs Hh].
    assert (Hd : http_delay resp 0 = Qmin (inject_Z z) 2).
    { unfold http_delay. destruct (http_headers resp) as [|z'|];
        try discriminate Hh. apply Z.eqb_eq in Hh. subst z'.
      replace (z =? 0) with false by (symmetry; apply Z.eqb_neq; lia).
      reflexivity. }
    assert (Hq : (Qmin (inject_Z z) 2 == inject_Z (Z.min z 2))%Q).
    { destruct (Z.le_ge_cases z 2) as [Hle|Hge].
      - rewrite Z.min_l by exact Hle. apply Q.min_l.
        unfold Qle, inject_Z; cbn. lia.
      - rewrite Z.min_r by lia. apply Q.min_r.
        unfold Qle, inject_Z; cbn. lia. }
    rewrite Hs, Hd. world_simpl.
    replace (Qle_bool 0 (Qmin (inject_Z z) 2)) with true.
    2:{ symmetry. apply Qle_bool_iff. rewrite Hq.
        unfold Qle, inject_Z; cbn. lia. }
    world_simpl. intros E.
    eapply Hrest in E; [|reflexivity]. destruct E as (ds & Hds & Hl).
    exists ds, (Qmin (inject_Z z) 2).
    split; [exact Hds|split; [exact Hq|exact Hl]].
Qed.

End SafeCallMore.

(** X6. A failing token refresh is swallowed: the result of a call and
    everything it leaves behind are the same whether the refresher raises
    or not. *)
Theorem safe_call_ignores_refresh_outcome
    (kite : nat -> string -> list string -> upstream)
    (refresh1 refresh2 : nat -> option exn) (fuel : nat)
    (method_name : string) (args : list string) (w : world) :
  safe_call kite refresh1 fuel method_name args w
  = safe_call kite refresh2 fuel method_name args w.
Proof.
  unfold safe_call. generalize 0%nat as attempt. revert w.
  induction fuel as [|fuel IH]; intros w attempt; [reflexivity|].
  rewrite !safe_call_loop_S. eff_unfold. world_simpl.
  destruct (kite (kite_calls w) method_name args) as [v|ex|[resp|]|e];
    world_simpl; try reflexivity.
  - destruct (is_token_exception ex); world_simpl.
    + destruct (refresh1 (refreshes w)), (refresh2 (refreshes w)); world_simpl;
        (destruct (max_retries <? S attempt)%nat; [reflexivity|apply IH]).
    + destruct (says_too_many ex || is_429 (code ex)); [|reflexivity].
      destruct (Qle_bool 0 (kite_delay ex attempt)); world_simpl;
        [|reflexivity].
      destruct (max_retries <? S attempt)%nat; [reflexivity|apply IH].
  - destruct (status_code resp =? 429); [|reflexivity].
    destruct (Qle_bool 0 (http_delay resp attempt)); world_simpl;
      [|reflexivity].
    destruct (max_retries <? S attempt)%nat; [reflexivity|apply IH].
Qed.

(** X7. [safe_ltp] never hands out a falsy payload: unless an HTTP 429
    carries a negative hint, it returns [{}] or a truthy payload that the
    broker returned. *)
Theorem safe_ltp_empty_or_truthy
    (kite : nat -> string -> list string -> upstream)
    (ensure_token_fn : nat -> option exn) (fuel : nat)
    (tokens : list string) (w : world) :
  (forall n, nonneg_hint (kite n "ltp" tokens) = true) ->
  (max_retries < fuel)%nat ->
  exists w' v,
    safe_ltp kite ensure_token_fn fuel tokens w = (w', Ok v) /\
    (v = empty_dict \/
     (truthy v = true /\ exists n, kite n "ltp" tokens = Returns v)).
Proof.
  intros Hh Hf.
  destruct (safe_call_absorbs kite ensure_token_fn "ltp" tokens fuel w Hh Hf)
    as (w' & v & Hc & Hv).
  unfold safe_ltp, bind, ret. rewrite Hc. exists w', (py_or v empty_dict).
  split; [reflexivity|]. unfold py_or.
  destruct (truthy v) eqn:Et; [|left; reflexivity].
  destruct Hv as [->|Hn]; [left; reflexivity|right]. split; assumption.
Qed.

(** ** ATM strike: rounding error, monotonicity, fixed points *)

(** The rounded value is within a half of its argument. *)
Lemma py_round_within_half (x : Q) :
  (Qabs (x - inject_Z (py_round x)) <= 1 # 2)%Q.
Proof.
  pose proof (py_round_half x) as H.
  destruct x as [n d]. unfold Qle, Qabs, Qminus, Qplus, Qopp, inject_Z.
  cbn [Qnum Qden] in *. nia.
Qed.

Lemma py_round_bounds (x : Q) :
  (inject_Z (py_round x) - (1 # 2) <= x)%Q /\
  (x <= inject_Z (py_round x) + (1 # 2))%Q.
Proof.
  pose proof (py_round_within_half x) as H.
  apply Qabs_Qle_condition in H. destruct H as [H1 H2]. split; lra.
Qed.

Lemma inject_Z_succ_le (a b : Z) :
  (b + 1 <= a)%Z -> (inject_Z b + 1 <= inject_Z a)%Q.
Proof.
  intros H. change 1%Q with (inject_Z 1). rewrite <- inject_Z_plus.
  rewrite <- Zle_Qle. exact H.
Qed.

(** [round] is monotone. *)
Lemma py_round_monotone (x y : Q) :
  (x <= y)%Q -> (py_round x <= py_round y)%Z.
Proof.
  intros Hxy.
  destruct (Z_le_gt_dec (py_round x) (py_round y)) as [H|H]; [exact H|].
  exfalso.
  pose proof (inject_Z_succ_le (py_round x) (py_round y) ltac:(lia)) as Hab.
  destruct (py_round_bounds x) as [Hx1 Hx2].
  destruct (py_round_bounds y) as [Hy1 Hy2].
  assert (Ex : (x == inject_Z (py_round x) - (1 # 2))%Q) by lra.
  assert (Ey : (y == inject_Z (py_round y) + (1 # 2))%Q) by lra.
  assert (Eab : (inject_Z (py_round x) == inject_Z (py_round y) + 1)%Q) by lra.
  assert (Hx : Z.even (py_round x) = true).
  { apply (py_round_tie x (py_round y)); [lia|].
    rewrite (Qabs_neg (x - inject_Z (py_round x))) by lra.
    rewrite (Qabs_pos (x - inject_Z (py_round y))) by lra. lra. }
  assert (Hy : Z.even (py_round y) = true).
  { apply (py_round_tie y (py_round x)); [lia|].
    rewrite (Qabs_pos (y - inject_Z (py_round y))) by lra.
    rewrite (Qabs_neg (y - inject_Z (py_round x))) by lra. lra. }
  assert (Ez : py_round x = py_round y + 1).
  { apply inject_Z_injective. rewrite inject_Z_plus. exact Eab. }
  rewrite Ez, Z.even_add, Hy in Hx. discriminate Hx.
Qed.

(** [round] does not depend on how its rational argument is written. *)
Lemma py_round_wd (x y : Q) : (x == y)%Q -> py_round x = py_round y.
Proof.
  intros H. apply Z.le_antisymm; apply py_round_monotone; rewrite H;
    apply Qle_refl.
Qed.

(** [round] of an integer is that integer. *)
Lemma py_round_integer (k : Z) (x : Q) :
  (x == inject_Z k)%Q -> py_round x = k.
Proof.
  intros H. rewrite (py_round_wd x (inject_Z k) H).
  unfold py_round, inject_Z. cbn [Qnum Qden].
  rewrite Z.div_1_r, Z.mod_1_r. reflexivity.
Qed.

(** ** Line 84 in binary64 arithmetic *)

Lemma pow2_pos (k : Z) : (0 < pow2 k)%Q.
Proof. apply Qpower_0_lt. reflexivity. Qed.

Lemma pow2_add (a b : Z) : (pow2 (a + b) == pow2 a * pow2 b)%Q.
Proof. apply Qpower_plus. discriminate. Qed.

Lemma pow2_Z (k : Z) : 0 <= k -> (pow2 k == inject_Z (2 ^ k))%Q.
Proof. intros Hk. unfold pow2. rewrite Zpower_Qpower by exact Hk. reflexivity. Qed.

Lemma pow2_opp (j : Z) : 0 <= j -> (pow2 (- j) == / inject_Z (2 ^ j))%Q.
Proof.
  intros Hj. unfold pow2. rewrite Qpower_opp, Zpower_Qpower by exact Hj.
  reflexivity.
Qed.

Lemma pow2_lt (a b : Z) : a < b -> (pow2 a < pow2 b)%Q.
Proof. intros H. apply Qpower_lt_compat_l; [exact H|reflexivity]. Qed.

Lemma pow2_le (a b : Z) : a <= b -> (pow2 a <= pow2 b)%Q.
Proof. intros H. apply Qpower_le_compat_l; [exact H|discriminate]. Qed.

Lemma pow2_lt_inv (a b : Z) : (pow2 a < pow2 b)%Q -> a < b.
Proof. intros H. apply (Qpower_lt_compat_l_inv 2); [exact H|reflexivity]. Qed.

Lemma pow2_succ (a : Z) : (pow2 (a + 1) == 2 * pow2 a)%Q.
Proof. rewrite pow2_add. change (pow2 1) with (2 ^ 1)%Q. rewrite Qpower_1_r. ring. Qed.

Lemma Qdiv_lt_cross (a b c d : Q) :
  (0 < b)%Q -> (0 < d)%Q -> (a * d < c * b)%Q -> (a / b < c / d)%Q.
Proof.
  intros Hb Hd H. apply Qlt_shift_div_r; [exact Hb|].
  assert (E : (c / d * b == c * b / d)%Q)
    by (field; intros E; rewrite E in Hd; discriminate Hd).
  rewrite E.
  apply Qlt_shift_div_l; [exact Hd|exact H].
Qed.

Lemma Qdiv_le_cross (a b c d : Q) :
  (0 < b)%Q -> (0 < d)%Q -> (a * d <= c * b)%Q -> (a / b <= c / d)%Q.
Proof.
  intros Hb Hd H. apply Qle_shift_div_r; [exact Hb|].
  assert (E : (c / d * b == c * b / d)%Q)
    by (field; intros E; rewrite E in Hd; discriminate Hd).
  rewrite E.
  apply Qle_shift_div_l; [exact Hd|exact H].
Qed.

(** [ilog2 x] is the integer part of the binary logarithm. *)
Lemma ilog2_spec (x : Q) :
  (0 < x)%Q -> (pow2 (ilog2 x) <= x)%Q /\ (x < pow2 (ilog2 x + 1))%Q.
Proof.
  intros Hx. destruct x as [a b].
  assert (Ha : 0 < a) by (unfold Qlt in Hx; cbn in Hx; lia).
  unfold ilog2. cbn [Qnum Qden].
  set (la := Z.log2 a). set (lb := Z.log2 (Z.pos b)).
  pose proof (Z.log2_nonneg a) as Hla0. fold la in Hla0.
  pose proof (Z.log2_nonneg (Z.pos b)) as Hlb0. fold lb in Hlb0.
  destruct (Z.log2_spec a Ha) as [Ha1 Ha2]. fold la in Ha1, Ha2.
  destruct (Z.log2_spec (Z.pos b) ltac:(lia)) as [Hb1 Hb2]. fold lb in Hb1, Hb2.
  assert (HA1 : (pow2 la <= inject_Z a)%Q).
  { rewrite pow2_Z by exact Hla0. rewrite <- Zle_Qle. exact Ha1. }
  assert (HA2 : (inject_Z a < 2 * pow2 la)%Q).
  { rewrite <- pow2_succ, pow2_Z by lia. rewrite <- Zlt_Qlt.
    unfold Z.succ in Ha2. exact Ha2. }
  assert (HB1 : (pow2 lb <= inject_Z (Z.pos b))%Q).
  { rewrite pow2_Z by exact Hlb0. rewrite <- Zle_Qle. exact Hb1. }
  assert (HB2 : (inject_Z (Z.pos b) < 2 * pow2 lb)%Q).
  { rewrite <- pow2_succ, pow2_Z by lia. rewrite <- Zlt_Qlt.
    unfold Z.succ in Hb2. exact Hb2. }
  pose proof (pow2_pos la) as HPA. pose proof (pow2_pos lb) as HPB.
  assert (HB : (0 < inject_Z (Z.pos b))%Q) by reflexivity.
  assert (Hx' : (a # b == inject_Z a / inject_Z (Z.pos b))%Q)
    by apply Qmake_Qdiv.
  assert (Hd : forall c, (pow2 (la - lb + c) == pow2 la * pow2 c / pow2 lb)%Q).
  { intros c. replace (la - lb + c) with (la + c + - lb) by lia.
    rewrite !pow2_add. unfold pow2 at 3. rewrite Qpower_opp. fold (pow2 lb).
    field. intros E. rewrite E in HPB. discriminate HPB. }
  assert (Hup : (a # b < pow2 (la - lb + 1))%Q).
  { rewrite Hx', Hd. change (pow2 1) with (2 ^ 1)%Q. rewrite Qpower_1_r.
    apply Qdiv_lt_cross; [exact HB|exact HPB|].
    apply Qle_lt_trans with (inject_Z a * inject_Z (Z.pos b))%Q.
    - apply Qmult_le_l; [|exact HB1].
      unfold Qlt, inject_Z; cbn. lia.
    - apply Qmult_lt_compat_r; [exact HB|].
      rewrite (Qmult_comm (pow2 la)). exact HA2. }
  assert (Hlow : (pow2 (la - lb - 1) <= a # b)%Q).
  { replace (la - lb - 1) with (la - lb + -1) by lia.
    rewrite Hx', Hd. change (pow2 (-1)) with (1 # 2)%Q.
    apply Qdiv_le_cross; [exact HPB|exact HB|].
    apply Qle_trans with (pow2 la * pow2 lb)%Q.
    - rewrite <- !Qmult_assoc. apply Qmult_le_l; [exact HPA|].
      apply Qle_trans with ((1 # 2) * (2 * pow2 lb))%Q;
        [|apply Qle_lteq; right; ring].
      apply Qmult_le_l; [reflexivity|]. apply Qlt_le_weak. exact HB2.
    - apply Qmult_le_compat_r; [exact HA1|apply Qlt_le_weak, HPB]. }
  destruct (Qle_bool (pow2 (la - lb)) (a # b)) eqn:E.
  - apply Qle_bool_iff in E. split; [exact E|exact Hup].
  - split; [exact Hlow|].
    replace (la - lb - 1 + 1) with (la - lb) by lia.
    apply Qnot_le_lt. intros H. apply Qle_bool_iff in H. congruence.
Qed.


(** The integer within less than a half of [x] is [round(x)]. *)
Lemma py_round_unique (x : Q) (n : Z) :
  (Qabs (x - inject_Z n) < 1 # 2)%Q -> py_round x = n.
Proof.
  intros H. apply Qabs_Qlt_condition in H. destruct H as [H1 H2].
  destruct (py_round_bounds x) as [B1 B2].
  destruct (Z_lt_le_dec (py_round x) n) as [Hlt|Hge].
  - exfalso.
    pose proof (inject_Z_succ_le n (py_round x) ltac:(lia)) as Hab. lra.
  - destruct (Z_lt_le_dec n (py_round x)) as [Hlt|Hle]; [|lia].
    exfalso.
    pose proof (inject_Z_succ_le (py_round x) n ltac:(lia)) as Hab. lra.
Qed.

(** Rounding a quotient of integers, in integers. *)
Lemma py_round_frac (N s : Z) :
  0 < s ->
  2 * Z.abs (N - py_round (inject_Z N / inject_Z s) * s) <= s.
Proof.
  intros Hs.
  assert (E : (inject_Z N / inject_Z s == N # Z.to_pos s)%Q).
  { rewrite Qmake_Qdiv, Z2Pos.id by exact Hs. reflexivity. }
  rewrite (py_round_wd _ _ E).
  pose proof (py_round_half (N # Z.to_pos s)) as H. cbn [Qnum Qden] in H.
  rewrite Z2Pos.id in H by exact Hs. exact H.
Qed.

(** A quotient that is rounded to a multiple of a power of two that the
    numerator shares, and that is larger than half the divisor, is that
    multiple. *)
Lemma exact_on_shared_grid (N s M T H : Z) :
  0 < s -> 0 < T -> (T | N) -> (T | H) -> (H | M) -> s < 2 * T ->
  2 * Z.abs (N - M * s) <= s -> N = M * s.
Proof.
  intros Hs HT [a ->] [c ->] [b ->] HsT Hb.
  assert (E : a * T - b * (c * T) * s = T * (a - b * c * s)) by ring.
  rewrite E in Hb.
  assert (Hz : a - b * c * s = 0) by nia.
  nia.
Qed.

Lemma inject_Z_pos (z : Z) : 0 < z -> (0 < inject_Z z)%Q.
Proof. intros H. unfold Qlt, inject_Z; cbn. lia. Qed.

Lemma pow2_Z_pos (j : Z) : 0 <= j -> 0 < 2 ^ j.
Proof. intros H. apply Z.pow_pos_nonneg; lia. Qed.

(** What the rounding of a positive [x] is made of. *)
Lemma round_binary64_pos (x : Q) :
  (0 < x)%Q ->
  round_binary64 x
  = (inject_Z (py_round (x / pow2 (Z.max (ilog2 (Qabs x) - 52) (-1074))))
     * pow2 (Z.max (ilog2 (Qabs x) - 52) (-1074)))%Q.
Proof.
  intros Hx. unfold round_binary64, ulp_exp.
  destruct (Qeq_bool x 0) eqn:E; [|reflexivity].
  apply Qeq_bool_iff in E. rewrite E in Hx. discriminate Hx.
Qed.

Lemma ilog2_bounds (x : Q) :
  (0 < x)%Q ->
  (pow2 (ilog2 (Qabs x)) <= x)%Q /\ (x < pow2 (ilog2 (Qabs x) + 1))%Q.
Proof.
  intros Hx.
  assert (E : (Qabs x == x)%Q) by (apply Qabs_pos, Qlt_le_weak, Hx).
  destruct (ilog2_spec (Qabs x)) as [H1 H2]; [rewrite E; exact Hx|].
  set (e := ilog2 (Qabs x)) in *. rewrite E in H1, H2. split; assumption.
Qed.

(** Below [2 ** 52], rounding the quotient of a binary64 number by a
    positive integer to binary64 does not change the integer it rounds
    to. *)
Lemma round_of_rounded_quotient (p : Q) (s : Z) :
  (0 < p)%Q -> (p < pow2 52)%Q -> (round_binary64 p == p)%Q -> 0 < s ->
  py_round (round_binary64 (p / inject_Z s)) = py_round (p / inject_Z s).
Proof.
  intros Hp Hp52 Hrep Hs.
  pose proof (inject_Z_pos s Hs) as HS.
  assert (HS1 : (1 <= inject_Z s)%Q).
  { change 1%Q with (inject_Z 1). rewrite <- Zle_Qle. lia. }
  assert (HSn : ~ (inject_Z s == 0)%Q) by lra.
  set (x := (p / inject_Z s)%Q).
  assert (Hxs : (x * inject_Z s == p)%Q) by (unfold x; field; exact HSn).
  assert (Hx : (0 < x)%Q).
  { unfold x. apply Qlt_shift_div_l; [exact HS|]. lra. }
  assert (Hxp : (x <= p)%Q).
  { rewrite <- Hxs. rewrite <- (Qmult_1_r x) at 1.
    apply Qmult_le_l; [exact Hx|exact HS1]. }
  rewrite (round_binary64_pos x Hx).
  rewrite (round_binary64_pos p Hp) in Hrep.
  destruct (ilog2_bounds x Hx) as [Hx1 Hx2].
  destruct (ilog2_bounds p Hp) as [Hp1 Hp2].
  set (e := ilog2 (Qabs x)) in *. set (ep := ilog2 (Qabs p)) in *.
  assert (Hee : e <= ep).
  { assert (e < ep + 1); [|lia]. apply pow2_lt_inv. lra. }
  assert (Hep : ep <= 51).
  { assert (ep < 52); [|lia]. apply pow2_lt_inv. lra. }
  assert (Hhalf : (pow2 (-1) == 1 # 2)%Q) by reflexivity.
  destruct (Z_lt_le_dec (e - 52) (-1074)) as [Hclamp|Hfree].
  - (* the quotient is subnormal: both round to 0 *)
    rewrite Z.max_r by lia.
    set (M := py_round (x / pow2 (-1074))).
    assert (Hxsmall : (x < pow2 (-1022))%Q).
    { apply Qlt_le_trans with (pow2 (e + 1)); [exact Hx2|].
      apply pow2_le. lia. }
    assert (Hsmall : (pow2 (-1022) < 1 # 2)%Q).
    { rewrite <- Hhalf. apply pow2_lt. lia. }
    assert (HX0 : (0 <= x / pow2 (-1074))%Q).
    { apply Qle_shift_div_l; [apply pow2_pos|]. lra. }
    assert (HX1 : (x / pow2 (-1074) <= inject_Z (2 ^ 52))%Q).
    { apply Qle_shift_div_r; [apply pow2_pos|].
      rewrite <- pow2_Z by lia. rewrite <- pow2_add.
      change (52 + -1074) with (-1022). lra. }
    assert (HM0 : 0 <= M).
    { change 0 with (py_round 0). apply py_round_monotone. exact HX0. }
    assert (HM1 : M <= 2 ^ 52).
    { rewrite <- (py_round_integer (2 ^ 52) (inject_Z (2 ^ 52)))
        by reflexivity.
      apply py_round_monotone. exact HX1. }
    assert (Hy0 : (0 <= inject_Z M * pow2 (-1074))%Q).
    { apply Qmult_le_0_compat; [|apply Qlt_le_weak, pow2_pos].
      change 0%Q with (inject_Z 0). rewrite <- Zle_Qle. exact HM0. }
    assert (Hy1 : (inject_Z M * pow2 (-1074) <= pow2 (-1022))%Q).
    { change (-1022) with (52 + -1074). rewrite pow2_add.
      apply Qmult_le_compat_r; [|apply Qlt_le_weak, pow2_pos].
      rewrite pow2_Z by lia. rewrite <- Zle_Qle. exact HM1. }
    rewrite (py_round_unique x 0), (py_round_unique _ 0); [reflexivity| |].
    + apply Qabs_Qlt_condition. change (inject_Z 0) with 0%Q. split; lra.
    + apply Qabs_Qlt_condition. change (inject_Z 0) with 0%Q. split; lra.
  - (* the quotient is normal *)
    rewrite Z.max_l by lia.
    rewrite Z.max_l in Hrep by lia.
    set (j := 52 - e). set (jp := 52 - ep).
    assert (Hj : 1 <= j) by (unfold j; lia).
    assert (Hjp : 1 <= jp <= j) by (unfold j, jp; lia).
    replace (e - 52) with (- j) by (unfold j; lia).
    replace (ep - 52) with (- jp) in Hrep by (unfold jp; lia).
    pose proof (pow2_opp j ltac:(lia)) as Ej.
    pose proof (pow2_opp jp ltac:(lia)) as Ejp.
    pose proof (pow2_Z_pos j ltac:(lia)) as HJ.
    pose proof (pow2_Z_pos jp ltac:(lia)) as HJp.
    pose proof (inject_Z_pos _ HJ) as HJq.
    pose proof (inject_Z_pos _ HJp) as HJpq.
    assert (HJn : ~ (inject_Z (2 ^ j) == 0)%Q) by lra.
    assert (HJpn : ~ (inject_Z (2 ^ jp) == 0)%Q) by lra.
    assert (EX : (x / pow2 (- j) == x * inject_Z (2 ^ j))%Q).
    { rewrite Ej. field. exact HJn. }
    rewrite (py_round_wd _ _ EX).
    set (M := py_round (x * inject_Z (2 ^ j))).
    assert (Ey : (inject_Z M * pow2 (- j) == inject_Z M / inject_Z (2 ^ j))%Q).
    { rewrite Ej. reflexivity. }
    rewrite (py_round_wd _ _ Ey).
    set (H := 2 ^ (j - 1)).
    assert (HH : 0 < H) by (apply pow2_Z_pos; lia).
    assert (EJH : 2 ^ j = 2 * H).
    { unfold H. replace j with (1 + (j - 1)) at 1 by lia.
      rewrite Z.pow_add_r by lia. reflexivity. }
    destruct (Z.eq_dec (M mod H) 0) as [Hdiv|Hndiv];
      [apply Z.mod_divide in Hdiv; [|lia]
      |rewrite Z.mod_divide in Hndiv by lia].
    + (* the rounded quotient is a multiple of a half: it is exact *)
      set (t := j - jp).
      assert (Ht : 0 <= t) by (unfold t; lia).
      pose proof (pow2_Z_pos t Ht) as HT.
      assert (EJt : 2 ^ j = 2 ^ jp * 2 ^ t).
      { replace j with (jp + t) by (unfold t; lia).
        apply Z.pow_add_r; lia. }
      set (mp := py_round (p / pow2 (- jp))) in *.
      assert (EXN : (x * inject_Z (2 ^ j)
                     == inject_Z (mp * 2 ^ t) / inject_Z s)%Q).
      { unfold x. rewrite <- Hrep, Ejp, EJt, !inject_Z_mult.
        field. split; [exact HSn|exact HJpn]. }
      assert (HsT : s < 2 * 2 ^ t).
      { assert (Hq : (inject_Z s < inject_Z (2 * 2 ^ t))%Q);
          [|rewrite <- Zlt_Qlt in Hq; exact Hq].
        replace (2 * 2 ^ t) with (2 ^ (t + 1))
          by (rewrite Z.pow_add_r by lia; lia).
        rewrite <- pow2_Z by lia.
        assert (Hq : (inject_Z s * pow2 e < pow2 (t + 1) * pow2 e)%Q).
        { rewrite <- pow2_add. replace (t + 1 + e) with (ep + 1)
            by (unfold t, j, jp; lia).
          apply Qle_lt_trans with p; [|exact Hp2].
          rewrite <- Hxs, (Qmult_comm x).
          apply Qmult_le_l; [exact HS|exact Hx1]. }
        apply Qmult_lt_r in Hq; [exact Hq|apply pow2_pos]. }
      assert (HMN : M = py_round (inject_Z (mp * 2 ^ t) / inject_Z s)).
      { unfold M. apply py_round_wd. exact EXN. }
      pose proof (py_round_frac (mp * 2 ^ t) s Hs) as Hfrac.
      rewrite <- HMN in Hfrac.
      assert (Hexact : mp * 2 ^ t = M * s).
      { apply (exact_on_shared_grid _ s M (2 ^ t) H); try assumption.
        - exists mp. reflexivity.
        - exists (2 ^ (jp - 1)). unfold H.
          replace (j - 1) with (jp - 1 + t) by (unfold t; lia).
          apply Z.pow_add_r; lia. }
      apply py_round_wd.
      assert (EM : (inject_Z M == x * inject_Z (2 ^ j))%Q).
      { rewrite EXN, Hexact, inject_Z_mult. field. exact HSn. }
      rewrite EM. field. exact HJn.
    + (* otherwise it stays clear of the halves *)
      set (n := py_round (inject_Z M / inject_Z (2 ^ j))).
      pose proof (py_round_frac M (2 ^ j) HJ) as Hn. fold n in Hn.
      assert (Hn' : Z.abs (M - n * (2 * H)) <= H - 1).
      { rewrite EJH in Hn.
        destruct (Z.eq_dec (Z.abs (M - n * (2 * H))) H) as [E|E]; [|lia].
        exfalso. apply Hndiv.
        destruct (Z.abs_spec (M - n * (2 * H))) as [[_ E']|[_ E']];
          rewrite E' in E.
        - exists (2 * n + 1). lia.
        - exists (2 * n - 1). lia. }
      pose proof (py_round_bounds (x * inject_Z (2 ^ j))) as [HXl HXu].
      fold M in HXl, HXu.
      symmetry. apply py_round_unique. apply Qabs_Qlt_condition.
      assert (EJq : (inject_Z (2 ^ j) == 2 * inject_Z H)%Q).
      { rewrite EJH, inject_Z_mult. reflexivity. }
      assert (HHq : (1 <= inject_Z H)%Q).
      { change 1%Q with (inject_Z 1). rewrite <- Zle_Qle. lia. }
      assert (HMu : (inject_Z M + 1
                     <= inject_Z n * inject_Z (2 ^ j) + inject_Z H)%Q).
      { rewrite EJH. change 1%Q with (inject_Z 1).
        rewrite <- inject_Z_mult, <- !inject_Z_plus.
        rewrite <- Zle_Qle. lia. }
      assert (HMl : (inject_Z n * inject_Z (2 ^ j) + 1
                     <= inject_Z M + inject_Z H)%Q).
      { rewrite EJH. change 1%Q with (inject_Z 1).
        rewrite <- inject_Z_mult, <- !inject_Z_plus.
        rewrite <- Zle_Qle. lia. }
      set (P := (inject_Z n * inject_Z (2 ^ j))%Q) in *.
      set (X := (x * inject_Z (2 ^ j))%Q) in *.
      assert (Hxn : (x - inject_Z n == (X - P) / inject_Z (2 ^ j))%Q).
      { unfold X, P. field. exact HJn. }
      rewrite Hxn. split.
      * apply Qlt_shift_div_l; [exact HJq|]. lra.
      * apply Qlt_shift_div_r; [exact HJq|]. lra.
Qed.

(** The binade of a positive rational is unique. *)
Lemma ilog2_unique (x : Q) (e : Z) :
  (pow2 e <= x)%Q -> (x < pow2 (e + 1))%Q -> ilog2 x = e.
Proof.
  intros H1 H2.
  assert (Hx : (0 < x)%Q).
  { apply Qlt_le_trans with (pow2 e); [apply pow2_pos|exact H1]. }
  destruct (ilog2_spec x Hx) as [G1 G2].
  assert (e < ilog2 x + 1) by (apply pow2_lt_inv; lra).
  assert (ilog2 x < e + 1) by (apply pow2_lt_inv; lra).
  lia.
Qed.

Lemma ilog2_wd (x y : Q) : (x == y)%Q -> (0 < x)%Q -> ilog2 x = ilog2 y.
Proof.
  intros E Hx.
  destruct (ilog2_spec y) as [G1 G2]; [rewrite <- E; exact Hx|].
  apply ilog2_unique; rewrite E; assumption.
Qed.

(** The rounding does not depend on how the rational is written. *)
Lemma round_binary64_wd (x y : Q) :
  (x == y)%Q -> (round_binary64 x == round_binary64 y)%Q.
Proof.
  intros E. unfold round_binary64.
  destruct (Qeq_bool x 0) eqn:Ex.
  - apply Qeq_bool_iff in Ex. rewrite E in Ex.
    apply Qeq_bool_iff in Ex. rewrite Ex. reflexivity.
  - assert (Ey : Qeq_bool y 0 = false).
    { apply not_true_is_false. intros H. apply Qeq_bool_iff in H.
      rewrite <- E in H. apply Qeq_bool_iff in H. congruence. }
    rewrite Ey.
    assert (Hx : ~ (x == 0)%Q).
    { intros H. apply Qeq_bool_iff in H. congruence. }
    assert (Ha : (0 < Qabs x)%Q).
    { destruct (Qlt_le_dec 0 x) as [H|H].
      - rewrite Qabs_pos by lra. exact H.
      - rewrite Qabs_neg by exact H.
        apply Qle_lteq in H. destruct H as [H|H]; [lra|contradiction]. }
    assert (Eu : ulp_exp x = ulp_exp y).
    { unfold ulp_exp. rewrite (ilog2_wd (Qabs x) (Qabs y)); [reflexivity| |exact Ha].
      rewrite E. reflexivity. }
    rewrite <- Eu.
    rewrite (py_round_wd (x / pow2 (ulp_exp x)) (y / pow2 (ulp_exp x)));
      [reflexivity|].
    generalize (pow2 (ulp_exp x)). intros c. rewrite E. reflexivity.
Qed.

(** An integer below [2 ** 53] is a binary64 number. *)
Lemma round_binary64_int (z : Z) :
  0 < z < 2 ^ 53 -> (round_binary64 (inject_Z z) == inject_Z z)%Q.
Proof.
  intros [Hz0 Hz1].
  pose proof (inject_Z_pos z Hz0) as Hq.
  rewrite (round_binary64_pos _ Hq).
  destruct (ilog2_bounds _ Hq) as [H1 H2].
  set (e := ilog2 (Qabs (inject_Z z))) in *.
  assert (Hz1' : (inject_Z z < pow2 53)%Q).
  { rewrite pow2_Z by lia. rewrite <- Zlt_Qlt. exact Hz1. }
  assert (Hz0' : (pow2 0 <= inject_Z z)%Q).
  { rewrite pow2_Z by lia. rewrite <- Zle_Qle. change (2 ^ 0) with 1. lia. }
  assert (He0 : 0 < e + 1) by (apply pow2_lt_inv; lra).
  assert (He1 : e < 53) by (apply pow2_lt_inv; lra).
  rewrite Z.max_l by lia.
  set (j := 52 - e). replace (e - 52) with (- j) by (unfold j; lia).
  assert (Hj : 0 <= j) by (unfold j; lia).
  pose proof (pow2_opp j Hj) as Ej.
  pose proof (inject_Z_pos _ (pow2_Z_pos j Hj)) as HJ.
  assert (HJn : ~ (inject_Z (2 ^ j) == 0)%Q) by lra.
  rewrite (py_round_integer (z * 2 ^ j)).
  - rewrite Ej, inject_Z_mult. field. exact HJn.
  - rewrite Ej, inject_Z_mult. field. exact HJn.
Qed.

(** The rounding of a positive number below a power of two is at most that
    power. *)
Lemma round_binary64_below (x : Q) (k : Z) :
  (0 < x)%Q -> (x < pow2 k)%Q -> -1074 <= k ->
  (0 <= round_binary64 x)%Q /\ (round_binary64 x <= pow2 k)%Q.
Proof.
  intros Hx Hk Hk0.
  rewrite (round_binary64_pos _ Hx).
  destruct (ilog2_bounds _ Hx) as [H1 H2].
  set (e := ilog2 (Qabs x)) in *.
  assert (He : e < k) by (apply pow2_lt_inv; lra).
  set (u := Z.max (e - 52) (-1074)).
  assert (Hu : u <= k) by (unfold u; lia).
  pose proof (pow2_pos u) as HU.
  assert (Ek : (pow2 k == inject_Z (2 ^ (k - u)) * pow2 u)%Q).
  { rewrite <- pow2_Z by lia. rewrite <- pow2_add.
    replace (k - u + u) with k by lia. reflexivity. }
  assert (HX0 : (0 <= x / pow2 u)%Q).
  { apply Qle_shift_div_l; [exact HU|]. lra. }
  assert (HX1 : (x / pow2 u <= inject_Z (2 ^ (k - u)))%Q).
  { apply Qle_shift_div_r; [exact HU|]. rewrite <- Ek. lra. }
  assert (HM0 : 0 <= py_round (x / pow2 u)).
  { change 0 with (py_round 0). apply py_round_monotone. exact HX0. }
  assert (HM1 : py_round (x / pow2 u) <= 2 ^ (k - u)).
  { rewrite <- (py_round_integer (2 ^ (k - u)) (inject_Z (2 ^ (k - u))))
      by reflexivity.
    apply py_round_monotone. exact HX1. }
  split.
  - apply Qmult_le_0_compat; [|lra].
    change 0%Q with (inject_Z 0). rewrite <- Zle_Qle. exact HM0.
  - rewrite Ek. apply Qmult_le_compat_r; [|lra].
    rewrite <- Zle_Qle. exact HM1.
Qed.

(** No overflow below [2 ** 1023]. *)
Lemma to_float_in_range (x : Q) :
  (0 < x)%Q -> (x < pow2 1023)%Q -> to_float x = Ok (round_binary64 x).
Proof.
  intros Hx Hk. unfold to_float.
  destruct (round_binary64_below x 1023 Hx Hk ltac:(lia)) as [H0 H1].
  destruct (Qle_bool (pow2 1024) (Qabs (round_binary64 x))) eqn:E;
    [|reflexivity].
  exfalso. apply Qle_bool_iff in E. rewrite Qabs_pos in E by exact H0.
  pose proof (pow2_lt 1023 1024 ltac:(lia)). lra.
Qed.

(** What the values of this program are made of: a [float] is a finite
    binary64 number. *)
Lemma is_binary64_fixed (p : Q) :
  is_binary64 p = true -> (round_binary64 p == p)%Q.
Proof.
  unfold is_binary64. intros H. apply andb_prop in H. destruct H as [H _].
  apply Qeq_bool_iff. exact H.
Qed.

(** In range, line 84 in binary64 arithmetic computes the strike of the exact
    quotient. *)
Lemma atm_of_binary64_in_range (spot : pyval) (p : Q) (s : Z) :
  num_val spot = Some p -> float_ok spot = true ->
  (0 < p)%Q -> (p < pow2 52)%Q -> 0 < s < 2 ^ 53 ->
  atm_of_binary64 spot s = Ok (atm_strike p s).
Proof.
  intros Hspot Hok Hp Hp52 [Hs0 Hs1].
  pose proof (inject_Z_pos s Hs0) as HS.
  assert (HS1 : (1 <= inject_Z s)%Q).
  { change 1%Q with (inject_Z 1). rewrite <- Zle_Qle. lia. }
  assert (HSn : ~ (inject_Z s == 0)%Q) by lra.
  assert (Hx : (0 < p / inject_Z s)%Q).
  { apply Qlt_shift_div_l; [exact HS|]. lra. }
  assert (Hxp : (p / inject_Z s <= p)%Q).
  { apply Qle_shift_div_r; [exact HS|].
    rewrite <- (Qmult_1_r p) at 1. apply Qmult_le_l; [exact Hp|exact HS1]. }
  assert (H52 : (pow2 52 < pow2 1023)%Q) by (apply pow2_lt; lia).
  assert (Hint : forall z : Z, p = inject_Z z ->
            atm_of_binary64 (PInt z) s = Ok (atm_strike p s)).
  { intros z ->. unfold atm_of_binary64, truediv_binary64, num_val.
    destruct (Z.eqb_spec s 0) as [E|_]; [lia|].
    rewrite to_float_in_range by lra. cbn [obind].
    unfold atm_strike. do 2 f_equal.
    apply round_of_rounded_quotient; try assumption.
    apply round_binary64_int. split.
    - unfold Qlt, inject_Z in Hp; cbn in Hp. lia.
    - rewrite pow2_Z in Hp52 by lia. rewrite <- Zlt_Qlt in Hp52.
      assert (2 ^ 52 < 2 ^ 53) by (apply Z.pow_lt_mono_r; lia). lia. }
  destruct spot as [| b | z | q | | |]; try discriminate Hspot.
  - (* bool *)
    cbn [num_val] in Hspot. injection Hspot as <-.
    destruct b; [|discriminate Hp].
    exact (Hint 1 eq_refl).
  - (* int *)
    cbn [num_val] in Hspot. injection Hspot as <-. exact (Hint z eq_refl).
  - (* float *)
    cbn [num_val] in Hspot. injection Hspot as ->.
    cbn [float_ok] in Hok. apply is_binary64_fixed in Hok.
    unfold atm_of_binary64, truediv_binary64.
    assert (Hs53 : (inject_Z s < pow2 1023)%Q).
    { apply Qlt_trans with (pow2 53); [|apply pow2_lt; lia].
      rewrite pow2_Z by lia. rewrite <- Zlt_Qlt. exact Hs1. }
    rewrite (to_float_in_range _ HS Hs53). cbn [obind].
    pose proof (round_binary64_int s (conj Hs0 Hs1)) as Eb.
    set (b := round_binary64 (inject_Z s)) in *.
    assert (Eb0 : Qeq_bool b 0 = false).
    { apply not_true_is_false. intros H. apply Qeq_bool_iff in H.
      rewrite Eb in H. contradiction. }
    rewrite Eb0.
    assert (Eq : (p / b == p / inject_Z s)%Q) by (rewrite Eb; reflexivity).
    rewrite to_float_in_range by (rewrite Eq; lra). cbn [obind].
    unfold atm_strike. do 2 f_equal.
    rewrite (py_round_wd _ _ (round_binary64_wd _ _ Eq)).
    apply round_of_rounded_quotient; assumption.
Qed.

(** C3. For a spot [p] with [0 < p < 2 ** 52], an [int] or a binary64
    [float], and a step [0 < s < 2 ** 53], line 84, with its division
    rounded to binary64, yields the strike [round(p / s) * s] of the exact
    quotient, which is also what the model of [collect] yields. That strike
    is a multiple of [s]; no multiple of [s] is strictly closer to [p]; and
    when another multiple is as close, the computed one is the even
    multiple. The steps are 50, 100 and 100, and a spot of 24821 with step
    50 gives 24800. *)
Theorem atm_strike_nearest_multiple_in_range (spot : pyval) (p : Q) (s : Z) :
  num_val spot = Some p -> float_ok spot = true ->
  (0 < p)%Q -> (p < pow2 52)%Q -> 0 < s < 2 ^ 53 ->
  atm_of_binary64 spot s = Ok (atm_strike p s) /\
  atm_of spot s = Ok (atm_strike p s) /\
  (s | atm_strike p s)%Z /\
  (forall k : Z,
     (Qabs (p - inject_Z (atm_strike p s)) <= Qabs (p - inject_Z (k * s)))%Q) /\
  (forall k : Z,
     k * s <> atm_strike p s ->
     (Qabs (p - inject_Z (atm_strike p s)) == Qabs (p - inject_Z (k * s)))%Q ->
     Z.even (atm_strike p s / s) = true) /\
  (STEP NIFTY = 50 /\ STEP SENSEX = 100 /\ STEP BANKNIFTY = 100) /\
  atm_of_binary64 (PInt 24821) (STEP NIFTY) = Ok 24800.
Proof.
  intros Hspot Hok Hp Hp52 Hs.
  destruct (atm_strike_exact_quotient spot p s Hspot Hp (proj1 Hs))
    as (H1 & H2 & H3 & H4 & H5 & _).
  split; [apply atm_of_binary64_in_range; assumption|].
  split; [exact H1|]. split; [exact H2|]. split; [exact H3|].
  split; [exact H4|]. split; [exact H5|].
  vm_compute. reflexivity.
Qed.

(** A NIFTY spot of 24821.5. *)
Lemma atm_strike_nearest_multiple_in_range_witness :
  atm_of_binary64 (PFloat (248215 # 10)) 50 = Ok 24800 /\ (50 | 24800)%Z.
Proof.
  destruct (atm_strike_nearest_multiple_in_range
              (PFloat (248215 # 10)) (248215 # 10) 50)
    as (H1 & _ & H2 & _).
  - reflexivity.
  - vm_compute. reflexivity.
  - reflexivity.
  - vm_compute. reflexivity.
  - lia.
  - split; [exact H1|exact H2].
Defined.

(** C3, as stated, fails for large spots. The [int] spot
    450359962737049650 is itself a multiple of 50, yet its quotient by 50,
    [2 ** 53 + 1], is not a binary64 number: it is rounded to [2 ** 53] and
    the strike is 50 below the spot. The [float] spot 480000000000000064.0
    gets the strike 480000000000000100, 36 above it, although
    480000000000000050 is only 14 below. *)
Lemma atm_strike_large_spot_counterexample :
  atm_of_binary64 (PInt 450359962737049650) (STEP NIFTY)
  = Ok 450359962737049600 /\
  (STEP NIFTY | 450359962737049650)%Z /\
  (Qabs (inject_Z 450359962737049650
         - inject_Z (9007199254740993 * STEP NIFTY))
   < Qabs (inject_Z 450359962737049650 - inject_Z 450359962737049600))%Q /\
  float_ok (PFloat (inject_Z 480000000000000064)) = true /\
  atm_of_binary64 (PFloat (inject_Z 480000000000000064)) (STEP NIFTY)
  = Ok 480000000000000100 /\
  (Qabs (inject_Z 480000000000000064
         - inject_Z (9600000000000001 * STEP NIFTY))
   < Qabs (inject_Z 480000000000000064 - inject_Z 480000000000000100))%Q.
Proof.
  split; [vm_compute; reflexivity|].
  split; [exists 9007199254740993; reflexivity|].
  split; [vm_compute; reflexivity|].
  split; [vm_compute; reflexivity|].
  split; [vm_compute; reflexivity|].
  vm_compute; reflexivity.
Qed.

(** X8. For a spot [p] with [0 < p < 2 ** 52], an [int] or a binary64
    [float], and a step [0 < s < 2 ** 53], the strike that line 84 computes
    in binary64 arithmetic is within half a step of the spot. *)
Theorem atm_strike_within_half_step (spot : pyval) (p : Q) (s : Z) :
  num_val spot = Some p -> float_ok spot = true ->
  (0 < p)%Q -> (p < pow2 52)%Q -> 0 < s < 2 ^ 53 ->
  exists atm : Z,
    atm_of_binary64 spot s = Ok atm /\
    (Qabs (p - inject_Z atm) <= inject_Z s / 2)%Q.
Proof.
  intros Hspot Hok Hp Hp52 Hs.
  exists (atm_strike p s).
  split; [apply atm_of_binary64_in_range; assumption|].
  unfold atm_strike. rewrite step_scaling by apply Hs.
  assert (Hpos : (0 <= inject_Z s)%Q).
  { unfold Qle, inject_Z; cbn. lia. }
  pose proof (py_round_within_half (p / inject_Z s)) as H.
  apply Qle_trans with ((1 # 2) * inject_Z s)%Q.
  - apply Qmult_le_compat_r; assumption.
  - apply Qle_lteq. right. field.
Qed.

(** X9. The strike never decreases when the spot rises, and it is the same
    for two equal spots however they are written. *)
Theorem atm_strike_monotone (p1 p2 : Q) (s : Z) :
  0 < s ->
  ((p1 <= p2)%Q -> atm_strike p1 s <= atm_strike p2 s) /\
  ((p1 == p2)%Q -> atm_strike p1 s = atm_strike p2 s).
Proof.
  intros Hs.
  assert (Hmono : forall a b : Q,
            (a <= b)%Q -> atm_strike a s <= atm_strike b s).
  { intros a b Hp. unfold atm_strike.
    apply Z.mul_le_mono_nonneg_r; [lia|].
    apply py_round_monotone.
    assert (Hpos : (0 < inject_Z s)%Q).
    { unfold Qlt, inject_Z; cbn. lia. }
    unfold Qdiv. apply Qmult_le_compat_r; [exact Hp|].
    apply Qlt_le_weak, Qinv_lt_0_compat, Hpos. }
  split; [apply Hmono|].
  intros He. apply Z.le_antisymm; apply Hmono; rewrite He; apply Qle_refl.
Qed.

(** X10. For a spot [p] with [0 < p < 2 ** 52], an [int] or a binary64
    [float], and a step [0 < s < 2 ** 53], a spot that is itself a multiple
    of the step is its own strike, as line 84 computes it in binary64
    arithmetic. *)
Theorem atm_strike_fixed_on_multiples (spot : pyval) (p : Q) (s k : Z) :
  num_val spot = Some p -> float_ok spot = true ->
  (0 < p)%Q -> (p < pow2 52)%Q -> 0 < s < 2 ^ 53 ->
  (p == inject_Z (k * s))%Q ->
  atm_of_binary64 spot s = Ok (k * s).
Proof.
  intros Hspot Hok Hp Hp52 Hs Hk.
  rewrite (atm_of_binary64_in_range spot p s) by assumption.
  f_equal. unfold atm_strike. f_equal. apply py_round_integer.
  rewrite Hk, inject_Z_mult. field.
  unfold Qeq, inject_Z; cbn. lia.
Qed.

(** ** The expiry calendar *)

Lemma div4_step (y : Z) :
  y / 4 = (y - 1) / 4 + (if y mod 4 =? 0 then 1 else 0).
Proof. destruct (Z.eqb_spec (y mod 4) 0); Z.div_mod_to_equations; lia. Qed.

Lemma div100_step (y : Z) :
  y / 100 = (y - 1) / 100 + (if y mod 100 =? 0 then 1 else 0).
Proof. destruct (Z.eqb_spec (y mod 100) 0); Z.div_mod_to_equations; lia. Qed.

Lemma div400_step (y : Z) :
  y / 400 = (y - 1) / 400 + (if y mod 400 =? 0 then 1 else 0).
Proof. destruct (Z.eqb_spec (y mod 400) 0); Z.div_mod_to_equations; lia. Qed.

Lemma mod100_mod4 (y : Z) : y mod 100 = 0 -> y mod 4 = 0.
Proof. intros H. Z.div_mod_to_equations. lia. Qed.

Lemma mod400_mod100 (y : Z) : y mod 400 = 0 -> y mod 100 = 0.
Proof. intros H. Z.div_mod_to_equations. lia. Qed.

(** A year has 365 days, and one more when it is a leap year. *)
Lemma isleap_step (y : Z) :
  days_before_year (y + 1)
  = days_before_year y + 365 + (if isleap y then 1 else 0).
Proof.
  unfold days_before_year, isleap. cbv zeta.
  replace (y + 1 - 1) with y by lia.
  rewrite (div4_step y), (div100_step y), (div400_step y).
  destruct (Z.eqb_spec (y mod 4) 0) as [H4|H4];
    destruct (Z.eqb_spec (y mod 100) 0) as [H100|H100];
    destruct (Z.eqb_spec (y mod 400) 0) as [H400|H400];
    cbn [negb andb orb]; try lia; exfalso;
    first [ apply mod100_mod4 in H100; contradiction
          | apply mod400_mod100 in H400; contradiction ].
Qed.

(** The first day of the following month comes right after the last day of
    the month. *)
Lemma next_month_ordinal (y m : Z) :
  1 <= m <= 12 ->
  ymd2ord (if m =? 12 then y + 1 else y) (if m =? 12 then 1 else m + 1) 1
  = ymd2ord y m 1 + days_in_month y m.
Proof.
  intros Hm. unfold ymd2ord.
  destruct (Z.eqb_spec m 12) as [->|Hne].
  - rewrite isleap_step. unfold days_before_month, days_in_month, mdays.
    change (Z.to_nat 1) with 1%nat. change (Z.to_nat 12) with 12%nat.
    change (2 <? 1) with false. change (2 <? 12) with true.
    change (12 =? 2) with false. cbn [nth andb].
    destruct (isleap y); lia.
  - generalize (days_before_year y). intros o.
    unfold days_before_month, days_in_month, mdays.
    assert (Hc : m = 1 \/ m = 2 \/ m = 3 \/ m = 4 \/ m = 5 \/ m = 6 \/ m = 7 \/
                 m = 8 \/ m = 9 \/ m = 10 \/ m = 11) by lia.
    assert (Hgo : forall a b c : Z, a = b + c -> o + a + 1 = o + b + 1 + c)
      by (intros; lia).
    destruct (isleap y);
      repeat (destruct Hc as [->|Hc]; [apply Hgo; vm_compute; reflexivity|]);
      subst; apply Hgo; vm_compute; reflexivity.
Qed.

(** What being the last Thursday of a month says about the day number. *)
Lemma last_thursday_day (y m : Z) (d : date) :
  1 <= m <= 12 -> last_thursday_of y m d ->
  days_in_month y m - 7 < day d <= days_in_month y m /\ 22 <= day d /\
  (ymd2ord y m 1 + (day d - 1) + 6) mod 7 = THURSDAY.
Proof.
  intros Hm (Hy & Hmm & Hd & Ht & Hlast).
  pose proof (days_in_month_range y m Hm) as Hn.
  assert (Hlate : days_in_month y m - 7 < day d).
  { destruct (Z_lt_le_dec (days_in_month y m - 7) (day d)) as [H|H];
      [exact H|exfalso].
    apply (Hlast (day d + 7)); [lia|].
    rewrite weekday_from_first in Ht |- *.
    replace (weekday y m 1 + (day d + 7 - 1))
      with (weekday y m 1 + (day d - 1) + 1 * 7) by lia.
    rewrite Z.mod_add by lia. exact Ht. }
  split; [lia|]. split; [lia|].
  unfold weekday, ymd2ord in Ht |- *. rewrite <- Ht. f_equal. lia.
Qed.

Lemma this_month_expiry_spec (t : date) :
  valid_date t ->
  exists d, this_month_expiry t = Ok d /\
            last_thursday_of (year t) (month t) d.
Proof. intros (Hy & Hm & _). apply expiry_of_month; assumption. Qed.

Lemma next_month_expiry_spec (t : date) :
  valid_date t -> year t < MAXYEAR \/ month t < 12 ->
  exists d, next_month_expiry t = Ok d /\
            last_thursday_of (if month t =? 12 then year t + 1 else year t)
                             (if month t =? 12 then 1 else month t + 1) d.
Proof.
  intros (Hy & Hm & _) Hnext. unfold next_month_expiry.
  destruct (Z.eqb_spec (month t) 12) as [E|E].
  - rewrite E. change (12 mod 12 + 1) with 1.
    apply expiry_of_month; unfold MINYEAR, MAXYEAR in *; lia.
  - replace (month t mod 12 + 1) with (month t + 1)
      by (rewrite Z.mod_small; lia).
    replace (year t + 0) with (year t) by lia.
    apply expiry_of_month; lia.
Qed.

(** X11. The two monthly expiries are four or five weeks apart: the
    next-month expiry falls exactly 28 or 35 days after the this-month
    expiry. *)
Theorem monthly_expiries_four_or_five_weeks_apart (t d1 d2 : date) :
  valid_date t -> year t < MAXYEAR \/ month t < 12 ->
  this_month_expiry t = Ok d1 -> next_month_expiry t = Ok d2 ->
  days_to_expiry d2 d1 = 28 \/ days_to_expiry d2 d1 = 35.
Proof.
  intros Hv Hnext H1 H2.
  destruct (this_month_expiry_spec t Hv) as (d1' & E1 & L1).
  destruct (next_month_expiry_spec t Hv Hnext) as (d2' & E2 & L2).
  rewrite H1 in E1. rewrite H2 in E2.
  inversion E1; inversion E2; subst d1' d2'. clear E1 E2.
  destruct Hv as (Hy & Hm & _).
  set (y' := if month t =? 12 then year t + 1 else year t) in *.
  set (m' := if month t =? 12 then 1 else month t + 1) in *.
  assert (Hm' : 1 <= m' <= 12).
  { unfold m'. destruct (Z.eqb_spec (month t) 12); lia. }
  pose proof (next_month_ordinal (year t) (month t) Hm) as Hord.
  fold y' m' in Hord.
  pose proof (days_in_month_range (year t) (month t) Hm) as Hn1.
  pose proof (days_in_month_range y' m' Hm') as Hn2.
  destruct (last_thursday_day _ _ _ Hm L1) as (Hd1 & _ & Ht1).
  destruct (last_thursday_day _ _ _ Hm' L2) as (Hd2 & _ & Ht2).
  destruct L1 as (Ey1 & Em1 & _). destruct L2 as (Ey2 & Em2 & _).
  unfold days_to_expiry, toordinal. rewrite Ey1, Em1, Ey2, Em2.
  assert (Eo1 : ymd2ord (year t) (month t) (day d1)
                = ymd2ord (year t) (month t) 1 + (day d1 - 1)).
  { unfold ymd2ord. lia. }
  assert (Eo2 : ymd2ord y' m' (day d2) = ymd2ord y' m' 1 + (day d2 - 1)).
  { unfold ymd2ord. lia. }
  rewrite Eo1, Eo2, Hord. unfold THURSDAY in *.
  rewrite Hord in Ht2.
  set (o := ymd2ord (year t) (month t) 1) in *.
  set (n1 := days_in_month (year t) (month t)) in *.
  set (n2 := days_in_month y' m') in *.
  Z.div_mod_to_equations. lia.
Qed.

(** X12. The this-month expiry is computed from the year and month of today
    alone: it lies on or after the 22nd, and once today is past it the
    function keeps returning that past date, with a negative number of days
    to expiry. *)
Theorem this_month_expiry_may_be_past (t : date) :
  valid_date t ->
  exists d,
    this_month_expiry t = Ok d /\
    22 <= day d <= days_in_month (year t) (month t) /\
    days_to_expiry d t = day d - day t /\
    (day d < day t -> days_to_expiry d t < 0).
Proof.
  intros Hv. destruct (this_month_expiry_spec t Hv) as (d & E & L).
  destruct Hv as (Hy & Hm & Hd).
  destruct (last_thursday_day _ _ _ Hm L) as (Hd1 & H22 & _).
  destruct L as (Ey & Em & _).
  exists d. split; [exact E|]. split; [lia|].
  assert (Hdte : days_to_expiry d t = day d - day t).
  { unfold days_to_expiry, toordinal, ymd2ord. rewrite Ey, Em. lia. }
  split; [exact Hdte|]. intros Hlt. rewrite Hdte. lia.
Qed.

(** ** Contract resolution and expiry buckets *)

Lemma find_filter_sound {A} (f g : A -> bool) (l : list A) (x : A) :
  find g (List.filter f l) = Some x -> In x l /\ f x = true /\ g x = true.
Proof.
  intros H. apply find_some in H. destruct H as [Hin Hg].
  apply filter_In in Hin. destruct Hin as [Hin Hf]. repeat split; assumption.
Qed.

Lemma find_filter_complete {A} (f g : A -> bool) (l : list A) (x : A) :
  In x l -> f x = true -> g x = true ->
  exists y, find g (List.filter f l) = Some y.
Proof.
  intros Hin Hf Hg.
  destruct (find g (List.filter f l)) as [y|] eqn:E; [exists y; reflexivity|].
  exfalso. eapply find_none in E; [|apply filter_In; split; eassumption].
  congruence.
Qed.

Lemma resolves_iff (idx : index) (atm : Z) (exp : date) (ty : string)
    (i : instrument) :
  resolves idx atm exp ty i <->
  (endswith (segment i) "-OPT" && Qeq_bool (strike i) (inject_Z atm)
   && contains (index_name idx) (tradingsymbol i) = true /\
   match expiry i with
   | Some e => date_eqb e exp
   | None => false
   end && String.eqb (instrument_type i) ty = true).
Proof.
  unfold resolves. split.
  - intros (H1 & H2 & H3 & (e & He & Hd) & H5).
    apply Qeq_bool_iff in H2. rewrite H1, H2, H3, He, Hd. split; [reflexivity|].
    apply String.eqb_eq in H5. rewrite H5. reflexivity.
  - intros [Ha Hb].
    apply andb_true_iff in Ha. destruct Ha as [Ha H3].
    apply andb_true_iff in Ha. destruct Ha as [H1 H2].
    apply andb_true_iff in Hb. destruct Hb as [Hd H5].
    apply Qeq_bool_iff in H2. apply String.eqb_eq in H5.
    repeat split; try assumption.
    destruct (expiry i) as [e|]; [|discriminate Hd].
    exists e. split; [reflexivity|exact Hd].
Qed.

(** X13. [_get_tokens] resolves both sides or neither. When it resolves,
    the two tokens are those of instruments of the pool that [resolves]
    accepts, one as a call and one as a put: the segment ends with [-OPT],
    the strike is the ATM strike, the expiry is the one asked for, and the
    trading symbol contains the name of the index. That last test is on
    substrings, so an instrument of another index whose name contains this
    one (FINNIFTY for NIFTY) passes it. And it resolves whenever the pool
    holds an instrument accepted as a call and one accepted as a put. *)
Theorem get_tokens_both_or_neither (pool : list instrument) (idx : index)
    (atm : Z) (exp : date) :
  (_get_tokens pool idx atm exp = (None, None) \/
   exists ce pe,
     _get_tokens pool idx atm exp
     = (Some (instrument_token ce), Some (instrument_token pe)) /\
     In ce pool /\ In pe pool /\
     resolves idx atm exp "CE" ce /\ resolves idx atm exp "PE" pe) /\
  (forall ce pe,
     In ce pool -> In pe pool ->
     resolves idx atm exp "CE" ce -> resolves idx atm exp "PE" pe ->
     exists c p, _get_tokens pool idx atm exp = (Some c, Some p)).
Proof.
  unfold _get_tokens.
  set (f := fun i => endswith (segment i) "-OPT"
                     && Qeq_bool (strike i) (inject_Z atm)
                     && contains (index_name idx) (tradingsymbol i)).
  set (g := fun ty o => match expiry o with
                        | Some e => date_eqb e exp
                        | None => false
                        end && String.eqb (instrument_type o) ty).
  change (find (fun o => match expiry o with
                         | Some e => date_eqb e exp
                         | None => false
                         end && String.eqb (instrument_type o) "CE")
               (List.filter f pool))
    with (find (g "CE") (List.filter f pool)).
  change (find (fun o => match expiry o with
                         | Some e => date_eqb e exp
                         | None => false
                         end && String.eqb (instrument_type o) "PE")
               (List.filter f pool))
    with (find (g "PE") (List.filter f pool)).
  split.
  - destruct (find (g "CE") (List.filter f pool)) as [ce|] eqn:Ec;
      [|left; reflexivity].
    destruct (find (g "PE") (List.filter f pool)) as [pe|] eqn:Ep;
      [|left; reflexivity].
    right. exists ce, pe. split; [reflexivity|].
    apply find_filter_sound in Ec, Ep.
    destruct Ec as (Hc1 & Hc2 & Hc3). destruct Ep as (Hp1 & Hp2 & Hp3).
    split; [exact Hc1|split; [exact Hp1|]].
    split; apply resolves_iff; split; assumption.
  - intros ce pe Hce Hpe Rc Rp.
    apply resolves_iff in Rc, Rp. destruct Rc as [Rc1 Rc2], Rp as [Rp1 Rp2].
    destruct (find_filter_complete f (g "CE") pool ce Hce Rc1 Rc2) as [c ->].
    destruct (find_filter_complete f (g "PE") pool pe Hpe Rp1 Rp2) as [p ->].
    eexists _, _. reflexivity.
Qed.

(** X14. With dynamic discovery the buckets of an index never fail to
    build, and their labels, in order, are the ones the scheduler expects
    for that index: the four weekly and monthly labels for NIFTY and
    SENSEX, the two monthly ones for BANKNIFTY. *)
Theorem dynamic_buckets_match_expected
    (insts_nfo insts_bfo : list instrument)
    (discover_weeklies_for_index :
       list instrument -> list instrument -> index -> Z -> list date)
    (discover_monthlies_for_index :
       list instrument -> list instrument -> index -> Z
       -> option date * option date)
    (idx : index) (atm : Z) :
  exists pairs,
    pairs_for idx
      (_discover_expiries_for_idx insts_nfo insts_bfo
         discover_weeklies_for_index discover_monthlies_for_index idx atm)
    = Ok pairs /\
    expected_buckets (index_name idx) EXPECTED_BUCKETS = Some (map fst pairs).
Proof.
  unfold _discover_expiries_for_idx.
  destruct (discover_monthlies_for_index insts_nfo insts_bfo idx atm)
    as [m_this m_next].
  destruct idx; eexists; split; reflexivity.
Qed.

(** X15. The monthly dates are filed by position, not by month: when
    discovery finds no this-month date but a next-month date, that date is
    filed under [this_month] and [next_month] stays empty. *)
Theorem monthly_buckets_filed_by_position
    (insts_nfo insts_bfo : list instrument)
    (discover_weeklies_for_index :
       list instrument -> list instrument -> index -> Z -> list date)
    (discover_monthlies_for_index :
       list instrument -> list instrument -> index -> Z
       -> option date * option date)
    (idx : index) (atm : Z) (m_this m_next : option date) :
  discover_monthlies_for_index insts_nfo insts_bfo idx atm
  = (m_this, m_next) ->
  exists pairs,
    pairs_for idx
      (_discover_expiries_for_idx insts_nfo insts_bfo
         discover_weeklies_for_index discover_monthlies_for_index idx atm)
    = Ok pairs /\
    In ("this_month",
        match m_this with Some d => Some d | None => m_next end) pairs /\
    In ("next_month",
        match m_this, m_next with
        | Some _, Some d => Some d
        | _, _ => None
        end) pairs.
Proof.
  intros Hm. unfold _discover_expiries_for_idx. rewrite Hm.
  destruct idx, m_this, m_next; eexists; (split; [reflexivity|]);
    cbn; auto 10.
Qed.

(** ** Derived fields: values *)

(** *** Line 117 in binary64 arithmetic *)

Lemma round_binary64_zero (x : Q) : (x == 0)%Q -> (round_binary64 x == 0)%Q.
Proof.
  intros E. unfold round_binary64.
  apply Qeq_bool_iff in E. rewrite E. reflexivity.
Qed.

Lemma Qabs_of_pos (x : Q) : (0 < x)%Q -> (Qabs x == x)%Q.
Proof. intros H. apply Qabs_pos. lra. Qed.

(** The binade grows with the number. *)
Lemma ilog2_monotone (x y : Q) :
  (0 < x)%Q -> (x <= y)%Q -> ilog2 (Qabs x) <= ilog2 (Qabs y).
Proof.
  intros Hx Hxy.
  destruct (ilog2_bounds x Hx) as [X1 X2].
  destruct (ilog2_bounds y ltac:(lra)) as [Y1 Y2].
  assert (ilog2 (Qabs x) < ilog2 (Qabs y) + 1); [|lia].
  apply pow2_lt_inv. lra.
Qed.

(** A positive binary64 number is an integer multiple of its unit in the
    last place. *)
Lemma fixed_is_multiple (a : Q) :
  (0 < a)%Q -> (round_binary64 a == a)%Q ->
  (a / pow2 (ulp_exp a)
   == inject_Z (py_round (a / pow2 (ulp_exp a))))%Q.
Proof.
  intros Ha Hrep. rewrite (round_binary64_pos a Ha) in Hrep.
  fold (ulp_exp a) in Hrep.
  pose proof (pow2_pos (ulp_exp a)) as HU.
  set (m := inject_Z (py_round (a / pow2 (ulp_exp a)))) in *.
  rewrite <- Hrep at 1. field. lra.
Qed.

(** The least float of the binade of a normal [x] is not above the rounding
    of [x]. *)
Lemma round_binary64_above_binade (x : Q) :
  (0 < x)%Q -> -1074 <= ilog2 (Qabs x) ->
  (pow2 (ilog2 (Qabs x)) <= round_binary64 x)%Q.
Proof.
  intros Hx He. rewrite (round_binary64_pos x Hx).
  destruct (ilog2_bounds x Hx) as [X1 X2].
  set (e := ilog2 (Qabs x)) in *.
  set (u := Z.max (e - 52) (-1074)).
  assert (Hu : u <= e) by (unfold u; lia).
  pose proof (pow2_pos u) as HU.
  assert (Ee : (pow2 e == inject_Z (2 ^ (e - u)) * pow2 u)%Q).
  { rewrite <- pow2_Z by lia. rewrite <- pow2_add.
    replace (e - u + u) with e by lia. reflexivity. }
  assert (HX : (inject_Z (2 ^ (e - u)) <= x / pow2 u)%Q).
  { apply Qle_shift_div_l; [exact HU|]. rewrite <- Ee. exact X1. }
  assert (HM : 2 ^ (e - u) <= py_round (x / pow2 u)).
  { rewrite <- (py_round_integer (2 ^ (e - u)) (inject_Z (2 ^ (e - u))))
      at 1 by reflexivity.
    apply py_round_monotone. exact HX. }
  rewrite Ee. apply Qmult_le_compat_r; [|lra].
  rewrite <- Zle_Qle. exact HM.
Qed.

Lemma round_binary64_nonneg (x : Q) :
  (0 <= x)%Q -> (0 <= round_binary64 x)%Q.
Proof.
  intros Hx. apply Qle_lteq in Hx. destruct Hx as [Hx|Hx].
  - rewrite (round_binary64_pos x Hx).
    set (u := Z.max _ _). pose proof (pow2_pos u) as HU.
    apply Qmult_le_0_compat; [|lra].
    change 0%Q with (inject_Z 0). rewrite <- Zle_Qle.
    change 0 with (py_round 0). apply py_round_monotone.
    apply Qle_shift_div_l; [exact HU|]. lra.
  - rewrite round_binary64_zero by (symmetry; exact Hx). apply Qle_refl.
Qed.

Lemma Qdiv_le_compat_r (x y c : Q) :
  (0 < c)%Q -> (x <= y)%Q -> (x / c <= y / c)%Q.
Proof.
  intros Hc Hxy. unfold Qdiv. apply Qmult_le_compat_r; [exact Hxy|].
  apply Qlt_le_weak, Qinv_lt_0_compat, Hc.
Qed.

(** Rounding does not go below a binary64 number that is not above. *)
Lemma round_binary64_lower (a x : Q) :
  (0 < a)%Q -> (round_binary64 a == a)%Q -> (a <= x)%Q ->
  (a <= round_binary64 x)%Q.
Proof.
  intros Ha Hrep Hax.
  assert (Hx : (0 < x)%Q) by lra.
  pose proof (ilog2_monotone a x Ha Hax) as He.
  destruct (ilog2_bounds a Ha) as [A1 A2].
  destruct (ilog2_bounds x Hx) as [X1 X2].
  pose proof (fixed_is_multiple a Ha Hrep) as Hm. unfold ulp_exp in Hm.
  set (ea := ilog2 (Qabs a)) in *. set (ex := ilog2 (Qabs x)) in *.
  destruct (Z.eq_dec (Z.max (ea - 52) (-1074)) (Z.max (ex - 52) (-1074)))
    as [Eu|Nu].
  - rewrite (round_binary64_pos x Hx). fold ex. rewrite <- Eu.
    set (u := Z.max (ea - 52) (-1074)) in *.
    pose proof (pow2_pos u) as HU.
    apply Qle_trans with (inject_Z (py_round (a / pow2 u)) * pow2 u)%Q.
    + rewrite <- Hm. apply Qle_lteq. right. field. lra.
    + apply Qmult_le_compat_r; [|lra].
      rewrite <- Zle_Qle. apply py_round_monotone.
      apply Qdiv_le_compat_r; assumption.
  - assert (Hlt : ea < ex) by lia.
    assert (Hn : -1074 <= ex) by lia.
    apply Qle_trans with (pow2 ex).
    + apply Qle_trans with (pow2 (ea + 1)); [lra|apply pow2_le; lia].
    + apply round_binary64_above_binade; assumption.
Qed.

(** Nor above a binary64 number that is not below. *)
Lemma round_binary64_upper (x b : Q) :
  (0 < x)%Q -> (round_binary64 b == b)%Q -> (x <= b)%Q ->
  (round_binary64 x <= b)%Q.
Proof.
  intros Hx Hrep Hxb.
  assert (Hb : (0 < b)%Q) by lra.
  pose proof (ilog2_monotone x b Hx Hxb) as He.
  destruct (ilog2_bounds b Hb) as [B1 B2].
  destruct (ilog2_bounds x Hx) as [X1 X2].
  pose proof (fixed_is_multiple b Hb Hrep) as Hm. unfold ulp_exp in Hm.
  set (eb := ilog2 (Qabs b)) in *. set (ex := ilog2 (Qabs x)) in *.
  destruct (Z.eq_dec (Z.max (ex - 52) (-1074)) (Z.max (eb - 52) (-1074)))
    as [Eu|Nu].
  - rewrite (round_binary64_pos x Hx). fold ex. rewrite Eu.
    set (u := Z.max (eb - 52) (-1074)) in *.
    pose proof (pow2_pos u) as HU.
    apply Qle_trans with (inject_Z (py_round (b / pow2 u)) * pow2 u)%Q.
    + apply Qmult_le_compat_r; [|lra].
      rewrite <- Zle_Qle. apply py_round_monotone.
      apply Qdiv_le_compat_r; assumption.
    + rewrite <- Hm. apply Qle_lteq. right. field. lra.
  - assert (Hlt : ex < eb) by lia.
    assert (Hn : -1074 <= eb) by lia.
    set (k := Z.max (ex + 1) (-1074)).
    assert (Hk : (x < pow2 k)%Q).
    { apply Qlt_le_trans with (pow2 (ex + 1)); [exact X2|].
      apply pow2_le. unfold k. lia. }
    destruct (round_binary64_below x k Hx Hk ltac:(unfold k; lia)) as [_ Hr].
    apply Qle_trans with (pow2 k); [exact Hr|].
    apply Qle_trans with (pow2 eb); [apply pow2_le; unfold k; lia|exact B1].
Qed.

(** Rounding stays between two binary64 numbers. *)
Lemma round_binary64_between (lo hi x : Q) :
  (0 <= lo)%Q -> (round_binary64 lo == lo)%Q -> (round_binary64 hi == hi)%Q ->
  (lo <= x)%Q -> (x <= hi)%Q ->
  (lo <= round_binary64 x)%Q /\ (round_binary64 x <= hi)%Q.
Proof.
  intros Hlo Rlo Rhi H1 H2.
  assert (Hx : (0 <= x)%Q) by lra.
  apply Qle_lteq in Hx. destruct Hx as [Hx|Hx].
  - split; [|apply round_binary64_upper; assumption].
    apply Qle_lteq in Hlo. destruct Hlo as [Hlo|Hlo].
    + apply round_binary64_lower; assumption.
    + rewrite <- Hlo. apply round_binary64_nonneg. lra.
  - rewrite round_binary64_zero by (symmetry; exact Hx). split; lra.
Qed.

(** Twice a binary64 number is one. *)
Lemma round_binary64_double (a : Q) :
  (0 <= a)%Q -> (round_binary64 a == a)%Q ->
  (round_binary64 (2 * a) == 2 * a)%Q.
Proof.
  intros Ha0 Hrep.
  apply Qle_lteq in Ha0. destruct Ha0 as [Ha|Ha].
  2:{ assert (E : (2 * a == 0)%Q) by (rewrite <- Ha; reflexivity).
      rewrite (round_binary64_zero _ E), E. reflexivity. }
  assert (H2a : (0 < 2 * a)%Q) by lra.
  destruct (ilog2_bounds a Ha) as [A1 A2].
  pose proof (fixed_is_multiple a Ha Hrep) as Hm. unfold ulp_exp in Hm.
  rewrite (round_binary64_pos _ H2a).
  assert (E2 : ilog2 (Qabs (2 * a)) = ilog2 (Qabs a) + 1).
  { apply ilog2_unique; rewrite (Qabs_of_pos _ H2a).
    - rewrite pow2_succ. lra.
    - rewrite pow2_succ. lra. }
  rewrite E2.
  set (ea := ilog2 (Qabs a)) in *.
  set (m := py_round (a / pow2 (Z.max (ea - 52) (-1074)))) in *.
  destruct (Z_lt_le_dec (ea - 52) (-1074)) as [Hc|Hc].
  - rewrite Z.max_r in Hm by lia. rewrite Z.max_r by lia.
    pose proof (pow2_pos (-1074)) as HU.
    rewrite (py_round_integer (2 * m)).
    + rewrite inject_Z_mult.
      assert (Ea : (a == inject_Z m * pow2 (-1074))%Q).
      { rewrite <- Hm. field. lra. }
      change (inject_Z 2) with 2%Q.
      transitivity (2 * (inject_Z m * pow2 (-1074)))%Q; [ring|].
      rewrite <- Ea. reflexivity.
    + rewrite inject_Z_mult, <- Hm. change (inject_Z 2) with 2%Q.
      field. lra.
  - rewrite Z.max_l in Hm by lia. rewrite Z.max_l by lia.
    replace (ea + 1 - 52) with (ea - 52 + 1) by lia.
    pose proof (pow2_pos (ea - 52)) as HU.
    pose proof (pow2_succ (ea - 52)) as ES.
    assert (HU' : (0 < pow2 (ea - 52 + 1))%Q) by apply pow2_pos.
    rewrite (py_round_integer m).
    + assert (Ea : (a == inject_Z m * pow2 (ea - 52))%Q).
      { rewrite <- Hm. field. lra. }
      rewrite ES.
      transitivity (2 * (inject_Z m * pow2 (ea - 52)))%Q; [ring|].
      rewrite <- Ea. reflexivity.
    + rewrite <- Hm.
      assert (E : (2 * a / pow2 (ea - 52 + 1)
                   == 2 * a / (2 * pow2 (ea - 52)))%Q).
      { rewrite ES. reflexivity. }
      rewrite E. field. lra.
Qed.

(** No overflow below [2 ** 1023], zero included. *)
Lemma round_binary64_in_range (x : Q) :
  (0 <= x)%Q -> (x < pow2 1023)%Q ->
  Qle_bool (pow2 1024) (Qabs (round_binary64 x)) = false.
Proof.
  intros Hx Hk.
  pose proof (round_binary64_nonneg x Hx) as H0.
  assert (H1 : (round_binary64 x <= pow2 1023)%Q).
  { apply Qle_lteq in Hx. destruct Hx as [Hx|Hx].
    - apply (round_binary64_below x 1023 Hx Hk). lia.
    - rewrite round_binary64_zero by (symmetry; exact Hx).
      apply Qlt_le_weak, pow2_pos. }
  apply not_true_is_false. intros E. apply Qle_bool_iff in E.
  rewrite Qabs_pos in E by exact H0.
  pose proof (pow2_lt 1023 1024 ltac:(lia)). lra.
Qed.

Lemma pow2_53_below : (pow2 53 < pow2 1023)%Q.
Proof. apply pow2_lt. lia. Qed.

(** The two roundings of a mean of binary64 numbers keep it between
    them. *)
Lemma mean_between_ordered (A B : Q) :
  (0 <= A)%Q -> (A <= B)%Q ->
  (round_binary64 A == A)%Q -> (round_binary64 B == B)%Q ->
  ((A <= round_binary64 (round_binary64 (A + B) / 2))%Q /\
   (round_binary64 (round_binary64 (A + B) / 2) <= B)%Q) /\
  ((A <= round_binary64 ((A + B) / 2))%Q /\
   (round_binary64 ((A + B) / 2) <= B)%Q).
Proof.
  intros HA HAB RA RB.
  assert (H2 : (0 < 2)%Q) by reflexivity.
  split.
  - destruct (round_binary64_between (2 * A) (2 * B) (A + B))
      as [S1 S2]; try lra;
      try (apply round_binary64_double; [lra|assumption]).
    apply round_binary64_between; try assumption.
    + apply Qle_shift_div_l; [exact H2|]. lra.
    + apply Qle_shift_div_r; [exact H2|]. lra.
  - apply round_binary64_between; try assumption.
    + apply Qle_shift_div_l; [exact H2|]. lra.
    + apply Qle_shift_div_r; [exact H2|]. lra.
Qed.

Lemma fl_in_range (x : Q) :
  (0 <= x)%Q -> (x < pow2 1023)%Q -> fl x = Finite64 (round_binary64 x).
Proof.
  intros Hx Hk. unfold fl.
  rewrite (round_binary64_in_range x Hx Hk). reflexivity.
Qed.

Lemma to_float_nonneg (x : Q) :
  (0 <= x)%Q -> (x < pow2 1023)%Q -> to_float x = Ok (round_binary64 x).
Proof.
  intros Hx Hk. unfold to_float.
  rewrite (round_binary64_in_range x Hx Hk). reflexivity.
Qed.

(** A natural number below [2 ** 53] is a binary64 number. *)
Lemma round_binary64_nat (z : Z) :
  0 <= z < 2 ^ 53 -> (round_binary64 (inject_Z z) == inject_Z z)%Q.
Proof.
  intros [H0 H1]. destruct (Z.eq_dec z 0) as [->|Hz]; [reflexivity|].
  apply round_binary64_int. lia.
Qed.

Lemma inject_Z_below (z : Z) (k : Z) :
  0 <= k -> (inject_Z z < pow2 k)%Q -> z < 2 ^ k.
Proof.
  intros Hk H. rewrite pow2_Z in H by exact Hk.
  rewrite <- Zlt_Qlt in H. exact H.
Qed.

Lemma inject_Z_nonneg (z : Z) : (0 <= inject_Z z)%Q -> 0 <= z.
Proof. intros H. unfold Qle, inject_Z in H; cbn in H. lia. Qed.

(** The float that an operand in range is taken as: the operand itself. *)
Lemma coerce_float_in_range (v : pyval) (a : Q) :
  num_val v = Some a -> float_ok v = true ->
  (0 <= a)%Q -> (a < pow2 53)%Q ->
  exists A, coerce_float v = Ok A /\ (A == a)%Q /\
            (round_binary64 A == A)%Q.
Proof.
  intros Hv Hok H0 H1.
  assert (Hint : forall z, int_val v = Some z ->
            exists A, coerce_float v = Ok A /\ (A == a)%Q /\
                      (round_binary64 A == A)%Q).
  { intros z Hz.
    pose proof (int_val_num_val v z Hz) as Hn. rewrite Hn in Hv.
    injection Hv as <-.
    assert (Hzr : 0 <= z < 2 ^ 53).
    { split; [apply inject_Z_nonneg, H0|apply inject_Z_below; [lia|exact H1]]. }
    pose proof (round_binary64_nat z Hzr) as Er.
    exists (round_binary64 (inject_Z z)).
    split; [|split; [exact Er|]].
    - assert (E : coerce_float v = to_float (inject_Z z)).
      { destruct v; cbn in Hz |- *; try discriminate Hz;
          try (injection Hz as <-; reflexivity). }
      rewrite E. apply to_float_nonneg; [exact H0|].
      pose proof pow2_53_below. lra.
    - apply round_binary64_wd. exact Er. }
  destruct v as [| b | z | q | | |]; try discriminate Hv.
  - apply (Hint (Z_of_bool b)). reflexivity.
  - apply (Hint z). reflexivity.
  - cbn in Hv. injection Hv as ->. cbn [float_ok] in Hok.
    exists a. split; [reflexivity|]. split; [reflexivity|].
    apply is_binary64_fixed. exact Hok.
Qed.

(** The mean of two operands in range, whichever is the larger. *)
Lemma mean_between (A B : Q) :
  (0 <= A)%Q -> (0 <= B)%Q ->
  (round_binary64 A == A)%Q -> (round_binary64 B == B)%Q ->
  ((Qmin A B <= round_binary64 (round_binary64 (A + B) / 2))%Q /\
   (round_binary64 (round_binary64 (A + B) / 2) <= Qmax A B)%Q) /\
  ((Qmin A B <= round_binary64 ((A + B) / 2))%Q /\
   (round_binary64 ((A + B) / 2) <= Qmax A B)%Q).
Proof.
  intros HA HB RA RB.
  destruct (Qlt_le_dec A B) as [Hab|Hab].
  - rewrite (Q.min_l A B), (Q.max_r A B) by lra.
    apply mean_between_ordered; try assumption; lra.
  - rewrite (Q.min_r A B), (Q.max_l A B) by lra.
    assert (E1 : (round_binary64 (round_binary64 (A + B) / 2)
                  == round_binary64 (round_binary64 (B + A) / 2))%Q).
    { apply round_binary64_wd.
      assert (E : (round_binary64 (A + B) == round_binary64 (B + A))%Q)
        by (apply round_binary64_wd; ring).
      rewrite E. reflexivity. }
    assert (E2 : (round_binary64 ((A + B) / 2)
                  == round_binary64 ((B + A) / 2))%Q).
    { apply round_binary64_wd. field. }
    rewrite E1, E2.
    apply mean_between_ordered; try assumption.
Qed.

(** In range, the mean of line 117 is a finite float between its
    operands. *)
Lemma iv_mean_between (va vb : pyval) (a b : Q) :
  num_val va = Some a -> num_val vb = Some b ->
  float_ok va = true -> float_ok vb = true ->
  (0 <= a)%Q -> (a < pow2 53)%Q -> (0 <= b)%Q -> (b < pow2 53)%Q ->
  exists q, iv_mean_binary64 va vb = Ok (Finite64 q) /\
            (Qmin a b <= q)%Q /\ (q <= Qmax a b)%Q.
Proof.
  intros Ha Hb Oa Ob A0 A1 B0 B1.
  pose proof pow2_53_below as H53.
  assert (Hmixed :
    exists q,
      (let? A := coerce_float va in
       let? B := coerce_float vb in
       match fl (A + B) with
       | Finite64 s => Ok (fl (s / 2))
       | Infinite64 n => Ok (Infinite64 n)
       end)%outcome = Ok (Finite64 q) /\
      (Qmin a b <= q)%Q /\ (q <= Qmax a b)%Q).
  { destruct (coerce_float_in_range va a Ha Oa A0 A1) as (A & -> & EA & RA).
    destruct (coerce_float_in_range vb b Hb Ob B0 B1) as (B & -> & EB & RB).
    cbn [obind].
    assert (HS0 : (0 <= A + B)%Q) by lra.
    assert (HS1 : (A + B < pow2 54)%Q).
    { change 54 with (53 + 1). rewrite pow2_succ. lra. }
    assert (H54 : (pow2 54 < pow2 1023)%Q) by (apply pow2_lt; lia).
    rewrite (fl_in_range (A + B)) by lra.
    destruct (mean_between A B) as [[M1 M2] _]; try assumption; try lra.
    assert (Hs0 : (0 <= round_binary64 (A + B))%Q)
      by (apply round_binary64_nonneg; exact HS0).
    assert (Hs1 : (round_binary64 (A + B) <= pow2 54)%Q).
    { apply Qle_lteq in HS0. destruct HS0 as [HS0|HS0].
      - apply (round_binary64_below (A + B) 54 HS0 HS1). lia.
      - rewrite round_binary64_zero by (symmetry; exact HS0).
        apply Qlt_le_weak, pow2_pos. }
    assert (H2 : (0 < 2)%Q) by reflexivity.
    rewrite fl_in_range.
    - eexists. split; [reflexivity|].
      assert (Emin : (Qmin A B == Qmin a b)%Q) by (rewrite EA, EB; reflexivity).
      assert (Emax : (Qmax A B == Qmax a b)%Q) by (rewrite EA, EB; reflexivity).
      rewrite <- Emin, <- Emax. split; assumption.
    - apply Qle_shift_div_l; [exact H2|]. lra.
    - apply Qle_lt_trans with (pow2 54 / 2)%Q.
      + apply Qdiv_le_compat_r; [exact H2|exact Hs1].
      + apply Qlt_shift_div_r; [exact H2|]. lra. }
  unfold iv_mean_binary64.
  destruct (int_val va) as [x|] eqn:Ix; [|exact Hmixed].
  destruct (int_val vb) as [y|] eqn:Iy; [|exact Hmixed].
  clear Hmixed.
  apply int_val_num_val in Ix, Iy. rewrite Ix in Ha. rewrite Iy in Hb.
  injection Ha as <-. injection Hb as <-.
  assert (Rx : (round_binary64 (inject_Z x) == inject_Z x)%Q).
  { apply round_binary64_nat. split;
      [apply inject_Z_nonneg, A0|apply inject_Z_below; [lia|exact A1]]. }
  assert (Ry : (round_binary64 (inject_Z y) == inject_Z y)%Q).
  { apply round_binary64_nat. split;
      [apply inject_Z_nonneg, B0|apply inject_Z_below; [lia|exact B1]]. }
  destruct (mean_between (inject_Z x) (inject_Z y)) as [_ [M1 M2]];
    try assumption.
  assert (E : (inject_Z (x + y) / 2 == (inject_Z x + inject_Z y) / 2)%Q).
  { rewrite inject_Z_plus. reflexivity. }
  assert (H2 : (0 < 2)%Q) by reflexivity.
  rewrite to_float_nonneg.
  - cbn [obind]. eexists. split; [reflexivity|].
    rewrite (round_binary64_wd _ _ E). split; assumption.
  - rewrite E. apply Qle_shift_div_l; [exact H2|]. lra.
  - rewrite E. apply Qlt_shift_div_r; [exact H2|]. lra.
Qed.

(** X16. On two quotes that are dicts, the averaged implied volatility is
    [None] as soon as one leg has no numeric [iv]. When both are numbers
    from 0 to below [2 ** 53], [int]s or binary64 [float]s, the average that
    line 117 computes in binary64 arithmetic is a finite [float] that lies
    between them. *)
Theorem iv_average_lies_between (ce pe : list (string * pyval)) :
  (isinstance_num (field ce "iv") = false \/
   isinstance_num (field pe "iv") = false ->
   iv_average_binary64 (PDict ce) (PDict pe) = Ok None /\
   iv_average (PDict ce) (PDict pe) = Ok PNone) /\
  (forall a b : Q,
     num_val (field ce "iv") = Some a -> num_val (field pe "iv") = Some b ->
     float_ok (field ce "iv") = true -> float_ok (field pe "iv") = true ->
     (0 <= a)%Q -> (a < pow2 53)%Q -> (0 <= b)%Q -> (b < pow2 53)%Q ->
     exists q,
       iv_average_binary64 (PDict ce) (PDict pe) = Ok (Some (Finite64 q)) /\
       (Qmin a b <= q)%Q /\ (q <= Qmax a b)%Q).
Proof.
  unfold iv_average_binary64, iv_average. rewrite !py_get_field.
  cbn [obind]. split.
  - intros [H|H].
    + rewrite H. split; reflexivity.
    + destruct (isinstance_num (field ce "iv"));
        [|split; reflexivity].
      rewrite ?py_get_field. cbn [obind]. rewrite H. split; reflexivity.
  - intros a b Ha Hb Oa Ob A0 A1 B0 B1.
    rewrite (num_val_isinstance _ _ Ha). rewrite ?py_get_field. cbn [obind].
    rewrite (num_val_isinstance _ _ Hb).
    destruct (iv_mean_between _ _ a b Ha Hb Oa Ob A0 A1 B0 B1)
      as (q & -> & Hq).
    exists q. split; [reflexivity|exact Hq].
Qed.

(** An [int] and a [float]: 14 and 16.5. *)
Lemma iv_average_lies_between_witness :
  exists q,
    iv_average_binary64 (PDict [("iv", PInt 14)])
                        (PDict [("iv", PFloat (33 # 2))])
    = Ok (Some (Finite64 q)) /\
    (14 <= q)%Q /\ (q <= 33 # 2)%Q.
Proof.
  destruct (iv_average_lies_between [("iv", PInt 14)] [("iv", PFloat (33 # 2))])
    as [_ H].
  destruct (H (inject_Z 14) (33 # 2)) as (q & Hq & H1 & H2).
  - reflexivity.
  - reflexivity.
  - reflexivity.
  - vm_compute. reflexivity.
  - vm_compute. discriminate.
  - vm_compute. reflexivity.
  - vm_compute. discriminate.
  - vm_compute. reflexivity.
  - exists q. split; [exact Hq|]. split; [exact H1|exact H2].
Defined.

(** X17. When both operands are numbers, the change is last minus
    reference; when moreover the reference is not zero, the percentage is
    that change divided by the reference, times 100, a [float]. *)
Theorem change_values (last ref : pyval) (l r : Q) :
  num_val last = Some l -> num_val ref = Some r ->
  (exists v d, change last ref = Ok v /\ num_val v = Some d /\
               (d == l - r)%Q) /\
  (~ (r == 0)%Q ->
   exists q, change_percent last ref = Ok (PFloat q) /\
             (q == (l - r) / r * 100)%Q).
Proof.
  intros Hl Hr. split.
  - unfold change.
    rewrite (num_val_isinstance _ _ Hl), (num_val_isinstance _ _ Hr).
    cbn [andb]. apply py_sub_num; assumption.
  - intros Hne. unfold change_percent.
    rewrite (num_val_isinstance _ _ Hl), (num_val_isinstance _ _ Hr).
    assert (Hz : py_ne0 ref = true).
    { unfold py_ne0. rewrite Hr. apply negb_true_iff, not_true_is_false.
      intros H. apply Qeq_bool_iff in H. contradiction. }
    rewrite Hz. cbn [andb].
    destruct (py_sub_num last ref l r Hl Hr) as (d & dq & -> & Hd & Ed).
    cbn [obind]. rewrite (py_truediv_guarded d ref dq r Hd Hr Hz).
    cbn [obind]. exists (dq / r * inject_Z 100)%Q. split; [reflexivity|].
    rewrite Ed. reflexivity.
Qed.

Lemma change_values_witness :
  exists q, change_percent (PFloat (1205 # 10)) (PInt 100) = Ok (PFloat q) /\
            (q == 205 # 10)%Q.
Proof.
  destruct (change_values (PFloat (1205 # 10)) (PInt 100)
              (1205 # 10) (inject_Z 100) eq_refl eq_refl) as [_ H].
  destruct H as (q & Hq & Eq); [discriminate|].
  exists q. split; [exact Hq|]. rewrite Eq. reflexivity.
Defined.

(** X18. At the first observation the drifts are zero: a token seeded from
    a quote has an open-interest change of 0 against that same quote, and an
    aggregate key seeded from an averaged implied volatility has a drift
    equal to 0 against it. *)
Theorem first_observation_has_zero_drift :
  (forall (tkn : string) (q v : pyval) (w : world),
     oi_open_map w !! tkn = None ->
     py_get q "oi" PNone = Ok v -> isinstance_int v = true ->
     oi_drift (baseline_get (oi_open_map (fst (seed tkn q w))) tkn) v
     = Ok (PInt 0)) /\
  (forall (iv_key : string) (v : pyval) (a : Q) (w : world),
     iv_open_map w !! iv_key = None -> num_val v = Some a ->
     exists w' d x,
       observe_iv_avg iv_key v w = (w', Ok v) /\
       iv_drift v v = Ok d /\ num_val d = Some x /\ (x == 0)%Q).
Proof.
  split.
  - intros tkn q v w Hk Hq Hv.
    assert (H1 : oi_open_map (fst (seed_oi tkn q w)) !! tkn = Some v).
    { rewrite seed_oi_world, Hk, Hq, Hv. cbn. apply lookup_insert_eq. }
    assert (H2 : extends (fst (seed_oi tkn q w)) (fst (seed tkn q w))).
    { unfold seed, bind. destruct (seed_oi tkn q w) as [w1 [[]|e|]]; cbn [fst];
        first [apply preserves_seed_iv | apply extends_refl]. }
    rewrite (extends_lookup_oi _ _ _ _ H2 H1).
    destruct (isinstance_int_val v Hv) as [z Hz].
    unfold oi_drift. rewrite Hv. cbn [andb]. unfold py_sub. rewrite Hz.
    rewrite Z.sub_diag. reflexivity.
  - intros iv_key v a w Hk Ha.
    rewrite observe_iv_avg_run, Hk.
    assert (Hv : isinstance_num v = true) by exact (num_val_isinstance _ _ Ha).
    destruct (py_sub_num v v a a Ha Ha) as (d & x & Hd & Hx & Ex).
    exists (set_iv_open iv_key v w), d, x.
    split; [destruct v; try discriminate Ha; reflexivity|].
    unfold iv_drift. rewrite Hv. cbn [andb].
    split; [exact Hd|split; [exact Hx|]]. rewrite Ex. ring.
Qed.

Lemma first_observation_has_zero_drift_witness :
  oi_drift (baseline_get
              (oi_open_map (fst (seed "1001" (PDict [("oi", PInt 1000)]) world0)))
              "1001") (PInt 1000)
  = Ok (PInt 0).
Proof.
  destruct first_observation_has_zero_drift as [H _].
  apply (H "1001" (PDict [("oi", PInt 1000)]) (PInt 1000) world0);
    reflexivity.
Defined.

(** ** Invariants of a cycle *)

Section Keeps.

Variable R : world -> world -> Prop.
Hypothesis R_refl : forall w, R w w.
Hypothesis R_trans : forall w1 w2 w3, R w1 w2 -> R w2 w3 -> R w1 w3.

Lemma keeps_ret {A} (a : A) : keeps R (ret a).
Proof. intros w. apply R_refl. Qed.

Lemma keeps_lift {A} (o : outcome A) : keeps R (lift o).
Proof. intros w. apply R_refl. Qed.

Lemma keeps_raise {A} (e : exn) : keeps R (@raise A e).
Proof. intros w. apply R_refl. Qed.

Lemma keeps_get_world : keeps R get_world.
Proof. intros w. apply R_refl. Qed.

Lemma keeps_bind {A B} (c : M A) (k : A -> M B) :
  keeps R c -> (forall a, keeps R (k a)) -> keeps R (bind c k).
Proof.
  intros Hc Hk w. unfold bind. specialize (Hc w).
  destruct (c w) as [w1 [a|e|]]; cbn [fst] in *; [|exact Hc|exact Hc].
  eapply R_trans; [exact Hc|apply Hk].
Qed.

(** Sequencing after pure code: only its value matters. *)
Lemma keeps_bind_lift {A B} (o : outcome A) (k : A -> M B) :
  (forall a, o = Ok a -> keeps R (k a)) -> keeps R (bind (lift o) k).
Proof.
  intros Hk w. unfold bind, lift.
  destruct o as [a|e|]; cbn [fst]; [|apply R_refl|apply R_refl].
  apply Hk. reflexivity.
Qed.

Lemma keeps_try_except {A} (c : M A) (h : exn -> M A) :
  keeps R c -> (forall e, keeps R (h e)) -> keeps R (try_except c h).
Proof.
  intros Hc Hh w. unfold try_except. specialize (Hc w).
  destruct (c w) as [w1 [a|e|]]; cbn [fst] in *; [exact Hc| |exact Hc].
  eapply R_trans; [exact Hc|apply Hh].
Qed.

Lemma keeps_for_each {A S} (body : S -> A -> M S) (xs : list A) :
  (forall s x, keeps R (body s x)) -> forall s, keeps R (for_each body xs s).
Proof.
  intros Hb. induction xs as [|x xs IH]; intros s; cbn [for_each].
  - apply keeps_ret.
  - apply keeps_bind; [apply Hb|exact IH].
Qed.

(** What is left to check for a relation to hold across a cycle: that the
    steps that touch the world keep it. *)
Hypothesis R_frame : forall w w', same_stores w w' -> R w w'.
Hypothesis R_seed_oi : forall tkn q, keeps R (seed_oi tkn q).
Hypothesis R_seed_iv : forall tkn q, keeps R (seed_iv tkn q).
Hypothesis R_observe :
  forall iv_key iv_avg,
    (iv_avg = PNone \/ isinstance_num iv_avg = true) ->
    keeps R (observe_iv_avg iv_key iv_avg).

Lemma keeps_safe_call_loop kite ensure_token_fn method_name args (fuel : nat) :
  forall attempt,
    keeps R (safe_call_loop kite ensure_token_fn fuel method_name args attempt).
Proof.
  assert (Hinv : keeps R (invoke kite method_name args)).
  { intros w. apply R_frame. repeat split. }
  assert (Htok : keeps R (ensure_token ensure_token_fn)).
  { intros w. apply R_frame. repeat split. }
  assert (Hsl : forall d, keeps R (time_sleep d)).
  { intros d w. apply R_frame. unfold time_sleep.
    destruct (Qle_bool 0 d); repeat split. }
  induction fuel as [|fuel IH]; intros attempt; cbn [safe_call_loop].
  - apply keeps_lift.
  - repeat first
      [ apply IH | exact Hinv | exact Htok | apply Hsl
      | apply keeps_ret
      | apply keeps_bind; [|intros ?]
      | apply keeps_try_except; [|intros ?]
      | match goal with
        | |- keeps R (match ?x with _ => _ end) => destruct x
        end ].
Qed.

Lemma keeps_safe_call kite ensure_token_fn fuel method_name args :
  keeps R (safe_call kite ensure_token_fn fuel method_name args).
Proof. apply keeps_safe_call_loop. Qed.

End Keeps.

(** The averaged implied volatility is [None] or a number. *)
Lemma iv_average_none_or_number (ce_q pe_q v : pyval) :
  iv_average ce_q pe_q = Ok v -> v = PNone \/ isinstance_num v = true.
Proof.
  unfold iv_average.
  destruct (py_get ce_q "iv" PNone) as [ce_iv| |]; cbn [obind];
    try discriminate.
  destruct (isinstance_num ce_iv) eqn:Ec;
    [|intros H; inversion H; left; reflexivity].
  destruct (py_get pe_q "iv" PNone) as [pe_iv| |]; cbn [obind];
    try discriminate.
  destruct (isinstance_num pe_iv) eqn:Ep;
    [|intros H; inversion H; left; reflexivity].
  destruct (py_add ce_iv pe_iv) as [s| |]; cbn [obind]; try discriminate.
  unfold py_truediv. destruct (num_val s), (num_val (PInt 2));
    try discriminate.
  destruct (Qeq_bool _ _); [discriminate|].
  intros H; inversion H. right. reflexivity.
Qed.

Section KeepsCollect.

Variable R : world -> world -> Prop.
Hypothesis R_refl : forall w, R w w.
Hypothesis R_trans : forall w1 w2 w3, R w1 w2 -> R w2 w3 -> R w1 w3.
Hypothesis R_frame : forall w w', same_stores w w' -> R w w'.
Hypothesis R_seed_oi : forall tkn q, keeps R (seed_oi tkn q).
Hypothesis R_seed_iv : forall tkn q, keeps R (seed_iv tkn q).
Hypothesis R_observe :
  forall iv_key iv_avg,
    (iv_avg = PNone \/ isinstance_num iv_avg = true) ->
    keeps R (observe_iv_avg iv_key iv_avg).

Variable kite : nat -> string -> list string -> upstream.
Variable ensure_token_fn : nat -> option exn.
Variable insts_nfo insts_bfo : list instrument.
Variable raw_dir : string.
Variable use_dynamic_expiries : bool.
Variable influx_writer : option (point -> option exn).
Variable fromisoformat : pyval -> option pyval.
Variable str_other : pyval -> string.
Variable discover_weeklies_for_index :
  list instrument -> list instrument -> index -> Z -> list date.
Variable discover_monthlies_for_index :
  list instrument -> list instrument -> index -> Z
  -> option date * option date.
Variable today : date.
Variable snapshot_time : string.
Variable rounded_half_minute_now : nat -> pyval.
Variable fs_write : string -> pyval -> option exn.
Variable fuel : nat.

Hypothesis R_leg :
  forall idx label exp atm c leg,
    keeps R (collect_leg raw_dir influx_writer fromisoformat str_other today
               snapshot_time rounded_half_minute_now fs_write
               idx label exp atm c leg).

(** A relation kept by the seeding steps and by the round of a leg is kept
    by the whole cycle. *)
Lemma keeps_collect :
  keeps R (collect kite ensure_token_fn insts_nfo insts_bfo raw_dir
             use_dynamic_expiries influx_writer fromisoformat str_other
             discover_weeklies_for_index discover_monthlies_for_index
             today snapshot_time rounded_half_minute_now fs_write fuel).
Proof.
  unfold collect, collect_index, collect_bucket, _spot_price, seed.
  repeat first
    [ apply (keeps_safe_call R R_refl R_trans R_frame)
    | apply R_seed_oi | apply R_seed_iv | apply R_leg
    | apply (keeps_ret R R_refl) | apply (keeps_lift R R_refl)
    | apply (keeps_get_world R R_refl)
    | apply (keeps_bind_lift R R_refl); intros ? ?;
      match goal with
      | H : iv_average _ _ = Ok _ |- _ =>
        apply iv_average_none_or_number in H
      | _ => idtac
      end
    | apply R_observe; assumption
    | apply (keeps_bind R R_trans); [|intros ?]
    | apply (keeps_for_each R R_refl R_trans); intros ? ?
    | match goal with
      | |- keeps R (if ?b then _ else _) => destruct b
      | |- keeps R (match ?x with _ => _ end) => destruct x
      | |- keeps R (let '(_, _) := ?x in _) => destruct x
      end ].
Qed.

End KeepsCollect.

(** ** The time-series sink *)

Lemma convert_fields_dict (conv : pyval -> pyval)
    (kvs : list (string * pyval)) (names : list (string * string))
    (w : world) :
  convert_fields conv (PDict kvs) names w
  = (w, Ok (converted conv kvs names)).
Proof.
  induction names as [|[name key] rest IH]; [reflexivity|].
  cbn [convert_fields]. unfold bind, rec_get, lift, ret in *.
  rewrite py_get_field, IH. reflexivity.
Qed.

Section SinkRuns.

Variable fromisoformat : pyval -> option pyval.
Variable str_other : pyval -> string.
Variable write_api_write : point -> option exn.

(** What [write_atm_leg] does, case by case. *)
Lemma write_atm_leg_run (rec : pyval) (w : world) :
  write_atm_leg fromisoformat str_other write_api_write rec w
  = match rec with
    | PDict kvs =>
      match assoc "timestamp" kvs with
      | Some stamp =>
        match fromisoformat stamp with
        | Some ts =>
          match leg_fields kvs with
          | [] => (w, Ok tt)
          | _ =>
            match write_api_write (leg_point str_other kvs ts) with
            | None => (with_point (leg_point str_other kvs ts) w, Ok tt)
            | Some _ => (w, Ok tt)
            end
          end
        | None => (w, Ok tt)
        end
      | None => (w, Ok tt)
      end
    | _ => (w, Ok tt)
    end.
Proof.
  unfold write_atm_leg, write_atm_leg_body, try_except.
  destruct rec as [| | | | |kvs|]; try reflexivity.
  unfold bind at 1. unfold lift at 1. cbn [py_item].
  destruct (assoc "timestamp" kvs) as [stamp|]; [|reflexivity].
  unfold bind at 1.
  destruct (fromisoformat stamp) as [ts|]; [|reflexivity].
  unfold ret at 1. unfold rec_get.
  repeat (unfold bind at 1; unfold lift at 1; rewrite py_get_field).
  unfold bind at 1. rewrite convert_fields_dict.
  unfold bind at 1. rewrite convert_fields_dict.
  fold (leg_fields kvs).
  change (drop_none (converted _ffloat kvs float_fields
                     ++ converted _fint kvs int_fields)%list)
    with (leg_fields kvs).
  destruct (leg_fields kvs) as [|f fs] eqn:Ef; [reflexivity|].
  unfold write_point, leg_point. rewrite Ef.
  fold (leg_tags str_other kvs).
  destruct (write_api_write _); reflexivity.
Qed.

(** What [write_index_overview] does, case by case. *)
Lemma write_index_overview_run (rec : pyval) (w : world) :
  write_index_overview fromisoformat str_other write_api_write rec w
  = match rec with
    | PDict kvs =>
      match assoc "timestamp" kvs with
      | Some stamp =>
        match fromisoformat stamp with
        | Some ts =>
          match overview_fields kvs with
          | [] => (w, Ok tt)
          | _ =>
            match write_api_write (overview_point str_other kvs ts) with
            | None => (with_point (overview_point str_other kvs ts) w, Ok tt)
            | Some _ => (w, Ok tt)
            end
          end
        | None => (w, Ok tt)
        end
      | None => (w, Ok tt)
      end
    | _ => (w, Ok tt)
    end.
Proof.
  unfold write_index_overview, write_index_overview_body, try_except.
  destruct rec as [| | | | |kvs|]; try reflexivity.
  unfold bind at 1. unfold lift at 1. cbn [py_item].
  destruct (assoc "timestamp" kvs) as [stamp|]; [|reflexivity].
  unfold bind at 1.
  destruct (fromisoformat stamp) as [ts|]; [|reflexivity].
  unfold ret at 1. unfold rec_get.
  unfold bind at 1; unfold lift at 1; rewrite py_get_field.
  unfold bind at 1. rewrite convert_fields_dict.
  unfold bind at 1. rewrite convert_fields_dict.
  unfold bind at 1. unfold ret at 1.
  change (drop_none
            (fold_left add_item kvs
               (converted _fint kvs overview_int_fields
                ++ converted _ffloat kvs overview_float_fields)%list))
    with (overview_fields kvs).
  destruct (overview_fields kvs) as [|f fs] eqn:Ef; [reflexivity|].
  unfold write_point, overview_point. rewrite Ef.
  destruct (write_api_write _); reflexivity.
Qed.

End SinkRuns.

(** A value that a field of a point may hold: an [int] or a [float]. *)
Lemma _ffloat_none_or_float (v : pyval) :
  _ffloat v = PNone \/ is_float (_ffloat v) = true.
Proof. unfold _ffloat. destruct (num_val v); [right|left]; reflexivity. Qed.

Lemma _fint_none_or_int (v : pyval) :
  _fint v = PNone \/ is_int (_fint v) = true.
Proof. destruct v; cbn; auto. Qed.

Lemma converted_typed (conv : pyval -> pyval) (ok : pyval -> bool)
    (kvs : list (string * pyval)) (names : list (string * string)) :
  (forall v, conv v = PNone \/ ok (conv v) = true) ->
  Forall (fun kv => In (fst kv) (map fst names)
                    /\ (snd kv = PNone \/ ok (snd kv) = true))
         (converted conv kvs names).
Proof.
  intros Hconv. unfold converted. apply List.Forall_forall. intros [k v] Hin.
  apply List.in_map_iff in Hin. destruct Hin as [[name key] [E Hin]].
  cbn [fst snd] in E. inversion E; subst k v. cbn [fst snd].
  split; [|apply Hconv].
  apply List.in_map_iff. exists (name, key). split; [reflexivity|exact Hin].
Qed.

Lemma drop_none_Forall (P : string * pyval -> Prop)
    (kvs : list (string * pyval)) :
  Forall (fun kv => snd kv <> PNone -> P kv) kvs -> Forall P (drop_none kvs).
Proof.
  intros H. unfold drop_none. apply List.Forall_forall. intros kv Hin.
  apply List.filter_In in Hin. destruct Hin as [Hin Hnn].
  rewrite List.Forall_forall in H. apply (H kv Hin).
  intros E. rewrite E in Hnn. discriminate Hnn.
Qed.

(** The fields of the point of a leg hold a [float] under the eleven price
    names and an [int] under the six count names. *)
Lemma leg_fields_typed (kvs : list (string * pyval)) :
  Forall (fun kv =>
            (In (fst kv) (map fst float_fields) /\ is_float (snd kv) = true)
            \/ (In (fst kv) (map fst int_fields) /\ is_int (snd kv) = true))
         (leg_fields kvs).
Proof.
  unfold leg_fields. apply drop_none_Forall. apply List.Forall_app. split.
  - eapply List.Forall_impl;
      [|apply (converted_typed _ffloat is_float), _ffloat_none_or_float].
    intros kv [Hin [E|E]] Hnn; [contradiction|]. left. split; assumption.
  - eapply List.Forall_impl;
      [|apply (converted_typed _fint is_int), _fint_none_or_int].
    intros kv [Hin [E|E]] Hnn; [contradiction|]. right. split; assumption.
Qed.

Lemma dict_set_Forall (P : string * pyval -> Prop) (k : string) (v : pyval)
    (kvs : list (string * pyval)) :
  P (k, v) -> Forall P kvs -> Forall P (dict_set k v kvs).
Proof.
  intros Hv. induction 1 as [|[k' v'] rest Hh Ht IH]; cbn [dict_set].
  - constructor; [exact Hv|constructor].
  - destruct (String.eqb k k'); constructor; auto.
Qed.

Lemma convert_item_typed (k : string) (v : pyval) :
  convert_item k v = PNone
  \/ is_float (convert_item k v) = true \/ is_int (convert_item k v) = true.
Proof.
  unfold convert_item.
  destruct (_ || _ || _);
    [destruct (_ffloat_none_or_float v); auto|].
  destruct (_ || _ || _ || _);
    [destruct (_ffloat_none_or_float v); auto|].
  destruct (endswith _ _); [|auto].
  destruct (_fint_none_or_int v); auto.
Qed.

Lemma overview_fields_typed (kvs : list (string * pyval)) :
  Forall (fun kv => is_float (snd kv) = true \/ is_int (snd kv) = true)
         (overview_fields kvs).
Proof.
  unfold overview_fields. apply drop_none_Forall.
  set (P := fun kv : string * pyval =>
              snd kv <> PNone ->
              is_float (snd kv) = true \/ is_int (snd kv) = true).
  assert (Hfold : forall items acc,
             Forall P acc -> Forall P (fold_left add_item items acc)).
  { induction items as [|[k v] items IH]; intros acc Hacc; [exact Hacc|].
    cbn [fold_left]. apply IH. unfold add_item. cbn [fst snd].
    destruct (is_none (convert_item k v)) eqn:En; [exact Hacc|].
    apply dict_set_Forall; [|exact Hacc].
    intros _. cbn [snd].
    destruct (convert_item_typed k v) as [E|E]; [|exact E].
    rewrite E in En. discriminate En. }
  apply Hfold. apply List.Forall_app. split.
  - eapply List.Forall_impl;
      [|apply (converted_typed _fint is_int), _fint_none_or_int].
    intros kv [Hin [E|E]] Hnn; [contradiction|]. right. exact E.
  - eapply List.Forall_impl;
      [|apply (converted_typed _ffloat is_float), _ffloat_none_or_float].
    intros kv [Hin [E|E]] Hnn; [contradiction|]. left. exact E.
Qed.

Section SinkProps.

Variable fromisoformat : pyval -> option pyval.
Variable str_other : pyval -> string.
Variable write_api_write : point -> option exn.

(** X19. [write_atm_leg] never raises and writes at most one point. A point
    it writes is one the writer accepted, of measurement
    [atm_option_quote], with at least one field, and each of its fields is a
    [float] under one of the eleven price names or an [int] under one of
    the six count names: no [None], string or other value reaches the
    time series. Nothing else of the world changes. *)
Theorem write_atm_leg_writes_typed_point (rec : pyval) (w : world) :
  snd (write_atm_leg fromisoformat str_other write_api_write rec w) = Ok tt /\
  (fst (write_atm_leg fromisoformat str_other write_api_write rec w) = w \/
   exists p,
     fst (write_atm_leg fromisoformat str_other write_api_write rec w)
     = with_point p w /\
     write_api_write p = None /\
     measurement p = "atm_option_quote" /\
     fields p <> [] /\
     Forall (fun kv =>
               (In (fst kv) (map fst float_fields)
                /\ is_float (snd kv) = true)
               \/ (In (fst kv) (map fst int_fields)
                   /\ is_int (snd kv) = true))
            (fields p)).
Proof.
  rewrite write_atm_leg_run.
  destruct rec as [| | | | |kvs|]; try (split; [reflexivity|left; reflexivity]).
  destruct (assoc "timestamp" kvs) as [stamp|];
    [|split; [reflexivity|left; reflexivity]].
  destruct (fromisoformat stamp) as [ts|];
    [|split; [reflexivity|left; reflexivity]].
  destruct (leg_fields kvs) as [|f fs] eqn:Ef;
    [split; [reflexivity|left; reflexivity]|].
  destruct (write_api_write (leg_point str_other kvs ts)) eqn:Ew;
    [split; [reflexivity|left; reflexivity]|].
  split; [reflexivity|]. right.
  exists (leg_point str_other kvs ts).
  split; [reflexivity|]. split; [exact Ew|]. split; [reflexivity|].
  cbn [fields leg_point]. split; [rewrite Ef; discriminate|].
  apply leg_fields_typed.
Qed.

(** X20. [write_index_overview] never raises and writes at most one point. A
    point it writes is one the writer accepted, of measurement
    [index_overview], with at least one field, and each of its fields is a
    [float] or an [int], whatever the keys and values of the record.
    Nothing else of the world changes. *)
Theorem write_index_overview_writes_typed_point (rec : pyval) (w : world) :
  snd (write_index_overview fromisoformat str_other write_api_write rec w)
  = Ok tt /\
  (fst (write_index_overview fromisoformat str_other write_api_write rec w)
   = w \/
   exists p,
     fst (write_index_overview fromisoformat str_other write_api_write rec w)
     = with_point p w /\
     write_api_write p = None /\
     measurement p = "index_overview" /\
     fields p <> [] /\
     Forall (fun kv => is_float (snd kv) = true \/ is_int (snd kv) = true)
            (fields p)).
Proof.
  rewrite write_index_overview_run.
  destruct rec as [| | | | |kvs|]; try (split; [reflexivity|left; reflexivity]).
  destruct (assoc "timestamp" kvs) as [stamp|];
    [|split; [reflexivity|left; reflexivity]].
  destruct (fromisoformat stamp) as [ts|];
    [|split; [reflexivity|left; reflexivity]].
  destruct (overview_fields kvs) as [|f fs] eqn:Ef;
    [split; [reflexivity|left; reflexivity]|].
  destruct (write_api_write (overview_point str_other kvs ts)) eqn:Ew;
    [split; [reflexivity|left; reflexivity]|].
  split; [reflexivity|]. right.
  exists (overview_point str_other kvs ts).
  split; [reflexivity|]. split; [exact Ew|]. split; [reflexivity|].
  cbn [fields overview_point]. split; [rewrite Ef; discriminate|].
  apply overview_fields_typed.
Qed.

End SinkProps.

(** The record of a leg, as far as the sink reads its fixed entries. *)
Lemma make_leg_shape (timestamp : pyval) (idx : index) (label side : string)
    (exp today : date) (atm : Z) (oi_open q rec : pyval) :
  make_leg timestamp idx label side exp today atm oi_open q = Ok rec ->
  exists kvs,
    rec = PDict kvs /\
    assoc "timestamp" kvs = Some timestamp /\
    field kvs "index" = PStr (index_name idx) /\
    field kvs "bucket" = PStr label /\
    field kvs "side" = PStr side /\
    field kvs "expiry" = PStr (isoformat exp) /\
    field kvs "atm_strike" = PInt atm /\
    field kvs "days_to_expiry" = PInt (days_to_expiry exp today).
Proof.
  unfold make_leg, leg_record.
  repeat match goal with
         | |- context [obind ?o _] =>
           destruct o as [?| |]; cbn [obind];
           try (intros H; discriminate H)
         end.
  intros H. inversion H. eexists. split; [reflexivity|].
  repeat split; reflexivity.
Qed.

Section LegToPoint.

Variable fromisoformat : pyval -> option pyval.
Variable str_other : pyval -> string.
Variable write_api_write : point -> option exn.

(** X21. A leg record built by the collector, whose timestamp parses, is
    written as one point whenever the writer accepts it: the point is
    tagged with the index, [CE] for a [CALL] and [PE] for any other side,
    the ISO expiry, the strike as text and the bucket, and carries at least
    the days to expiry and the strike as [int] fields, whatever the quote
    held. *)
Theorem collected_leg_reaches_time_series
    (timestamp ts : pyval) (idx : index) (label side : string)
    (exp today : date) (atm : Z) (oi_open q rec : pyval) (w : world) :
  make_leg timestamp idx label side exp today atm oi_open q = Ok rec ->
  fromisoformat timestamp = Some ts ->
  (forall p, write_api_write p = None) ->
  exists p,
    write_atm_leg fromisoformat str_other write_api_write rec w
    = (with_point p w, Ok tt) /\
    time p = ts /\
    tags p = [("index", index_name idx);
              ("option_type", if String.eqb side "CALL" then "CE" else "PE");
              ("expiration", isoformat exp);
              ("strike", str_of_Z atm);
              ("bucket", label)] /\
    In ("days_to_expiry", PInt (days_to_expiry exp today)) (fields p) /\
    In ("atm_strike_val", PInt atm) (fields p).
Proof.
  intros Hrec Hts Hw.
  destruct (make_leg_shape _ _ _ _ _ _ _ _ _ _ Hrec)
    as (kvs & -> & Hstamp & Hidx & Hbucket & Hside & Hexp & Hatm & Hdte).
  assert (Hd : In ("days_to_expiry", PInt (days_to_expiry exp today))
                  (leg_fields kvs)).
  { unfold leg_fields, drop_none. apply List.filter_In.
    split; [|reflexivity]. apply List.in_or_app. right.
    unfold converted, int_fields. cbn [map fst snd].
    rewrite Hdte. cbn [_fint In]. tauto. }
  assert (Ha : In ("atm_strike_val", PInt atm) (leg_fields kvs)).
  { unfold leg_fields, drop_none. apply List.filter_In.
    split; [|reflexivity]. apply List.in_or_app. right.
    unfold converted, int_fields. cbn [map fst snd].
    rewrite Hatm. cbn [_fint In]. tauto. }
  exists (leg_point str_other kvs ts).
  rewrite write_atm_leg_run, Hstamp, Hts, Hw.
  destruct (leg_fields kvs) as [|f fs] eqn:Ef; [destruct Hd|].
  split; [reflexivity|]. split; [reflexivity|].
  split; [|cbn [fields leg_point]; rewrite Ef; split; assumption].
  cbn [tags leg_point]. unfold leg_tags.
  rewrite Hidx, Hbucket, Hside, Hexp, Hatm.
  unfold tag_all, drop_none. cbn [List.filter snd is_none negb map fst py_str].
  destruct (String.eqb side "CALL"); reflexivity.
Qed.

End LegToPoint.

(** ** What a leg adds to the world *)

Section LegEffect.

Variable raw_dir : string.
Variable influx_writer : option (point -> option exn).
Variable fromisoformat : pyval -> option pyval.
Variable str_other : pyval -> string.
Variable today : date.
Variable snapshot_time : string.
Variable rounded_half_minute_now : nat -> pyval.
Variable fs_write : string -> pyval -> option exn.

(** The guarded write returns, with at most one point more. *)
Lemma save_point_effect (rec : pyval) (w : world) :
  snd (save_point influx_writer fromisoformat str_other rec w) = Ok tt /\
  (fst (save_point influx_writer fromisoformat str_other rec w) = w \/
   exists p,
     fst (save_point influx_writer fromisoformat str_other rec w)
     = with_point p w).
Proof.
  unfold save_point. destruct influx_writer as [wr|];
    [|split; [reflexivity|left; reflexivity]].
  unfold try_except. rewrite write_atm_leg_run.
  destruct rec as [| | | | |kvs|]; try (split; [reflexivity|left; reflexivity]).
  destruct (assoc "timestamp" kvs) as [stamp|];
    [|split; [reflexivity|left; reflexivity]].
  destruct (fromisoformat stamp) as [ts|];
    [|split; [reflexivity|left; reflexivity]].
  destruct (leg_fields kvs) as [|f fs];
    [split; [reflexivity|left; reflexivity]|].
  destruct (wr (leg_point str_other kvs ts));
    [split; [reflexivity|left; reflexivity]|].
  split; [reflexivity|]. right. eexists. reflexivity.
Qed.

(** The round of a leg either raises before anything is written, or
    returns the cycle with the record appended, having written the
    snapshot file of that record and at most one point. *)
Lemma collect_leg_effect (idx : index) (label : string) (exp : date)
    (atm : Z) (c : cycle) (leg : string * string * pyval) (w : world) :
  (fst (collect_leg raw_dir influx_writer fromisoformat str_other today
          snapshot_time rounded_half_minute_now fs_write
          idx label exp atm c leg w) = w /\
   forall c',
     snd (collect_leg raw_dir influx_writer fromisoformat str_other today
            snapshot_time rounded_half_minute_now fs_write
            idx label exp atm c leg w) <> Ok c') \/
  exists rec path,
    snd (collect_leg raw_dir influx_writer fromisoformat str_other today
           snapshot_time rounded_half_minute_now fs_write
           idx label exp atm c leg w) = Ok (append_leg rec c) /\
    (fst (collect_leg raw_dir influx_writer fromisoformat str_other today
            snapshot_time rounded_half_minute_now fs_write
            idx label exp atm c leg w) = with_file (path, rec) w \/
     exists p,
       fst (collect_leg raw_dir influx_writer fromisoformat str_other today
              snapshot_time rounded_half_minute_now fs_write
              idx label exp atm c leg w)
       = with_point p (with_file (path, rec) w)).
Proof.
  destruct leg as [[side tkn] q].
  unfold collect_leg, bind, get_world, lift, ret, save_json.
  cbv beta iota.
  destruct (make_leg _ idx label side exp today atm _ q) as [rec| |];
    cbv beta iota;
    [|left; split; [reflexivity|intros c' Hx; discriminate Hx]
     |left; split; [reflexivity|intros c' Hx; discriminate Hx]].
  match goal with
  | |- context [fs_write ?p rec] => destruct (fs_write p rec) eqn:Efs
  end; cbv beta iota.
  - left. split; [reflexivity|intros c' Hx; discriminate Hx].
  - right.
    match goal with
    | |- context [with_file (?p, _) _] => idtac
    | |- context [save_point _ _ _ rec
                    {| kite_calls := _; refreshes := _; slept := _;
                       oi_open_map := _; iv_open_map := _;
                       files := (?p, rec) :: _; points := _ |}] =>
      exists rec, p; change
        {| kite_calls := kite_calls w; refreshes := refreshes w;
           slept := slept w; oi_open_map := oi_open_map w;
           iv_open_map := iv_open_map w;
           files := (p, rec) :: files w; points := points w |}
        with (with_file (p, rec) w);
      destruct (save_point_effect rec (with_file (p, rec) w)) as [Hs Hw];
      destruct (save_point influx_writer fromisoformat str_other rec
                  (with_file (p, rec) w)) as [w2 o]
    end.
    cbn [fst snd] in *. subst o. cbn [fst snd].
    split; [reflexivity|].
    destruct Hw as [->|[p' ->]]; [left; reflexivity|right].
    exists p'. reflexivity.
Qed.

End LegEffect.

(** ** Invariants of a whole cycle *)

Lemma stays_typed_refl (w : world) : stays_typed w w.
Proof. intros H. exact H. Qed.

Lemma stays_typed_trans (w1 w2 w3 : world) :
  stays_typed w1 w2 -> stays_typed w2 w3 -> stays_typed w1 w3.
Proof. unfold stays_typed. auto. Qed.

Lemma stays_typed_same_maps (w w' : world) :
  oi_open_map w' = oi_open_map w -> iv_open_map w' = iv_open_map w ->
  stays_typed w w'.
Proof.
  intros Ho Hi [H1 H2]. split; intros k v Hl.
  - rewrite Ho in Hl. eapply H1; exact Hl.
  - rewrite Hi in Hl. eapply H2; exact Hl.
Qed.

Lemma stays_typed_frame (w w' : world) : same_stores w w' -> stays_typed w w'.
Proof. intros (Ho & Hi & _). apply stays_typed_same_maps; assumption. Qed.

Lemma stays_typed_set_oi (k : string) (v : pyval) (w : world) :
  isinstance_int v = true -> stays_typed w (set_oi_open k v w).
Proof.
  intros Hv [H1 H2]. split; cbn [set_oi_open oi_open_map iv_open_map];
    [|exact H2].
  intros k' v' Hl. destruct (decide (k = k')) as [->|Hne].
  - rewrite lookup_insert in Hl.
    destruct (decide (k' = k')); [|contradiction].
    inversion Hl; subst. exact Hv.
  - rewrite lookup_insert_ne in Hl by exact Hne. eapply H1; exact Hl.
Qed.

Lemma stays_typed_set_iv (k : string) (v : pyval) (w : world) :
  isinstance_num v = true -> stays_typed w (set_iv_open k v w).
Proof.
  intros Hv [H1 H2]. split; cbn [set_iv_open oi_open_map iv_open_map];
    [exact H1|].
  intros k' v' Hl. destruct (decide (k = k')) as [->|Hne].
  - rewrite lookup_insert in Hl.
    destruct (decide (k' = k')); [|contradiction].
    inversion Hl; subst. exact Hv.
  - rewrite lookup_insert_ne in Hl by exact Hne. eapply H2; exact Hl.
Qed.

Lemma stays_typed_seed_oi (tkn : string) (q : pyval) :
  keeps stays_typed (seed_oi tkn q).
Proof.
  intros w. unfold seed_oi, bind, get_world, lift, modify, ret.
  destruct (oi_open_map w !! tkn); [apply stays_typed_refl|].
  destruct (py_get q "oi" PNone) as [oi| |]; try apply stays_typed_refl.
  destruct (isinstance_int oi) eqn:E; [|apply stays_typed_refl].
  apply stays_typed_set_oi. exact E.
Qed.

Lemma stays_typed_seed_iv (tkn : string) (q : pyval) :
  keeps stays_typed (seed_iv tkn q).
Proof.
  intros w. unfold seed_iv, bind, get_world, lift, modify, ret.
  destruct (iv_open_map w !! tkn); [apply stays_typed_refl|].
  destruct (py_get q "iv" PNone) as [iv| |]; try apply stays_typed_refl.
  destruct (isinstance_num iv) eqn:E; [|apply stays_typed_refl].
  apply stays_typed_set_iv. exact E.
Qed.

Lemma stays_typed_observe (iv_key : string) (iv_avg : pyval) :
  iv_avg = PNone \/ isinstance_num iv_avg = true ->
  keeps stays_typed (observe_iv_avg iv_key iv_avg).
Proof.
  intros Hv w. unfold observe_iv_avg, bind, get_world, modify, ret.
  destruct Hv as [->|Hv]; [apply stays_typed_refl|].
  destruct iv_avg; try discriminate Hv;
    (destruct (iv_open_map w !! iv_key);
     [apply stays_typed_refl|apply stays_typed_set_iv; exact Hv]).
Qed.

Lemma sinks_grow_refl (w : world) : sinks_grow w w.
Proof. exists [], []. repeat split. cbn. lia. Qed.

Lemma sinks_grow_trans (w1 w2 w3 : world) :
  sinks_grow w1 w2 -> sinks_grow w2 w3 -> sinks_grow w1 w3.
Proof.
  intros (fs1 & ps1 & Hf1 & Hp1 & Hl1) (fs2 & ps2 & Hf2 & Hp2 & Hl2).
  exists (fs2 ++ fs1)%list, (ps2 ++ ps1)%list.
  rewrite Hf2, Hf1, Hp2, Hp1, <- !List.app_assoc, !List.length_app.
  repeat split. lia.
Qed.

Lemma sinks_grow_same (w w' : world) :
  files w' = files w -> points w' = points w -> sinks_grow w w'.
Proof. intros Hf Hp. exists [], []. rewrite Hf, Hp. repeat split. cbn. lia. Qed.

Lemma sinks_grow_frame (w w' : world) : same_stores w w' -> sinks_grow w w'.
Proof. intros (_ & _ & Hf & Hp). apply sinks_grow_same; assumption. Qed.

Lemma sinks_grow_seed_oi (tkn : string) (q : pyval) :
  keeps sinks_grow (seed_oi tkn q).
Proof.
  intros w. unfold seed_oi, bind, get_world, lift, modify, ret.
  destruct (oi_open_map w !! tkn); [apply sinks_grow_refl|].
  destruct (py_get q "oi" PNone) as [oi| |]; try apply sinks_grow_refl.
  destruct (isinstance_int oi); [|apply sinks_grow_refl].
  apply sinks_grow_same; reflexivity.
Qed.

Lemma sinks_grow_seed_iv (tkn : string) (q : pyval) :
  keeps sinks_grow (seed_iv tkn q).
Proof.
  intros w. unfold seed_iv, bind, get_world, lift, modify, ret.
  destruct (iv_open_map w !! tkn); [apply sinks_grow_refl|].
  destruct (py_get q "iv" PNone) as [iv| |]; try apply sinks_grow_refl.
  destruct (isinstance_num iv); [|apply sinks_grow_refl].
  apply sinks_grow_same; reflexivity.
Qed.

Lemma sinks_grow_observe (iv_key : string) (iv_avg : pyval) :
  keeps sinks_grow (observe_iv_avg iv_key iv_avg).
Proof.
  intros w. unfold observe_iv_avg, bind, get_world, modify, ret.
  destruct iv_avg;
    try (destruct (iv_open_map w !! iv_key));
    apply sinks_grow_same; reflexivity.
Qed.

Lemma same_files_refl (w : world) : same_files w w.
Proof. reflexivity. Qed.

Lemma same_files_trans (w1 w2 w3 : world) :
  same_files w1 w2 -> same_files w2 w3 -> same_files w1 w3.
Proof. unfold same_files. congruence. Qed.

Lemma same_files_frame (w w' : world) : same_stores w w' -> same_files w w'.
Proof. intros (_ & _ & Hf & _). exact Hf. Qed.

Lemma same_files_seed_oi (tkn : string) (q : pyval) :
  keeps same_files (seed_oi tkn q).
Proof.
  intros w. unfold seed_oi, bind, get_world, lift, modify, ret.
  destruct (oi_open_map w !! tkn); [reflexivity|].
  destruct (py_get q "oi" PNone) as [oi| |]; try reflexivity.
  destruct (isinstance_int oi); reflexivity.
Qed.

Lemma same_files_seed_iv (tkn : string) (q : pyval) :
  keeps same_files (seed_iv tkn q).
Proof.
  intros w. unfold seed_iv, bind, get_world, lift, modify, ret.
  destruct (iv_open_map w !! tkn); [reflexivity|].
  destruct (py_get q "iv" PNone) as [iv| |]; try reflexivity.
  destruct (isinstance_num iv); reflexivity.
Qed.

Lemma same_files_observe (iv_key : string) (iv_avg : pyval) :
  keeps same_files (observe_iv_avg iv_key iv_avg).
Proof.
  intros w. unfold observe_iv_avg, bind, get_world, modify, ret.
  destruct iv_avg;
    try (destruct (iv_open_map w !! iv_key)); reflexivity.
Qed.

(** The paths of the snapshot files of a cycle. *)

Lemma string_app_inv_head (s a b : string) : s +:+ a = s +:+ b -> a = b.
Proof.
  induction s as [|ch s IH]; cbn; intros H; [exact H|].
  injection H as H. apply IH. exact H.
Qed.

(** The path tells the leg. *)
Lemma snapshot_path_key (raw_dir snapshot_time : string) (k k' : leg_key)
    (exp exp' : date) :
  In k cycle_keys -> In k' cycle_keys ->
  snapshot_path raw_dir snapshot_time (fst (fst k)) (snd (fst k)) (snd k) exp
  = snapshot_path raw_dir snapshot_time (fst (fst k')) (snd (fst k'))
                  (snd k') exp' ->
  k = k'.
Proof.
  intros Hk Hk' H. unfold snapshot_path in H.
  apply string_app_inv_head in H.
  cbn in Hk, Hk'.
  repeat (destruct Hk as [<-|Hk]; [|]); try contradiction;
    repeat (destruct Hk' as [<-|Hk']; [|]); try contradiction;
    cbn in H; first [reflexivity|discriminate H].
Qed.

Lemma written_for_in (raw_dir snapshot_time : string) (k : leg_key)
    (p : string) (ks : list leg_key) (fs : list (string * pyval)) :
  Forall2 (written_for raw_dir snapshot_time) ks fs ->
  In k cycle_keys -> List.incl ks cycle_keys ->
  (exists exp,
     p = snapshot_path raw_dir snapshot_time (fst (fst k)) (snd (fst k))
                       (snd k) exp) ->
  In p (map fst fs) -> In k ks.
Proof.
  intros HF Hk. induction HF as [|k' f' ks fs Hkf' HF IH]; intros Hin Hp Hf;
    [destruct Hf|].
  cbn in Hf. destruct Hf as [Hf|Hf].
  - left. destruct Hp as [e He], Hkf' as [e' He'].
    rewrite He, He' in Hf.
    apply (snapshot_path_key raw_dir snapshot_time k' k e' e);
      [apply Hin; left; reflexivity|exact Hk|exact Hf].
  - right. apply IH; [|exact Hp|exact Hf].
    intros x Hx. apply Hin. right. exact Hx.
Qed.

Lemma written_for_paths (raw_dir snapshot_time : string)
    (ks : list leg_key) (fs : list (string * pyval)) :
  Forall2 (written_for raw_dir snapshot_time) ks fs ->
  List.incl ks cycle_keys -> List.NoDup ks -> List.NoDup (map fst fs).
Proof.
  intros HF. induction HF as [|k f ks fs Hkf HF IH]; intros Hin Hnd; cbn.
  - constructor.
  - inversion Hnd as [|? ? Hk Hks]; subst.
    assert (Hin' : List.incl ks cycle_keys).
    { intros x Hx. apply Hin. right. exact Hx. }
    constructor; [|apply IH; assumption].
    intros Hf. apply Hk.
    apply (written_for_in raw_dir snapshot_time k (fst f) ks fs HF);
      [apply Hin; left; reflexivity|exact Hin'|exact Hkf|exact Hf].
Qed.

(** With the paths of a log pairwise distinct, every entry is on disk. *)
Lemma assoc_app_nodup (fs rest : list (string * pyval)) (p : string)
    (rec : pyval) :
  List.NoDup (map fst fs) -> In (p, rec) fs -> assoc p (fs ++ rest)%list = Some rec.
Proof.
  induction fs as [|[p' r'] fs IH]; intros Hnd Hin; [destruct Hin|].
  cbn in Hnd. inversion Hnd as [|? ? Hp Hfs]; subst.
  cbn [assoc app]. destruct Hin as [E|Hin].
  - injection E as -> ->. rewrite String.eqb_refl. reflexivity.
  - destruct (String.eqb_spec p p') as [->|_]; [|apply IH; assumption].
    exfalso. apply Hp. apply (List.in_map fst) in Hin. exact Hin.
Qed.

Lemma assoc_app_other (fs rest : list (string * pyval)) (p : string) :
  ~ In p (map fst fs) -> assoc p (fs ++ rest)%list = assoc p rest.
Proof.
  induction fs as [|[p' r'] fs IH]; intros Hp; [reflexivity|].
  cbn [assoc app]. destruct (String.eqb_spec p p') as [->|_].
  - exfalso. apply Hp. left. reflexivity.
  - apply IH. intros H. apply Hp. right. exact H.
Qed.

Section TracksKeys.

Variable raw_dir snapshot_time : string.

Abbreviation tracking := (tracks_keys raw_dir snapshot_time).

Lemma tracks_keys_ret (T : list leg_key) (c : cycle) :
  tracking T (legs c) (ret c).
Proof.
  intros w w' c' H. inversion H; subst. exists [], [].
  split; [cbn; rewrite List.app_nil_r; reflexivity|].
  split; [reflexivity|]. split; [constructor|].
  split; [constructor|]. intros x [].
Qed.

Lemma tracks_keys_bind_frame {A} (m : M A) (k : A -> M cycle)
    (T : list leg_key) (l0 : list pyval) :
  keeps same_files m -> (forall a, tracking T l0 (k a)) ->
  tracking T l0 (bind m k).
Proof.
  intros Hm Hk w w' c' H. unfold bind in H. specialize (Hm w).
  destruct (m w) as [w1 [a| |]]; try discriminate H.
  cbn [fst] in Hm.
  destruct (Hk a w1 w' c' H) as (fs & ks & Hl & Hf & Hrest).
  exists fs, ks. split; [exact Hl|]. split; [|exact Hrest].
  rewrite Hf, Hm. reflexivity.
Qed.

Lemma tracks_keys_weaken (T T' : list leg_key) (l0 : list pyval)
    (m : M cycle) :
  List.incl T T' -> tracking T l0 m -> tracking T' l0 m.
Proof.
  intros HT Hm w w' c' H.
  destruct (Hm w w' c' H) as (fs & ks & Hl & Hf & HF & Hnd & Hin).
  exists fs, ks. repeat (split; [assumption|]).
  intros x Hx. apply HT, Hin, Hx.
Qed.

Lemma NoDup_app_parts {A} (l1 l2 : list A) :
  List.NoDup (l1 ++ l2)%list ->
  List.NoDup l1 /\ List.NoDup l2 /\ forall x, In x l1 -> In x l2 -> False.
Proof.
  induction l1 as [|a l1 IH]; cbn; intros H.
  - split; [constructor|]. split; [exact H|]. intros x [].
  - inversion H as [|? ? Ha Hl]; subst.
    destruct (IH Hl) as (H1 & H2 & H3).
    split; [constructor; [|exact H1]|split; [exact H2|]].
    + intros Hin. apply Ha. apply List.in_or_app. left. exact Hin.
    + intros x [<-|Hx] Hx2.
      * apply Ha. apply List.in_or_app. right. exact Hx2.
      * apply (H3 x Hx Hx2).
Qed.

Lemma NoDup_app_join {A} (l1 l2 : list A) :
  List.NoDup l1 -> List.NoDup l2 -> (forall x, In x l1 -> In x l2 -> False) ->
  List.NoDup (l1 ++ l2)%list.
Proof.
  induction l1 as [|a l1 IH]; cbn; intros H1 H2 H3; [exact H2|].
  inversion H1 as [|? ? Ha Hl]; subst.
  constructor.
  - intros Hin. apply List.in_app_or in Hin. destruct Hin as [Hin|Hin].
    + apply Ha, Hin.
    + apply (H3 a); [left; reflexivity|exact Hin].
  - apply IH; [exact Hl|exact H2|].
    intros x Hx Hx2. apply (H3 x); [right; exact Hx|exact Hx2].
Qed.

(** A loop whose rounds write for disjoint sets of legs. *)
Lemma tracks_keys_for_each {A} (body : cycle -> A -> M cycle)
    (T : A -> list leg_key) (xs : list A) :
  (forall c x, tracking (T x) (legs c) (body c x)) ->
  List.NoDup (concat (map T xs)) ->
  forall c, tracking (concat (map T xs)) (legs c) (for_each body xs c).
Proof.
  intros Hb. induction xs as [|x xs IH]; intros Hnd c; cbn [for_each].
  - apply tracks_keys_ret.
  - cbn [map concat] in Hnd |- *.
    destruct (NoDup_app_parts _ _ Hnd) as (Hn1 & Hn2 & Hdis).
    intros w w' c' H. unfold bind in H.
    destruct (body c x w) as [w1 [c1| |]] eqn:E; try discriminate H.
    destruct (Hb c x w w1 c1 E) as (fs1 & ks1 & Hl1 & Hf1 & HF1 & Hd1 & Hi1).
    destruct (IH Hn2 c1 w1 w' c' H)
      as (fs2 & ks2 & Hl2 & Hf2 & HF2 & Hd2 & Hi2).
    exists (fs2 ++ fs1)%list, (ks2 ++ ks1)%list.
    split; [|split; [|split; [|split]]].
    + rewrite Hl2, Hl1, List.map_app, List.rev_app_distr, <- !List.app_assoc.
      reflexivity.
    + rewrite Hf2, Hf1, <- !List.app_assoc. reflexivity.
    + apply Forall2_app; assumption.
    + apply NoDup_app_join; [exact Hd2|exact Hd1|].
      intros k Hk2 Hk1. apply (Hdis k); [apply Hi1, Hk1|apply Hi2, Hk2].
    + intros k Hk. apply List.in_or_app. apply List.in_app_or in Hk.
      destruct Hk as [Hk|Hk]; [right; apply Hi2, Hk|left; apply Hi1, Hk].
Qed.

End TracksKeys.

Section CycleInvariants.

Variable kite : nat -> string -> list string -> upstream.
Variable ensure_token_fn : nat -> option exn.
Variable insts_nfo insts_bfo : list instrument.
Variable raw_dir : string.
Variable use_dynamic_expiries : bool.
Variable influx_writer : option (point -> option exn).
Variable fromisoformat : pyval -> option pyval.
Variable str_other : pyval -> string.
Variable discover_weeklies_for_index :
  list instrument -> list instrument -> index -> Z -> list date.
Variable discover_monthlies_for_index :
  list instrument -> list instrument -> index -> Z
  -> option date * option date.
Variable today : date.
Variable snapshot_time : string.
Variable rounded_half_minute_now : nat -> pyval.
Variable fs_write : string -> pyval -> option exn.
Variable fuel : nat.

Abbreviation the_leg :=
  (collect_leg raw_dir influx_writer fromisoformat str_other today
     snapshot_time rounded_half_minute_now fs_write).

Abbreviation the_cycle :=
  (collect kite ensure_token_fn insts_nfo insts_bfo raw_dir
     use_dynamic_expiries influx_writer fromisoformat str_other
     discover_weeklies_for_index discover_monthlies_for_index
     today snapshot_time rounded_half_minute_now fs_write fuel).

Lemma stays_typed_leg idx label exp atm c leg :
  keeps stays_typed (the_leg idx label exp atm c leg).
Proof.
  intros w.
  destruct (collect_leg_effect raw_dir influx_writer fromisoformat str_other
              today snapshot_time rounded_half_minute_now fs_write
              idx label exp atm c leg w)
    as [[-> _]|(rec & path & _ & [->|[p ->]])];
    [apply stays_typed_refl| |]; apply stays_typed_same_maps; reflexivity.
Qed.

Lemma sinks_grow_leg idx label exp atm c leg :
  keeps sinks_grow (the_leg idx label exp atm c leg).
Proof.
  intros w.
  destruct (collect_leg_effect raw_dir influx_writer fromisoformat str_other
              today snapshot_time rounded_half_minute_now fs_write
              idx label exp atm c leg w)
    as [[-> _]|(rec & path & _ & [->|[p ->]])].
  - apply sinks_grow_refl.
  - exists [(path, rec)], []. repeat split. cbn. lia.
  - exists [(path, rec)], [p]. repeat split. cbn. lia.
Qed.

Abbreviation tracking := (tracks_keys raw_dir snapshot_time).

(** The round of a leg that returns has written the snapshot file of the
    leg, at its path. *)
Lemma collect_leg_path (idx : index) (label : string) (exp : date) (atm : Z)
    (c : cycle) (side tkn : string) (q : pyval) (w w' : world) (c' : cycle) :
  the_leg idx label exp atm c (side, tkn, q) w = (w', Ok c') ->
  exists rec,
    c' = append_leg rec c /\
    files w'
    = (snapshot_path raw_dir snapshot_time idx label side exp, rec)
      :: files w.
Proof.
  unfold collect_leg, bind, get_world, lift, ret, save_json.
  cbv beta iota.
  destruct (make_leg _ idx label side exp today atm _ q) as [rec| |];
    cbv beta iota; try discriminate.
  match goal with
  | |- context [fs_write ?p rec] => destruct (fs_write p rec) eqn:Efs
  end; cbv beta iota; try discriminate.
  match goal with
  | |- context [save_point _ _ _ rec ?w0] =>
    destruct (save_point_effect influx_writer fromisoformat str_other rec w0)
      as [Hs Hw];
    destruct (save_point influx_writer fromisoformat str_other rec w0)
      as [w2 o]
  end.
  cbn [fst snd] in Hs, Hw. subst o. intros H. inversion H; subst w' c'.
  exists rec. split; [reflexivity|].
  destruct Hw as [->|[p ->]]; reflexivity.
Qed.

Lemma tracks_keys_leg idx label exp atm c leg :
  tracking [(idx, label, fst (fst leg))] (legs c)
           (the_leg idx label exp atm c leg).
Proof.
  destruct leg as [[side tkn] q]. intros w w' c' H.
  destruct (collect_leg_path idx label exp atm c side tkn q w w' c' H)
    as (rec & -> & Hf).
  exists [(snapshot_path raw_dir snapshot_time idx label side exp, rec)],
         [(idx, label, side)].
  split; [reflexivity|]. split; [exact Hf|].
  split; [constructor; [exists exp; reflexivity|constructor]|].
  split; [constructor; [intros []|constructor]|].
  intros x Hx. exact Hx.
Qed.

(** X22. A cycle keeps the baselines typed: if every stored open interest
    is an [int] and every stored implied volatility, of a token or of a
    bucket, is an [int] or a [float], the same holds after [collect],
    whatever the broker answers and whether or not the cycle raises. *)
Theorem collect_keeps_baselines_typed (w : world) :
  typed_baselines w -> typed_baselines (fst (the_cycle w)).
Proof.
  revert w.
  apply (keeps_collect stays_typed stays_typed_refl stays_typed_trans
           stays_typed_frame stays_typed_seed_oi stays_typed_seed_iv
           stays_typed_observe).
  apply stays_typed_leg.
Qed.

(** X23. Whatever the broker answers and whether or not the cycle raises,
    a cycle makes no more point writes than snapshot writes: a leg goes to
    the time series only once its snapshot has been written. The two logs
    of writes are otherwise as they were before the cycle. *)
Theorem collect_writes_no_more_points_than_snapshots (w : world) :
  exists fs ps,
    files (fst (the_cycle w)) = (fs ++ files w)%list /\
    points (fst (the_cycle w)) = (ps ++ points w)%list /\
    (length ps <= length fs)%nat.
Proof.
  revert w.
  apply (keeps_collect sinks_grow sinks_grow_refl sinks_grow_trans
           sinks_grow_frame sinks_grow_seed_oi sinks_grow_seed_iv
           (fun k v _ => sinks_grow_observe k v)).
  apply sinks_grow_leg.
Qed.

Ltac frame_step :=
  first
    [ apply (keeps_safe_call same_files same_files_refl same_files_trans
               same_files_frame)
    | apply same_files_seed_oi | apply same_files_seed_iv
    | apply same_files_observe
    | apply (keeps_ret same_files same_files_refl)
    | apply (keeps_lift same_files same_files_refl)
    | apply (keeps_bind same_files same_files_trans); [|intros ?] ].

Lemma tracks_keys_bucket idx atm pool c pair :
  tracking (bucket_keys idx (fst pair)) (legs c)
    (collect_bucket kite ensure_token_fn raw_dir influx_writer fromisoformat
       str_other today snapshot_time rounded_half_minute_now fs_write fuel
       idx atm pool c pair).
Proof.
  destruct pair as [label [exp|]]; unfold collect_bucket; cbn [fst];
    [|apply tracks_keys_ret].
  destruct (_get_tokens pool idx atm exp) as [[ce_tkn|] [pe_tkn|]];
    try apply tracks_keys_ret.
  destruct (_ || _); [apply tracks_keys_ret|]. unfold seed.
  repeat match goal with
         | |- tracks_keys _ _ _ _ (bind _ _) =>
           apply tracks_keys_bind_frame; [repeat frame_step|intros ?]
         end.
  match goal with
  | |- tracks_keys _ _ _ _ (for_each _ ?xs ?c0) =>
    apply (tracks_keys_for_each raw_dir snapshot_time
             (the_leg idx label exp atm)
             (fun leg => [(idx, label, fst (fst leg))]) xs
             (tracks_keys_leg idx label exp atm)) with (c := c0)
  end.
  cbn. repeat constructor; cbn; intuition congruence.
Qed.

Lemma NoDup_index_keys (idx : index) : List.NoDup (index_keys idx).
Proof. cbn. repeat constructor; cbn; intuition congruence. Qed.

Lemma tracks_keys_index c idx :
  tracking (index_keys idx) (legs c)
    (collect_index kite ensure_token_fn insts_nfo insts_bfo raw_dir
       use_dynamic_expiries influx_writer fromisoformat str_other
       discover_weeklies_for_index discover_monthlies_for_index
       today snapshot_time rounded_half_minute_now fs_write fuel c idx).
Proof.
  unfold collect_index, _spot_price.
  apply tracks_keys_bind_frame; [repeat frame_step|intros spot].
  assert (Hgo :
    tracking (index_keys idx) (legs c)
      (bind (lift (atm_of spot (STEP idx)))
         (fun atm =>
            bind (lift (pairs_for idx
                          (if use_dynamic_expiries
                           then _discover_expiries_for_idx insts_nfo insts_bfo
                                  discover_weeklies_for_index
                                  discover_monthlies_for_index idx atm
                           else [])))
              (fun pairs =>
                 for_each
                   (collect_bucket kite ensure_token_fn raw_dir influx_writer
                      fromisoformat str_other today snapshot_time
                      rounded_half_minute_now fs_write fuel idx atm
                      (_pool_for_idx insts_nfo insts_bfo idx))
                   pairs (open_index idx c))))).
  { intros w w' c' H. unfold bind at 1 in H. unfold lift at 1 in H.
    destruct (atm_of spot (STEP idx)) as [atm| |]; try discriminate H.
    unfold bind at 1 in H. unfold lift at 1 in H.
    destruct (pairs_for idx _) as [pairs| |] eqn:Ep; try discriminate H.
    assert (Hpairs : exists rest,
              (map fst pairs ++ rest)%list
              = ["this_week"; "next_week"; "this_month"; "next_month"]
              \/ (rest ++ map fst pairs)%list
                 = ["this_week"; "next_week"; "this_month"; "next_month"]).
    { unfold pairs_for in Ep. destruct idx.
      - injection Ep as <-. exists []. left. reflexivity.
      - injection Ep as <-. exists []. left. reflexivity.
      - destruct (exps_item "monthly" _) as [monthly| |];
          try discriminate Ep.
        cbn [obind] in Ep. injection Ep as <-.
        exists ["this_week"; "next_week"]. right. reflexivity. }
    assert (HT : forall c0 x,
              tracking (bucket_keys idx (fst x)) (legs c0)
                (collect_bucket kite ensure_token_fn raw_dir influx_writer
                   fromisoformat str_other today snapshot_time
                   rounded_half_minute_now fs_write fuel idx atm
                   (_pool_for_idx insts_nfo insts_bfo idx) c0 x)).
    { intros c0 x. apply tracks_keys_bucket. }
    pose proof (NoDup_index_keys idx) as Hnd. unfold index_keys in Hnd.
    assert (Hsub : List.NoDup (concat (map (fun x : string * option date =>
                                         bucket_keys idx (fst x)) pairs))
                   /\ List.incl
                        (concat (map (fun x : string * option date =>
                                        bucket_keys idx (fst x)) pairs))
                        (index_keys idx)).
    { rewrite <- (List.map_map fst (bucket_keys idx)).
      unfold index_keys. destruct Hpairs as [rest [E|E]]; rewrite <- E in *;
        rewrite List.map_app, List.concat_app in *;
        destruct (NoDup_app_parts _ _ Hnd) as (H1 & H2 & _).
      - split; [exact H1|]. intros x Hx. apply List.in_or_app. left. exact Hx.
      - split; [exact H2|]. intros x Hx. apply List.in_or_app. right. exact Hx. }
    destruct Hsub as [Hnd' Hin'].
    apply (tracks_keys_weaken raw_dir snapshot_time _ _ _ _ Hin'
             (tracks_keys_for_each raw_dir snapshot_time _
                (fun x : string * option date => bucket_keys idx (fst x))
                pairs HT Hnd' (open_index idx c)) w w' c' H). }
  destruct spot; try exact Hgo. apply tracks_keys_ret.
Qed.

(** X24. When a cycle returns, the legs it returns are exactly the records
    of the snapshot writes it has made, in the order of writing. The writes
    went to pairwise distinct paths, so each leg has a file of its own,
    which holds the record of that leg after the cycle; and a path that the
    cycle has not written holds what it held before. *)
Theorem returned_legs_are_the_files_written (w w' : world) (v : pyval) :
  the_cycle w = (w', Ok v) ->
  exists ls aggs fs,
    v = PDict [("legs", PList ls); ("overview_aggs", PDict aggs)] /\
    files w' = (fs ++ files w)%list /\
    map snd fs = rev ls /\
    List.NoDup (map fst fs) /\
    (forall p rec, In (p, rec) fs -> on_disk w' p = Some rec) /\
    (forall p, ~ In p (map fst fs) -> on_disk w' p = on_disk w p).
Proof.
  unfold collect. intros H. unfold bind at 1 in H.
  match type of H with
  | match ?m w with _ => _ end = _ =>
    destruct (m w) as [w1 [c| |]] eqn:E; try discriminate H
  end.
  inversion H; subst w' v.
  assert (Hnd : List.NoDup (concat (map index_keys [NIFTY; SENSEX; BANKNIFTY]))).
  { cbn. repeat constructor; cbn; intuition congruence. }
  destruct (tracks_keys_for_each raw_dir snapshot_time _ index_keys
              [NIFTY; SENSEX; BANKNIFTY] tracks_keys_index Hnd
              {| legs := []; overview_aggs := [] |} w w1 c E)
    as (fs & ks & Hl & Hf & HF & Hks & Hin).
  pose proof (written_for_paths raw_dir snapshot_time ks fs HF Hin Hks)
    as Hpaths.
  exists (legs c), (overview_aggs c), fs.
  split; [reflexivity|]. split; [exact Hf|].
  split; [cbn [legs app] in Hl; rewrite Hl, List.rev_involutive; reflexivity|].
  split; [exact Hpaths|]. unfold on_disk. rewrite Hf. split.
  - intros p rec Hp. apply assoc_app_nodup; assumption.
  - intros p Hp. apply assoc_app_other. exact Hp.
Qed.

End CycleInvariants.

(** ** A cycle against a broker that does not answer *)

Section DeadBroker.

Variable kite : nat -> string -> list string -> upstream.
Variable ensure_token_fn : nat -> option exn.
Variable insts_nfo insts_bfo : list instrument.
Variable raw_dir : string.
Variable use_dynamic_expiries : bool.
Variable influx_writer : option (point -> option exn).
Variable fromisoformat : pyval -> option pyval.
Variable str_other : pyval -> string.
Variable discover_weeklies_for_index :
  list instrument -> list instrument -> index -> Z -> list date.
Variable discover_monthlies_for_index :
  list instrument -> list instrument -> index -> Z
  -> option date * option date.
Variable today : date.
Variable snapshot_time : string.
Variable rounded_half_minute_now : nat -> pyval.
Variable fs_write : string -> pyval -> option exn.
Variable fuel : nat.

Hypothesis spot_quotes_fail :
  forall n idx, is_terminal (kite n "quote" [SPOT_SYMBOL idx]) = true.

(** An index whose spot quote fails is passed over. *)
Lemma collect_index_dead (c : cycle) (idx : index) (w : world) :
  collect_index kite ensure_token_fn insts_nfo insts_bfo raw_dir
    use_dynamic_expiries influx_writer fromisoformat str_other
    discover_weeklies_for_index discover_monthlies_for_index
    today snapshot_time rounded_half_minute_now fs_write (S fuel) c idx w
  = (fst (invoke kite "quote" [SPOT_SYMBOL idx] w), Ok c).
Proof.
  unfold collect_index, _spot_price, bind.
  rewrite safe_call_terminal by apply spot_quotes_fail.
  reflexivity.
Qed.

(** X25. When the spot quote of every index fails with an error that is
    not retried, the cycle does not raise: it returns no legs and no
    aggregates after exactly three broker invocations, without refreshing
    the token, sleeping, seeding a baseline or writing anything. *)
Theorem collect_with_dead_broker_is_empty (w : world) :
  exists w',
    collect kite ensure_token_fn insts_nfo insts_bfo raw_dir
      use_dynamic_expiries influx_writer fromisoformat str_other
      discover_weeklies_for_index discover_monthlies_for_index
      today snapshot_time rounded_half_minute_now fs_write (S fuel) w
    = (w', Ok (PDict [("legs", PList []); ("overview_aggs", PDict [])])) /\
    kite_calls w' = (kite_calls w + 3)%nat /\
    refreshes w' = refreshes w /\
    slept w' = slept w /\
    same_stores w w'.
Proof.
  eexists. split.
  - unfold collect. cbn [for_each]. unfold bind.
    rewrite !collect_index_dead. reflexivity.
  - cbn [fst invoke kite_calls refreshes slept].
    repeat split. lia.
Qed.

End DeadBroker.

(** ** The properties above, on the sessions of [Scenarios] *)

(** Two expired-token failures, then the spot quote. *)
Lemma safe_call_recovers_after_auth_failures_witness :
  exists w',
    safe_call (Scenarios.first_then 2 Scenarios.auth_failure
                 Scenarios.some_payload)
              Scenarios.refresh_fails 4 "quote" ["NSE:NIFTY 50"] world0
    = (w', Ok Scenarios.some_payload) /\
    kite_calls w' = 3%nat /\ refreshes w' = 2%nat /\ slept w' = [].
Proof.
  apply (safe_call_recovers_after_auth_failures
           (Scenarios.first_then 2 Scenarios.auth_failure
              Scenarios.some_payload)
           Scenarios.refresh_fails "quote" ["NSE:NIFTY 50"] 4 2 world0
           Scenarios.some_payload).
  - unfold max_retries. lia.
  - lia.
  - intros i Hi. destruct i as [|[|i]]; [reflexivity|reflexivity|lia].
  - reflexivity.
Defined.

(** A connection error. *)
Lemma safe_call_terminal_failure_no_retry_witness :
  safe_call (Scenarios.always (RaisesOther (OtherError "connection")))
            Scenarios.refresh_ok 1 "quote" ["NSE:NIFTY 50"] world0
  = (fst (invoke (Scenarios.always (RaisesOther (OtherError "connection")))
                 "quote" ["NSE:NIFTY 50"] world0),
     Ok empty_dict).
Proof.
  apply (safe_call_terminal_failure_no_retry
           (Scenarios.always (RaisesOther (OtherError "connection")))
           Scenarios.refresh_ok "quote" ["NSE:NIFTY 50"] 0 world0).
  reflexivity.
Defined.

(** A broker that answers 429, without a header, to every attempt. *)
Lemma safe_call_backoff_schedule_witness :
  exists w',
    safe_call (Scenarios.always
                 (RaisesHTTP (Some {| status_code := 429;
                                      http_headers := Absent |})))
              Scenarios.refresh_ok 4 "quote" ["NSE:NIFTY 50"] world0
    = (w', Ok empty_dict) /\
    kite_calls w' = 4%nat /\
    refreshes w' = 0%nat /\
    slept w' = [16 # 10; 8 # 10; 4 # 10; 2 # 10]%Q.
Proof.
  apply (safe_call_backoff_schedule
           (Scenarios.always
              (RaisesHTTP (Some {| status_code := 429;
                                   http_headers := Absent |})))
           Scenarios.refresh_ok "quote" ["NSE:NIFTY 50"] 4 world0).
  - unfold max_retries. lia.
  - intros i Hi. reflexivity.
Defined.

(** A broker that answers 429 with [Retry-After: 5]. *)
Lemma safe_call_honours_positive_hint_witness :
  exists ds d0,
    slept (fst (safe_call
                  (Scenarios.always
                     (RaisesHTTP (Some {| status_code := 429;
                                          http_headers := IntText 5 |})))
                  Scenarios.refresh_ok 4 "quote" ["NSE:NIFTY 50"] world0))
    = (ds ++ [d0])%list /\
    (d0 == 2)%Q /\ (length ds <= 3)%nat.
Proof.
  apply (safe_call_honours_positive_hint
           (Scenarios.always
              (RaisesHTTP (Some {| status_code := 429;
                                   http_headers := IntText 5 |})))
           Scenarios.refresh_ok "quote" ["NSE:NIFTY 50"] 3 world0 5).
  - lia.
  - reflexivity.
Defined.

(** A broker whose token never comes back. *)
Lemma safe_ltp_empty_or_truthy_witness :
  exists w' v,
    safe_ltp (Scenarios.always Scenarios.auth_failure) Scenarios.refresh_fails
             4 ["NSE:NIFTY 50"] world0 = (w', Ok v) /\
    (v = empty_dict \/
     (truthy v = true /\
      exists n, Scenarios.always Scenarios.auth_failure n "ltp"
                  ["NSE:NIFTY 50"] = Returns v)).
Proof.
  apply (safe_ltp_empty_or_truthy
           (Scenarios.always Scenarios.auth_failure) Scenarios.refresh_fails
           4 ["NSE:NIFTY 50"] world0).
  - intros n. reflexivity.
  - unfold max_retries. lia.
Defined.

(** NIFTY at 24821 with its step of 50. *)
Lemma atm_strike_within_half_step_witness :
  exists atm : Z,
    atm_of_binary64 (PInt 24821) (STEP NIFTY) = Ok atm /\
    (Qabs (inject_Z 24821 - inject_Z atm) <= inject_Z (STEP NIFTY) / 2)%Q.
Proof.
  apply (atm_strike_within_half_step (PInt 24821) (inject_Z 24821) (STEP NIFTY)).
  - reflexivity.
  - reflexivity.
  - reflexivity.
  - vm_compute. reflexivity.
  - unfold STEP. lia.
Defined.

Lemma atm_strike_monotone_witness :
  atm_strike (inject_Z 24821) (STEP NIFTY)
  <= atm_strike (inject_Z 24900) (STEP NIFTY).
Proof.
  destruct (atm_strike_monotone (inject_Z 24821) (inject_Z 24900) (STEP NIFTY))
    as [H _]; [reflexivity|].
  apply H. vm_compute. discriminate.
Defined.

Lemma atm_strike_fixed_on_multiples_witness :
  atm_of_binary64 (PInt 24800) (STEP NIFTY) = Ok (496 * STEP NIFTY).
Proof.
  apply (atm_strike_fixed_on_multiples (PInt 24800) (inject_Z 24800)
           (STEP NIFTY) 496).
  - reflexivity.
  - reflexivity.
  - reflexivity.
  - vm_compute. reflexivity.
  - unfold STEP. lia.
  - reflexivity.
Defined.

(** November and December 2026: the 26th and the 31st. *)
Lemma monthly_expiries_four_or_five_weeks_apart_witness :
  days_to_expiry {| year := 2026; month := 12; day := 31 |}
                 {| year := 2026; month := 11; day := 26 |} = 28 \/
  days_to_expiry {| year := 2026; month := 12; day := 31 |}
                 {| year := 2026; month := 11; day := 26 |} = 35.
Proof.
  apply (monthly_expiries_four_or_five_weeks_apart Scenarios.today).
  - vm_compute. repeat split; discriminate.
  - right. vm_compute. reflexivity.
  - vm_compute. reflexivity.
  - vm_compute. reflexivity.
Defined.

(** The 30th of November 2026, four days after the expiry of the month. *)
Lemma this_month_expiry_may_be_past_witness :
  exists d,
    this_month_expiry {| year := 2026; month := 11; day := 30 |} = Ok d /\
    22 <= day d <= days_in_month 2026 11 /\
    days_to_expiry d {| year := 2026; month := 11; day := 30 |} = day d - 30 /\
    (day d < 30 ->
     days_to_expiry d {| year := 2026; month := 11; day := 30 |} < 0).
Proof.
  apply (this_month_expiry_may_be_past
           {| year := 2026; month := 11; day := 30 |}).
  vm_compute. repeat split; discriminate.
Defined.

(** The pool of the session: the call and the put of the weekly bucket. *)
Lemma get_tokens_both_or_neither_witness :
  exists c p,
    _get_tokens [Scenarios.nifty_ce; Scenarios.nifty_pe] NIFTY 24800
                Scenarios.weekly_expiry = (Some c, Some p).
Proof.
  destruct (get_tokens_both_or_neither
              [Scenarios.nifty_ce; Scenarios.nifty_pe] NIFTY 24800
              Scenarios.weekly_expiry) as [_ H].
  apply (H Scenarios.nifty_ce Scenarios.nifty_pe).
  - left. reflexivity.
  - right. left. reflexivity.
  - split; [reflexivity|]. split; [vm_compute; reflexivity|].
    split; [reflexivity|]. split; [|reflexivity].
    exists Scenarios.weekly_expiry. split; reflexivity.
  - split; [reflexivity|]. split; [vm_compute; reflexivity|].
    split; [reflexivity|]. split; [|reflexivity].
    exists Scenarios.weekly_expiry. split; reflexivity.
Defined.

(** Discovery that finds only a next-month date. *)
Lemma monthly_buckets_filed_by_position_witness :
  exists pairs,
    pairs_for BANKNIFTY
      (_discover_expiries_for_idx [] [] Scenarios.weeklies_one
         (fun _ _ _ _ => (None, Some Scenarios.weekly_expiry))
         BANKNIFTY 55000)
    = Ok pairs /\
    In ("this_month", Some Scenarios.weekly_expiry) pairs /\
    In ("next_month", None) pairs.
Proof.
  apply (monthly_buckets_filed_by_position [] [] Scenarios.weeklies_one
           (fun _ _ _ _ => (None, Some Scenarios.weekly_expiry))
           BANKNIFTY 55000 None (Some Scenarios.weekly_expiry)).
  reflexivity.
Defined.

(** The call leg of the weekly NIFTY bucket of the session. *)
Lemma collected_leg_reaches_time_series_witness :
  exists p,
    write_atm_leg (fun v => Some v) (fun _ => "") Scenarios.influx_ok
      Sessions.call_leg world0
    = (with_point p world0, Ok tt) /\
    time p = Scenarios.stamp 0 /\
    tags p = [("index", "NIFTY"); ("option_type", "CE");
              ("expiration", "2026-11-10"); ("strike", "24800");
              ("bucket", "this_week")] /\
    In ("days_to_expiry", PInt 6) (fields p) /\
    In ("atm_strike_val", PInt 24800) (fields p).
Proof.
  apply (collected_leg_reaches_time_series
           (fun v => Some v) (fun _ => "") Scenarios.influx_ok
           (Scenarios.stamp 0) (Scenarios.stamp 0) NIFTY "this_week" "CALL"
           Scenarios.weekly_expiry Scenarios.today 24800 (PInt 1000)
           Sessions.call_quote
           Sessions.call_leg world0).
  - vm_compute. reflexivity.
  - reflexivity.
  - intros p. reflexivity.
Defined.

(** The session, started without baselines. *)
Lemma collect_keeps_baselines_typed_witness :
  typed_baselines
    (fst (Scenarios.run_cycle Scenarios.book true Scenarios.disk_ok
            Scenarios.influx_ok)).
Proof.
  apply (collect_keeps_baselines_typed
           (Scenarios.quoting Scenarios.book) Scenarios.refresh_ok
           [Scenarios.nifty_ce; Scenarios.nifty_pe] []
           "data/raw_snapshots/options" true (Some Scenarios.influx_ok)
           (fun v => Some v) (fun _ => "") Scenarios.weeklies_one
           Scenarios.monthlies_none Scenarios.today "20261104_101500"
           Scenarios.stamp Scenarios.disk_ok 4 world0).
  split; intros k v H; cbn [world0 oi_open_map iv_open_map] in H;
    rewrite lookup_empty in H; discriminate H.
Defined.

Lemma returned_legs_are_the_files_written_witness :
  exists ls aggs fs,
    snd (Scenarios.run_cycle Scenarios.book true Scenarios.disk_ok
           Scenarios.influx_ok)
    = Ok (PDict [("legs", PList ls); ("overview_aggs", PDict aggs)]) /\
    files (fst (Scenarios.run_cycle Scenarios.book true Scenarios.disk_ok
                  Scenarios.influx_ok)) = (fs ++ [])%list /\
    map snd fs = rev ls /\
    List.NoDup (map fst fs).
Proof.
  destruct (Scenarios.run_cycle Scenarios.book true Scenarios.disk_ok
              Scenarios.influx_ok) as [w' [v| |]] eqn:E;
    [|vm_compute in E; discriminate E|vm_compute in E; discriminate E].
  destruct (returned_legs_are_the_files_written
              (Scenarios.quoting Scenarios.book) Scenarios.refresh_ok
              [Scenarios.nifty_ce; Scenarios.nifty_pe] []
              "data/raw_snapshots/options" true (Some Scenarios.influx_ok)
              (fun v => Some v) (fun _ => "") Scenarios.weeklies_one
              Scenarios.monthlies_none Scenarios.today "20261104_101500"
              Scenarios.stamp Scenarios.disk_ok 4 world0 w' v E)
    as (ls & aggs & fs & Hv & Hf & Hm & Hn & _).
  exists ls, aggs, fs. cbn [fst snd]. rewrite Hv. repeat split; assumption.
Defined.

(** The session, with a broker that cannot be reached. *)
Lemma collect_with_dead_broker_is_empty_witness :
  exists w',
    collect (Scenarios.always (RaisesOther (OtherError "connection")))
      Scenarios.refresh_ok [Scenarios.nifty_ce; Scenarios.nifty_pe] []
      "data/raw_snapshots/options" true (Some Scenarios.influx_ok)
      (fun v => Some v) (fun _ => "") Scenarios.weeklies_one
      Scenarios.monthlies_none Scenarios.today "20261104_101500"
      Scenarios.stamp Scenarios.disk_ok 1 world0
    = (w', Ok (PDict [("legs", PList []); ("overview_aggs", PDict [])])) /\
    kite_calls w' = 3%nat /\ refreshes w' = 0%nat /\ slept w' = [] /\
    same_stores world0 w'.
Proof.
  apply (collect_with_dead_broker_is_empty
           (Scenarios.always (RaisesOther (OtherError "connection")))
           Scenarios.refresh_ok [Scenarios.nifty_ce; Scenarios.nifty_pe] []
           "data/raw_snapshots/options" true (Some Scenarios.influx_ok)
           (fun v => Some v) (fun _ => "") Scenarios.weeklies_one
           Scenarios.monthlies_none Scenarios.today "20261104_101500"
           Scenarios.stamp Scenarios.disk_ok 0
           (fun n idx => eq_refl) world0).
Defined.

End More.
